(** * Conversation-state orchestration layer of the Matrix web client

    A shallow embedding of the orchestration code of the repository
    ([src/matrix.js], [src/app.js] and the WebRTC manager) together with
    the properties of its echo reconciler, media resolution chain, send
    recovery, pagination controller, decryption recovery and call
    signaling.

    Conventions.  JavaScript strings are [string]s read as UTF-8 bytes.
    An [async] function is embedded either as one run to completion, the
    results of the calls it awaits being supplied by an environment
    record, or, where a property is about what happens while the function
    is suspended, as the explicit sequence of its synchronous segments,
    one step per [await]. *)

From Stdlib Require Import ZArith String Ascii List Bool Lia.
From stdpp Require Import base decidable list strings gmap.
Import ListNotations.

Set Warnings "-clear-no-such-hyp".

Local Open Scope Z_scope.
Local Open Scope string_scope.
Local Open Scope list_scope.

(** ** A state-and-exception monad for the imperative code

    A computation reads and writes a state [S] (the fields of [this], the
    module globals, the log of calls made to collaborators) and either
    returns a value or throws.  State changes made before a [throw]
    persist, as in JavaScript. *)

Inductive Completion (E A : Type) : Type :=
  | Returns (a : A)
  | Throws (e : E).
Arguments Returns {E A} a.
Arguments Throws {E A} e.

Definition Run (S E A : Type) : Type := S -> Completion E A * S.

Definition ret {S E A} (a : A) : Run S E A := fun s => (Returns a, s).

Definition throw {S E A} (e : E) : Run S E A := fun s => (Throws e, s).

Definition bind {S E A B} (m : Run S E A) (k : A -> Run S E B) : Run S E B :=
  fun s =>
    match m s with
    | (Returns a, s') => k a s'
    | (Throws e, s') => (Throws e, s')
    end.

(** [try { m } catch (e) { h e }] *)
Definition try_catch {S E A} (m : Run S E A) (h : E -> Run S E A) : Run S E A :=
  fun s =>
    match m s with
    | (Returns a, s') => (Returns a, s')
    | (Throws e, s') => h e s'
    end.

Definition modify {S E} (f : S -> S) : Run S E unit := fun s => (Returns tt, f s).

#[global] Instance run_ret {S E} : MRet (Run S E) := fun A => @ret S E A.
#[global] Instance run_bind {S E} : MBind (Run S E) :=
  fun A B k m => @bind S E A B m k.

(** [for (const x of xs) { body x }] *)
Fixpoint for_of {S E A} (xs : list A) (body : A -> Run S E unit) : Run S E unit :=
  match xs with
  | [] => ret tt
  | x :: rest => bind (body x) (fun _ => for_of rest body)
  end.

Lemma bind_assoc {S E A B C} (m : Run S E A) (f : A -> Run S E B)
    (g : B -> Run S E C) (s : S) :
  bind (bind m f) g s = bind m (fun x => bind (f x) g) s.
Proof. unfold bind. destruct (m s) as [[a|e] s']; reflexivity. Qed.

(** JavaScript truthiness of a string: only the empty string is falsy. *)
Definition truthy (s : string) : bool :=
  match s with EmptyString => false | String _ _ => true end.

(** [a || b] on values that are absent ([undefined]) or strings. *)
Definition js_or (a : option string) (b : string) : string :=
  match a with
  | Some s => if truthy s then s else b
  | None => b
  end.

(** ** String helpers of the JavaScript standard library *)

(** The white space and line terminators of ECMAScript that take one
    byte in UTF-8: tab, line feed, vertical tab, form feed, carriage
    return, space. *)
Definition is_ws (c : ascii) : bool :=
  let n := nat_of_ascii c in
  ((9 <=? n)%nat && (n <=? 13)%nat) || (n =? 32)%nat.

(** The one that takes two bytes: the no-break space U+00A0. *)
Definition is_ws2 (c1 c2 : ascii) : bool :=
  ((nat_of_ascii c1 =? 194) && (nat_of_ascii c2 =? 160))%nat.

(** Those that take three bytes: U+1680, U+2000 to U+200A, the line
    and paragraph separators U+2028 and U+2029, U+202F, U+205F, U+3000
    and the byte order mark U+FEFF. *)
Definition is_ws3 (c1 c2 c3 : ascii) : bool :=
  let n1 := nat_of_ascii c1 in
  let n2 := nat_of_ascii c2 in
  let n3 := nat_of_ascii c3 in
  ((n1 =? 225) && (n2 =? 154) && (n3 =? 128)
   || (n1 =? 226) && (n2 =? 128)
      && ((128 <=? n3) && (n3 <=? 138) || (n3 =? 168) || (n3 =? 169)
          || (n3 =? 175))
   || (n1 =? 226) && (n2 =? 129) && (n3 =? 159)
   || (n1 =? 227) && (n2 =? 128) && (n3 =? 128)
   || (n1 =? 239) && (n2 =? 187) && (n3 =? 191))%nat.

Section Trimming.

(** What counts as white space of one, two and three bytes. *)
Variable w1 : ascii -> bool.
Variable w2 : ascii -> ascii -> bool.
Variable w3 : ascii -> ascii -> ascii -> bool.

(** The string without the white space it starts with. *)
Fixpoint trim_with (s : string) : string :=
  match s with
  | EmptyString => EmptyString
  | String c1 r1 =>
      if w1 c1 then trim_with r1
      else
        match r1 with
        | EmptyString => s
        | String c2 r2 =>
            if w2 c1 c2 then trim_with r2
            else
              match r2 with
              | EmptyString => s
              | String c3 r3 => if w3 c1 c2 c3 then trim_with r3 else s
              end
        end
  end.

End Trimming.

Definition trim_start : string -> string := trim_with is_ws is_ws2 is_ws3.

(** The same on a string read from its end, where the bytes of a
    character come in reverse. *)
Definition trim_reversed : string -> string :=
  trim_with is_ws (fun c1 c2 => is_ws2 c2 c1)
            (fun c1 c2 c3 => is_ws3 c3 c2 c1).

Fixpoint rev_string (s acc : string) : string :=
  match s with
  | EmptyString => acc
  | String c rest => rev_string rest (String c acc)
  end.

(** [String.prototype.trim]: the white space and the line terminators of
    ECMAScript are taken off both ends. *)
Definition js_trim (s : string) : string :=
  rev_string (trim_reversed (rev_string (trim_start s) "")) "".

(** ** Echo reconciler and send recovery ([MatrixManager], src/matrix.js) *)

Module Echo.

(** The error object thrown by [client.sendTextMessage]: its [name] and,
    for an [UnknownDeviceError], [error.devices] as the entries of
    [Object.entries], each user with the keys of its device object. *)
Record JsError := mkError {
  err_name : string;
  err_devices : list (string * list string)
}.

(** Calls made to the protocol client and the rendering surface. *)
Inductive Call :=
  | SendTextMessage (roomId body : string)
  | SetDeviceKnown (userId deviceId : string)
  | AcknowledgeUnknownDevicesInRoom (roomId : string)
  | AddMessageToUI (eventId roomId : string)
  | UpdateDMLastMessage (roomId eventId : string).

(** The part of [MatrixManager] these functions use.  [timers] are the
    pending [setTimeout] callbacks, each with its due time in milliseconds
    and the event id its callback deletes; [now] is the clock. *)
Record Manager := mkManager {
  pendingEchos : gset string;
  timers : list (Z * string);
  now : Z;
  log : list Call
}.

Definition emit (c : Call) (m : Manager) : Manager :=
  mkManager (pendingEchos m) (timers m) (now m) (log m ++ [c]).

(** What the collaborator answers: the outcome of the n-th
    [sendTextMessage] of a run ([Some id] is [resp.event_id]) and of each
    [setDeviceKnown]. *)
Record Env := mkEnv {
  send_outcome : nat -> JsError + option string;
  setDeviceKnown_outcome : string -> string -> option JsError
}.

Definition is_send (c : Call) : bool :=
  match c with SendTextMessage _ _ => true | _ => false end.

Definition sends (l : list Call) : nat := length (filter (fun c => is_send c = true) l).

Definition sendTextMessage (env : Env) (roomId body : string)
  : Run Manager JsError (option string) :=
  fun m =>
    let n := sends (log m) in
    let m' := emit (SendTextMessage roomId body) m in
    match send_outcome env n with
    | inr resp => (Returns resp, m')
    | inl e => (Throws e, m')
    end.

Definition setDeviceKnown (env : Env) (userId deviceId : string)
  : Run Manager JsError unit :=
  fun m =>
    let m' := emit (SetDeviceKnown userId deviceId) m in
    match setDeviceKnown_outcome env userId deviceId with
    | None => (Returns tt, m')
    | Some e => (Throws e, m')
    end.

(** [acknowledgeUnknownDevicesInRoom] wraps its whole body in
    [try]/[catch] and never throws. *)
Definition acknowledgeUnknownDevicesInRoom (roomId : string)
  : Run Manager JsError unit :=
  modify (emit (AcknowledgeUnknownDevicesInRoom roomId)).

(** [if (resp?.event_id) { this.pendingEchos.add(resp.event_id);
    setTimeout(() => this.pendingEchos.delete(resp.event_id), 5000); }] *)
Definition registerEcho (resp : option string) : Run Manager JsError unit :=
  match resp with
  | Some event_id =>
      if truthy event_id then
        modify (fun m =>
          mkManager ({[event_id]} ∪ pendingEchos m)
                    (timers m ++ [(now m + 5000, event_id)])
                    (now m) (log m))
      else ret tt
  | None => ret tt
  end.

Definition sendMessage (env : Env) (client : bool) (roomId : string)
    (message : option string) : Run Manager JsError unit :=
  let trimmed := match message with Some s => js_trim s | None => "" end in
  if negb client || negb (truthy roomId) || negb (truthy trimmed) then ret tt
  else
    let body := trimmed in
    try_catch
      (resp ← sendTextMessage env roomId body;
       registerEcho resp)
      (fun error =>
         if String.eqb (err_name error) "UnknownDeviceError" then
           try_catch
             (for_of (err_devices error) (fun '(userId, devices) =>
                for_of devices (fun deviceId =>
                  setDeviceKnown env userId deviceId));;
              acknowledgeUnknownDevicesInRoom roomId;;
              resp ← sendTextMessage env roomId body;
              registerEcho resp)
             (fun e2 => throw e2)
         else throw error).

(** The timer callbacks: advancing the clock by [dt] runs, in order, the
    callbacks that have come due. *)
Definition advance (dt : Z) (m : Manager) : Manager :=
  let t := now m + dt in
  let due := filter (fun '(d, _) => d <= t) (timers m) in
  let rest := filter (fun '(d, _) => ¬ d <= t) (timers m) in
  mkManager (foldl (fun s '(_, id) => s ∖ {[id]}) (pendingEchos m) due)
            rest t (log m).

(** An event of the room timeline, as [handleRoomTimelineEvent] reads it. *)
Record TimelineEvent := mkEvent {
  getType : string;
  getId : string
}.

(** [handleRoomTimelineEvent(event, room)]; [currentRoomId] is
    [window.MatrixApp.currentRoomId] ([None] also when there is no
    [window.MatrixApp]). *)
Definition handleRoomTimelineEvent (currentRoomId : option string)
    (event : TimelineEvent) (roomId : string) (m : Manager) : Manager :=
  let eventType := getType event in
  if negb (String.eqb eventType "m.room.message")
     && negb (String.eqb eventType "m.room.encrypted") then m
  else if bool_decide (getId event ∈ pendingEchos m) then m
  else
    let m1 :=
      if bool_decide (currentRoomId = Some roomId)
      then emit (AddMessageToUI (getId event) roomId) m
      else m in
    emit (UpdateDMLastMessage roomId (getId event)) m1.



(** The devices an [UnknownDeviceError] reports, in the order the two
    nested loops of [sendMessage] visit them. *)
Definition reported (error : JsError) : list (string * string) :=
  flat_map (fun '(userId, devices) => map (pair userId) devices)
           (err_devices error).




(** The inputs of the examples below: a fresh manager, a client that
    accepts the message and answers with the event id [$e1], and the echo
    of that event in room [!r]. *)
Definition fresh : Manager := mkManager ∅ [] 0 [].

Definition accepting : Env :=
  mkEnv (fun _ => inr (Some "$e1")) (fun _ _ => None).



(** A client that refuses the message because of the unknown device
    [DEV1] of [@bob:hs], and whose [setDeviceKnown] throws. *)
Definition unknown_device : JsError :=
  mkError "UnknownDeviceError" [("@bob:hs", ["DEV1"])].

Definition no_such_method : JsError := mkError "TypeError" [].

Definition refusing : Env :=
  mkEnv (fun n => match n with O => inl unknown_device | _ => inr (Some "$e2") end)
        (fun _ _ => Some no_such_method).


(** *** Properties of the echo reconciler *)




Lemma foldl_delete_not_elem (due : list (Z * string)) (s : gset string) id :
  id ∉ s → id ∉ foldl (fun s '(_, i) => s ∖ {[i]}) s due.
Proof.
  revert s. induction due as [|[d i] due IH]; intros s Hs; simpl; [done|].
  apply IH. set_solver.
Qed.

Lemma foldl_delete_due (due : list (Z * string)) (s : gset string) d id :
  (d, id) ∈ due → id ∉ foldl (fun s '(_, i) => s ∖ {[i]}) s due.
Proof.
  revert s. induction due as [|[d' i] due IH]; intros s Hin; simpl.
  - by apply not_elem_of_nil in Hin.
  - apply elem_of_cons in Hin as [Heq|Hin].
    + inversion Heq; subst. apply foldl_delete_not_elem. set_solver.
    + by apply IH.
Qed.

(** A timer callback that has come due has deleted its event id. *)
Lemma advance_deletes dt d id m :
  (d, id) ∈ timers m → d <= now m + dt → id ∉ pendingEchos (advance dt m).
Proof.
  intros Hin Hdue. unfold advance; simpl.
  apply (foldl_delete_due _ _ d).
  apply list_elem_of_filter. split; [done|done].
Qed.









(** *** Properties of the send recovery *)

Lemma sends_app l1 l2 : sends (l1 ++ l2) = (sends l1 + sends l2)%nat.
Proof. unfold sends. by rewrite filter_app, length_app. Qed.


(** The two nested loops visit the reported devices in order. *)
Lemma nested_loops_flatten env (entries : list (string * list string)) m :
  for_of entries (fun '(userId, devices) =>
    for_of devices (fun deviceId => setDeviceKnown env userId deviceId)) m =
  for_of (flat_map (fun '(userId, devices) => map (pair userId) devices) entries)
    (fun device => setDeviceKnown env device.1 device.2) m.
Proof.
  revert m. induction entries as [|[u ds] entries IH]; intros m; [done|].
  simpl. revert m. induction ds as [|d ds IHd]; intros m; simpl.
  - unfold bind at 1. simpl. apply IH.
  - rewrite bind_assoc. unfold bind at 1 3.
    destruct (setDeviceKnown env u d m) as [[[]|e] m']; [apply IHd|done].
Qed.










End Echo.

(** ** Media resolution ([MatrixManager.resolveMxcDownloadUrl] in
    src/matrix.js; [getMediaUrl] and the [m.image] case of
    [formatMessageContent] in src/app.js) *)

Module Media.

(** [s.startsWith(p)] and the rest of [s] after [p]. *)
Fixpoint strip_prefix (p s : string) : option string :=
  match p, s with
  | EmptyString, _ => Some s
  | String a p', String b s' =>
      if Ascii.eqb a b then strip_prefix p' s' else None
  | String _ _, EmptyString => None
  end.

(** [i = s.indexOf(c)] with [s.slice(0, i)] and [s.slice(i + 1)]; [None]
    when [indexOf] is -1. *)
Fixpoint split_first (c : ascii) (s : string) : option (string * string) :=
  match s with
  | EmptyString => None
  | String a rest =>
      if Ascii.eqb a c then Some (EmptyString, rest)
      else match split_first c rest with
           | Some (before, after) => Some (String a before, after)
           | None => None
           end
  end.

Record MxcParts := mkParts { serverName : string; mediaId : string }.

(** [parseMxc(mxcUrl)]; [None] is [null], and an absent [mxcUrl] is
    [None] too. *)
Definition parseMxc (mxcUrl : option string) : option MxcParts :=
  match mxcUrl with
  | None => None
  | Some u =>
      match strip_prefix "mxc://" u with
      | None => None
      | Some rest =>
          match split_first "/" rest with
          | None => None
          | Some (server, media) => Some (mkParts server media)
          end
      end
  end.

Definition hex_digit (n : nat) : ascii :=
  ascii_of_nat (if (n <? 10)%nat then 48 + n else 55 + n).

Definition unreserved (c : ascii) : bool :=
  let n := nat_of_ascii c in
  ((48 <=? n) && (n <=? 57) || (65 <=? n) && (n <=? 90)
   || (97 <=? n) && (n <=? 122))%nat
  || existsb (Ascii.eqb c) ["-"; "_"; "."; "!"; "~"; "*"; "'"; "("; ")"]%char.

(** [encodeURIComponent]: every byte of the UTF-8 form outside the
    unreserved marks becomes [%XX]. *)
Fixpoint encodeURIComponent (s : string) : string :=
  match s with
  | EmptyString => EmptyString
  | String c rest =>
      if unreserved c then String c (encodeURIComponent rest)
      else
        let n := nat_of_ascii c in
        String "%" (String (hex_digit (n / 16)) (String (hex_digit (n mod 16))
          (encodeURIComponent rest)))
  end.

(** [url.replace(/\/$/, '')] *)
Fixpoint strip_trailing_slash (s : string) : string :=
  match s with
  | EmptyString => EmptyString
  | String c EmptyString => if Ascii.eqb c "/" then EmptyString else s
  | String c rest => String c (strip_trailing_slash rest)
  end.

Definition media_path (parts : MxcParts) : string :=
  encodeURIComponent (serverName parts) +:+ "/"
    +:+ encodeURIComponent (mediaId parts).

Definition v3_download (homeserver : string) (parts : MxcParts) : string :=
  strip_trailing_slash homeserver +:+ "/_matrix/media/v3/download/"
    +:+ media_path parts +:+ "?allow_redirect=true".

Definition r0_download (homeserver : string) (parts : MxcParts) : string :=
  strip_trailing_slash homeserver +:+ "/_matrix/media/r0/download/"
    +:+ media_path parts.

(** What a [fetch] does: the promise rejects, or a response arrives with
    its [ok] flag and a body whose [blob()] yields a blob ([Some]) or
    rejects ([None]). *)
Inductive FetchResult :=
  | Rejects
  | Responds (ok : bool) (blob : option string).

(** The collaborators: the homeserver URL of the client, the outcome of
    the n-th [fetch] of a run for the URL it asks for, what
    [client.mxcUrlToHttp] builds for a locator and an optional thumbnail
    size, and the outcome of [downloadEncryptedContent]. *)
Record Env := mkEnv {
  getHomeserverUrl : string;
  fetch_outcome : nat -> string -> FetchResult;
  mxcUrlToHttp : string -> option (Z * Z) -> string;
  downloadEncryptedContent : string -> option string
}.

(** [URL.createObjectURL(blob)] *)
Definition createObjectURL (blob : string) : string := "blob:" +:+ blob.

(** The state of a run is the list of the URLs fetched so far. *)
Definition fetch (env : Env) (url : string)
  : Run (list string) unit FetchResult :=
  fun fetched =>
    let fetched' := fetched ++ [url] in
    match fetch_outcome env (length fetched) url with
    | Rejects => (Throws tt, fetched')
    | r => (Returns r, fetched')
    end.

(** A JavaScript value a resolver returns. *)
Inductive JsValue :=
  | JsNull
  | JsUndefined
  | JsString (s : string).

(** [resolveMxcDownloadUrl(mxcUrl)]: the [return r0] stands inside the
    [catch] block, and a response that is not [ok] leaves the [try]
    without a [return]. *)
Definition resolveMxcDownloadUrl (env : Env) (mxcUrl : option string)
  : Run (list string) unit JsValue :=
  match parseMxc mxcUrl with
  | None => ret JsNull
  | Some parts =>
      let v3 := v3_download (getHomeserverUrl env) parts in
      let r0 := r0_download (getHomeserverUrl env) parts in
      try_catch
        (res ← fetch env v3;
         match res with
         | Responds true _ => ret (JsString v3)
         | _ => ret JsUndefined
         end)
        (fun _ => ret (JsString r0))
  end.

(** [fetchToBlob(url)], the helper local to [formatMessageContent]. *)
Definition fetchToBlob (env : Env) (url : string)
  : Run (list string) unit string :=
  res ← fetch env url;
  match res with
  | Responds true (Some blob) => ret blob
  | _ => throw tt
  end.

(** What the [m.image] case of [formatMessageContent] returns. *)
Inductive ImageHtml :=
  | FailedToDecryptImage
  | InvalidImageUrl
  | ImageUnavailable
  | ImageMessage (src : string).

(** The quotation mark of the markup. *)
Definition dq : string := String (ascii_of_nat 34) EmptyString.

Definition span (class text : string) : string :=
  "<span class=" +:+ dq +:+ class +:+ dq +:+ ">" +:+ text +:+ "</span>".

(** The markup of the three notices, as the source spells it; the
    markup of an image is left to the renderer. *)
Definition notice (h : ImageHtml) : string :=
  match h with
  | FailedToDecryptImage =>
      span "decryption-failure" "üîí Failed to decrypt image"
  | InvalidImageUrl => span "error-message" "Invalid image URL"
  | ImageUnavailable => span "error-message" "Image unavailable"
  | ImageMessage _ => EmptyString
  end.

(** The [m.image] case of [formatMessageContent(message)] for a message
    with the encrypted descriptor [file] and the plaintext locator [url]. *)
Definition formatMessageContent_image (env : Env) (file url : option string)
  : Run (list string) unit ImageHtml :=
  match file, url with
  | Some f, _ =>
      match downloadEncryptedContent env f with
      | Some blob => ret (ImageMessage (createObjectURL blob))
      | None => ret FailedToDecryptImage
      end
  | None, Some u =>
      if negb (truthy u) then ret ImageUnavailable
      else
        match parseMxc (Some u) with
        | None => ret InvalidImageUrl
        | Some parts =>
            let r0Download := r0_download (getHomeserverUrl env) parts in
            let v3Download := mxcUrlToHttp env u (Some (1200, 1200)) in
            try_catch
              (blob ← fetchToBlob env v3Download;
               ret (ImageMessage (createObjectURL blob)))
              (fun e1 =>
                 try_catch
                   (blob ← fetchToBlob env r0Download;
                    ret (ImageMessage (createObjectURL blob)))
                   (fun e2 => ret ImageUnavailable))
        end
  | None, None => ret ImageUnavailable
  end.

Definition is_line_terminator (c : ascii) : bool :=
  Ascii.eqb c "010" || Ascii.eqb c "013".

(** The line and paragraph separators U+2028 and U+2029 start here. *)
Definition is_separator (c : ascii) (rest : string) : bool :=
  match rest with
  | String c2 (String c3 _) =>
      ((nat_of_ascii c =? 226) && (nat_of_ascii c2 =? 128)
       && ((nat_of_ascii c3 =? 168) || (nat_of_ascii c3 =? 169)))%nat
  | _ => false
  end.

(** No character of [s] is one the dot of a regular expression refuses:
    line feed, carriage return, U+2028, U+2029. *)
Fixpoint one_line (s : string) : bool :=
  match s with
  | EmptyString => true
  | String c rest =>
      negb (is_line_terminator c) && negb (is_separator c rest)
      && one_line rest
  end.

(** [mxcToHttp(client, mxcUrl, thumbnail)] of src/app.js: the locator has
    to match [/^mxc:\/\/([^/]+)\/(.+)$/]. *)
Definition mxcToHttp (env : Env) (mxcUrl : string) (thumbnail : option (Z * Z))
  : option string :=
  match strip_prefix "mxc://" mxcUrl with
  | None => None
  | Some rest =>
      match split_first "/" rest with
      | None => None
      | Some (server, media) =>
          if truthy server && truthy media && one_line media
          then Some (mxcUrlToHttp env mxcUrl thumbnail)
          else None
      end
  end.

(** [getMediaUrl(client, baseUrl, url, file, thumbnail)]; [None] is
    [null]. *)
Definition getMediaUrl (env : Env) (url file : option string)
    (thumbnail : option (Z * Z)) : Run (list string) unit (option string) :=
  try_catch
    (match file with
     | Some f =>
         match downloadEncryptedContent env f with
         | Some blob => ret (Some (createObjectURL blob))
         | None => throw tt
         end
     | None =>
         match url with
         | None => ret None
         | Some u =>
             if negb (truthy u) then ret None
             else
               match mxcToHttp env u thumbnail with
               | None => ret None
               | Some httpUrl =>
                   if negb (truthy httpUrl) then ret None
                   else
                     res ← fetch env httpUrl;
                     match res with
                     | Responds true (Some blob) =>
                         ret (Some (createObjectURL blob))
                     | _ => throw tt
                     end
               end
         end
     end)
    (fun _ => ret None).

(** [needle] occurs in [s]. *)
Fixpoint occurs_in (needle s : string) : bool :=
  match strip_prefix needle s with
  | Some _ => true
  | None =>
      match s with
      | EmptyString => false
      | String _ rest => occurs_in needle rest
      end
  end.

(** The blob a successful attempt yields. *)
Definition blob_of (r : FetchResult) : option string :=
  match r with
  | Responds true (Some blob) => Some blob
  | _ => None
  end.

(** The inputs of the examples: a homeserver on which no download
    succeeds, and the locator of an image. *)
Definition unreachable : Env :=
  mkEnv "https://hs.example/"
        (fun _ _ => Rejects)
        (fun _ _ => "https://hs.example/_matrix/client/v1/media/thumbnail/hs.example/abc")
        (fun _ => None).

Definition image_locator : string := "mxc://hs.example/abc".

(** *** Properties of the resolution chain *)

Lemma fetch_first env url :
  fetch env url [] =
    match fetch_outcome env 0 url with
    | Rejects => (Throws tt, [url])
    | r => (Returns r, [url])
    end.
Proof. reflexivity. Qed.

(** C2 (as the code has it).  For a plaintext image locator
    [formatMessageContent] first attempts the URL [mxcUrlToHttp] builds;
    when that attempt fails it attempts the r0 download URL; when that
    fails too it returns the fixed notice [ImageUnavailable].
    [resolveMxcDownloadUrl] fetches the v3 download URL and nothing
    else: it returns that URL when the response is ok and, when the
    fetch rejects, the r0 URL, which it has not attempted.
    [getMediaUrl] fetches at most one URL. *)
Theorem plaintext_resolution_chain env u parts :
  truthy u = true → parseMxc (Some u) = Some parts →
  let primary := mxcUrlToHttp env u (Some (1200, 1200)) in
  let legacy := r0_download (getHomeserverUrl env) parts in
  let v3 := v3_download (getHomeserverUrl env) parts in
  match blob_of (fetch_outcome env 0 primary),
        blob_of (fetch_outcome env 1 legacy) with
  | Some blob, _ =>
      formatMessageContent_image env None (Some u) [] =
        (Returns (ImageMessage (createObjectURL blob)), [primary])
  | None, Some blob =>
      formatMessageContent_image env None (Some u) [] =
        (Returns (ImageMessage (createObjectURL blob)), [primary; legacy])
  | None, None =>
      formatMessageContent_image env None (Some u) [] =
        (Returns ImageUnavailable, [primary; legacy])
  end ∧
  (resolveMxcDownloadUrl env (Some u) []).2 = [v3] ∧
  match fetch_outcome env 0 v3 with
  | Responds true _ =>
      (resolveMxcDownloadUrl env (Some u) []).1 = Returns (JsString v3)
  | Rejects =>
      (resolveMxcDownloadUrl env (Some u) []).1 = Returns (JsString legacy)
  | Responds false _ =>
      ∃ value, (resolveMxcDownloadUrl env (Some u) []).1 = Returns value
  end ∧
  (∀ thumbnail, (length (getMediaUrl env (Some u) None thumbnail []).2 <= 1)%nat).
Proof.
  intros Hu Hparts. cbv zeta. split; [|split; [|split]].
  - unfold formatMessageContent_image. rewrite Hu, Hparts.
    unfold try_catch, fetchToBlob, mbind, run_bind, bind, fetch.
    cbv beta iota zeta delta [negb length app throw ret].
    destruct (fetch_outcome env 0 (mxcUrlToHttp env u (Some (1200, 1200))))
      as [|[] [b|]];
      cbv beta iota zeta delta [blob_of length app]; try reflexivity;
    destruct (fetch_outcome env 1 (r0_download (getHomeserverUrl env) parts))
      as [|[] [b'|]]; reflexivity.
  - unfold resolveMxcDownloadUrl. rewrite Hparts.
    unfold try_catch, mbind, run_bind, bind. rewrite fetch_first.
    by destruct (fetch_outcome env 0 _) as [|[] ?].
  - unfold resolveMxcDownloadUrl. rewrite Hparts.
    unfold try_catch, mbind, run_bind, bind. rewrite fetch_first.
    destruct (fetch_outcome env 0 _) as [|[] ?]; [done|done|].
    by eexists.
  - intros thumbnail. unfold getMediaUrl, try_catch. rewrite Hu. cbn [negb].
    destruct (mxcToHttp env u thumbnail) as [httpUrl|]; [|simpl; lia].
    destruct (truthy httpUrl); [|simpl; lia]. cbn [negb].
    unfold mbind, run_bind, bind. rewrite fetch_first.
    destruct (fetch_outcome env 0 httpUrl) as [|[] [b|]]; simpl; lia.
Qed.

Lemma plaintext_resolution_chain_witness :
  formatMessageContent_image unreachable None (Some image_locator) [] =
    (Returns ImageUnavailable,
     ["https://hs.example/_matrix/client/v1/media/thumbnail/hs.example/abc";
      "https://hs.example/_matrix/media/r0/download/hs.example/abc"]) ∧
  (resolveMxcDownloadUrl unreachable (Some image_locator) []).2 =
    ["https://hs.example/_matrix/media/v3/download/hs.example/abc?allow_redirect=true"] ∧
  (resolveMxcDownloadUrl unreachable (Some image_locator) []).1 =
    Returns (JsString "https://hs.example/_matrix/media/r0/download/hs.example/abc") ∧
  (∀ thumbnail,
     (length (getMediaUrl unreachable (Some image_locator) None thumbnail []).2
        <= 1)%nat).
Proof.
  exact (plaintext_resolution_chain unreachable image_locator
           (mkParts "hs.example" "abc") eq_refl eq_refl).
Defined.

(** C2 as stated fails.  With both downloads failing, the image case
    returns the notice [Image unavailable], in which neither attempted
    locator occurs; and [resolveMxcDownloadUrl], whose v3 fetch is
    rejected, fetches nothing else: it returns the r0 locator without
    having attempted it. *)
Lemma failure_carries_no_locator :
  let primary := "https://hs.example/_matrix/client/v1/media/thumbnail/hs.example/abc" in
  let legacy := "https://hs.example/_matrix/media/r0/download/hs.example/abc" in
  let v3 := "https://hs.example/_matrix/media/v3/download/hs.example/abc?allow_redirect=true" in
  formatMessageContent_image unreachable None (Some image_locator) [] =
    (Returns ImageUnavailable, [primary; legacy]) ∧
  occurs_in primary (notice ImageUnavailable) = false ∧
  occurs_in legacy (notice ImageUnavailable) = false ∧
  resolveMxcDownloadUrl unreachable (Some image_locator) [] =
    (Returns (JsString legacy), [v3]).
Proof. cbv zeta. split_and!; reflexivity. Qed.

End Media.

(** ** Event classifier and decryption recovery
    ([MatrixManager.formatEventToMessage], src/matrix.js) *)

Module Classifier.

(** The fields of [event.getContent()] the classifier reads; an absent
    field is [None]. *)
Record Content := mkContent {
  msgtype : option string;
  body : option string;
  format : option string;
  formatted_body : option string;
  url : option string;
  file : option string;
  filename : option string;
  info_thumbnail_url : option string;
  info_thumbnail_file : option string;
  info_size : option Z;
  info_mimetype : option string;
  geo_uri : option string;
  rel_type : option string;
  rel_event_id : option string;
  rel_key : option string;
  in_reply_to : option string;
  new_content : option (option string);
  membership : option string;
  displayname : option string
}.

Definition empty_content : Content :=
  mkContent None None None None None None None None None None None None None
            None None None None None None.

(** A [MatrixEvent] through the accessors the classifier calls.  The
    accessors called with [?.] may be missing: [isEncrypted] and
    [isDecryptionFailure] are then [None], as is [getContent]. *)
Record MatrixEvent := mkEvent {
  getSender : string;
  getType : string;
  getContent : option Content;
  getTs : Z;
  getId : string;
  isEncrypted : option bool;
  isDecryptionFailure : option bool;
  unsigned_decryption_error : option string;
  decryptionFailureReason : option string;
  getStateKey : option string
}.

(** [room.getMember(sender)?.rawDisplayName] *)
Record Room := mkRoom { rawDisplayName : string -> option string }.

(** The protocol client: the local identity and the two key-request
    primitives the classifier probes for.  [None]: the primitive is not
    there; [Some true]: calling it succeeds; [Some false]: it throws. *)
Record Client := mkClient {
  currentUserId : string;
  crypto_requestRoomKey : option bool;
  client_requestRoomKeyForEvent : option bool
}.

Inductive KeyRequest :=
  | CryptoRequestRoomKey (eventId : string)
  | ClientRequestRoomKeyForEvent (eventId : string).

Inductive Kind :=
  | error | edit | text | media | location | reaction | call | system | unknown.

(** The kind-specific fields of a message. *)
Inductive Payload :=
  | PError (type content : string)
  | PEdit (targetEventId : option string) (newContent : option string)
  | PText (type content : string) (html inReplyTo : option string)
  | PMedia (mediaType content : string) (url file : option string)
           (thumbnail_url thumbnail_file : option string) (filename : string)
           (filesize : Z) (mimetype inReplyTo : option string)
  | PLocation (geoUri : option string) (content : string)
  | PReaction (key targetEventId : option string)
  | PCall (callType : string) (content : Content)
  | PMember (membership stateKey displayName : option string)
  | PState (subtype : string) (content : Content)
  | PUnknown (type content : string).

(** The message object; [senderName] and [isOwn] are absent from the
    system messages. *)
Record Message := mkMessage {
  eventId : string;
  payload : Payload;
  senderId : string;
  senderName : option string;
  timestamp : Z;
  isOwn : option bool
}.

Definition kind (m : Message) : Kind :=
  match payload m with
  | PError _ _ => error
  | PEdit _ _ => edit
  | PText _ _ _ _ => text
  | PMedia _ _ _ _ _ _ _ _ _ _ => media
  | PLocation _ _ => location
  | PReaction _ _ => reaction
  | PCall _ _ => call
  | PMember _ _ _ | PState _ _ => system
  | PUnknown _ _ => unknown
  end.

(** Only the error message carries [isDecryptionFailure: true]. *)
Definition msg_isDecryptionFailure (m : Message) : bool :=
  match payload m with PError _ _ => true | _ => false end.

(** The text of a message, where its kind has one. *)
Definition msg_content (m : Message) : option string :=
  match payload m with
  | PError _ c | PText _ c _ _ | PMedia _ c _ _ _ _ _ _ _ _
  | PLocation _ c | PUnknown _ c => Some c
  | _ => None
  end.

Definition equals (s : string) (o : option string) : bool :=
  match o with Some x => String.eqb x s | None => false end.

Definition truthy_opt (o : option string) : option string :=
  match o with
  | Some s => if truthy s then Some s else None
  | None => None
  end.

(** The key request of the decryption-failure branch: the first
    primitive that is there is called, and it may throw. *)
Definition requestKey (client : Client) (event : MatrixEvent)
  : Run (list KeyRequest) unit unit :=
  match crypto_requestRoomKey client with
  | Some ok =>
      fun l => (if ok then Returns tt else Throws tt,
                l ++ [CryptoRequestRoomKey (getId event)])
  | None =>
      match client_requestRoomKeyForEvent client with
      | Some ok =>
          fun l => (if ok then Returns tt else Throws tt,
                    l ++ [ClientRequestRoomKeyForEvent (getId event)])
      | None => ret tt
      end
  end.

Definition default_reason : string := "Unable to decrypt: keys not available.".

(** [unsigned.decryption_error || event.decryptionFailureReason || "..."] *)
Definition errText (event : MatrixEvent) : string :=
  js_or (unsigned_decryption_error event)
        (js_or (decryptionFailureReason event) default_reason).

(** [formatEventToMessage(event, room)]; [stringify] is [JSON.stringify]. *)
Definition formatEventToMessage (stringify : Content -> string)
    (client : Client) (event : MatrixEvent) (room : Room)
  : Run (list KeyRequest) unit Message :=
  let sender := getSender event in
  let name := Some (js_or (rawDisplayName room sender) sender) in
  let type := getType event in
  let content := default empty_content (getContent event) in
  let ts := getTs event in
  let eventId := getId event in
  let own := Some (String.eqb sender (currentUserId client)) in
  let msg p := mkMessage eventId p sender name ts own in
  if bool_decide (isEncrypted event = Some true)
     && bool_decide (isDecryptionFailure event = Some true) then
    try_catch (requestKey client event) (fun _ => ret tt);;
    ret (msg (PError "m.notice" ("🔒 " +:+ errText event)))
  else
    let inReplyTo := in_reply_to content in
    let message_case :=
      if String.eqb type "m.room.message" then
        if equals "m.replace" (rel_type content)
           && bool_decide (is_Some (new_content content)) then
          Some (msg (PEdit (rel_event_id content)
                           (default None (new_content content))))
        else if equals "m.text" (msgtype content) || equals "m.notice" (msgtype content)
                || equals "m.emote" (msgtype content) then
          Some (msg (PText (default "" (msgtype content))
                           (js_or (body content) "")
                           (if equals "org.matrix.custom.html" (format content)
                            then formatted_body content else None)
                           inReplyTo))
        else if equals "m.image" (msgtype content) || equals "m.video" (msgtype content)
                || equals "m.audio" (msgtype content)
                || equals "m.file" (msgtype content) then
          Some (msg (PMedia (default "" (msgtype content))
                            (js_or (body content) "file")
                            (truthy_opt (url content)) (file content)
                            (truthy_opt (info_thumbnail_url content))
                            (info_thumbnail_file content)
                            (js_or (filename content)
                                   (js_or (body content) "file"))
                            (default 0 (info_size content))
                            (truthy_opt (info_mimetype content))
                            inReplyTo))
        else if equals "m.location" (msgtype content) then
          Some (msg (PLocation (geo_uri content)
                               (js_or (body content) "Location")))
        else None
      else None in
    match message_case with
    | Some m => ret m
    | None =>
        if String.eqb type "m.reaction" then
          ret (msg (PReaction (rel_key content) (rel_event_id content)))
        else if bool_decide (is_Some (Media.strip_prefix "m.call." type)) then
          ret (msg (PCall type content))
        else if String.eqb type "m.room.member" then
          ret (mkMessage eventId
                 (PMember (membership content) (getStateKey event)
                          (displayname content))
                 sender None ts None)
        else if String.eqb type "m.room.name" || String.eqb type "m.room.topic"
                || String.eqb type "m.room.avatar" then
          ret (mkMessage eventId (PState type content) sender None ts None)
        else ret (msg (PUnknown type (stringify content)))
    end.

(** The request the decryption-failure branch makes for [event], by the
    primitives the client has. *)
Definition key_requests (client : Client) (event : MatrixEvent)
  : list KeyRequest :=
  match crypto_requestRoomKey client, client_requestRoomKeyForEvent client with
  | Some _, _ => [CryptoRequestRoomKey (getId event)]
  | None, Some _ => [ClientRequestRoomKeyForEvent (getId event)]
  | None, None => []
  end.

(** The inputs of the examples: an encrypted event of [@alice:hs] that
    failed to decrypt, the room it is in, and a client with neither
    key-request primitive. *)
Definition undecryptable : MatrixEvent :=
  mkEvent "@alice:hs" "m.room.encrypted" (Some empty_content) 1700000000000
          "$enc1" (Some true) (Some true) None None None.

Definition a_room : Room := mkRoom (fun _ => Some "Alice").

Definition bare_client : Client := mkClient "@me:hs" None None.

Definition legacy_client : Client := mkClient "@me:hs" None (Some false).

Definition no_json (c : Content) : string := "{}".

(** *** Properties of the decryption-failure branch *)

Lemma js_or_truthy a b : truthy b = true → truthy (js_or a b) = true.
Proof.
  intros Hb. unfold js_or. destruct a as [s|]; [|done].
  by destruct (truthy s) eqn:E.
Qed.

Lemma errText_truthy event : truthy (errText event) = true.
Proof. unfold errText. by do 2 apply js_or_truthy. Qed.

(** The key request is best effort: whatever it does, the wrapped call
    returns, having logged the request the client allows. *)
Lemma requestKey_caught client event :
  try_catch (requestKey client event) (fun _ => ret tt) [] =
    (Returns tt, key_requests client event).
Proof.
  unfold try_catch, requestKey, key_requests.
  destruct (crypto_requestRoomKey client) as [[]|];
    [done|done|].
  destruct (client_requestRoomKeyForEvent client) as [[]|]; done.
Qed.

(** C9 (as the code has it).  Classifying an encrypted event whose
    decryption failed calls the first key-request primitive the client
    has, [crypto.requestRoomKey] or else [client.requestRoomKeyForEvent],
    and none when it has neither; whether or not that call throws, the
    classifier returns the error message of the event, flagged
    [isDecryptionFailure], whose text is the lock sign followed by a
    non-empty reason.  It never throws. *)
Theorem failed_decryption_is_reported stringify client event room :
  isEncrypted event = Some true → isDecryptionFailure event = Some true →
  ∃ msg,
    formatEventToMessage stringify client event room [] =
      (Returns msg, key_requests client event) ∧
    kind msg = error ∧
    msg_isDecryptionFailure msg = true ∧
    msg_content msg = Some ("🔒 " +:+ errText event) ∧
    truthy (errText event) = true ∧
    eventId msg = getId event ∧
    senderId msg = getSender event.
Proof.
  intros Henc Hfail. eexists. split.
  - unfold formatEventToMessage.
    rewrite !bool_decide_eq_true_2 by done. cbn [andb].
    unfold mbind, run_bind, bind. rewrite requestKey_caught. reflexivity.
  - repeat split. apply errText_truthy.
Qed.

Lemma failed_decryption_is_reported_witness :
  ∃ msg,
    formatEventToMessage no_json legacy_client undecryptable a_room [] =
      (Returns msg, key_requests legacy_client undecryptable) ∧
    kind msg = error ∧
    msg_isDecryptionFailure msg = true ∧
    msg_content msg = Some ("🔒 " +:+ errText undecryptable) ∧
    truthy (errText undecryptable) = true ∧
    eventId msg = getId undecryptable ∧
    senderId msg = getSender undecryptable.
Proof.
  apply (failed_decryption_is_reported no_json legacy_client undecryptable a_room);
    reflexivity.
Defined.

(** C9 as stated fails: for a client that has neither key-request
    primitive, the event that failed to decrypt is classified as an error
    message and no key request is issued. *)
Lemma no_primitive_no_key_request :
  formatEventToMessage no_json bare_client undecryptable a_room [] =
    (Returns (mkMessage "$enc1"
                (PError "m.notice" "🔒 Unable to decrypt: keys not available.")
                "@alice:hs" (Some "Alice") 1700000000000 (Some false)),
     []).
Proof. reflexivity. Qed.

End Classifier.

(** ** Pagination controller ([loadMessages], [setupInfiniteScroll] and
    [loadOlderMessages], src/app.js) *)

Module Pagination.

Import Classifier.

(** The children of [#messages-container]: the top sentinel (the
    [gen]-th one created), the [div.message] of a message, which carries
    its event id in [data-event-id] and, once an edit was applied to it,
    the replacement text, and the notice of an empty conversation. *)
Inductive Node :=
  | TopSentinel (gen : nat)
  | Element (message : Message) (edited : option string)
  | Notice.

Definition dataEventId (n : Node) : option string :=
  match n with
  | Element message _ => Some (eventId message)
  | _ => None
  end.

Record Container := mkContainer {
  children : list Node;
  scrollTop : Z;
  clientHeight : Z
}.

(** The module state of src/app.js: the two globals of the pagination
    guard, the container element (part of the static page), the number
    of sentinels created so far, the rooms for which
    [setupInfiniteScroll] registered an observer, and the pagination
    requests made to [matrixClient.loadOlderMessages]. *)
Record App := mkApp {
  isLoadingOlder : bool;
  canLoadMore : bool;
  container : Container;
  sentinels : nat;
  observers : list string;
  requests : list (string * Z)
}.

(** An [async] call suspended at an [await], with the locals it keeps;
    [messageElement] is how the awaited [createMessageElement] settled,
    with its element or with what it threw. *)
Inductive Task :=
  | OlderAwaitPage (roomId : string) (prevScrollHeight prevScrollTop : Z)
  | OlderAwaitElement (prevScrollHeight prevScrollTop : Z)
      (topSentinel : option nat)
      (messageElement : Completion unit (option Node))
      (rest : list Message)
  | MessagesAwaitRoom (roomId : string)
  | MessagesAwaitElement (roomId : string)
      (messageElement : Completion unit (option Node))
      (rest : list Message).

(** How a synchronous segment ends. *)
Inductive Outcome :=
  | Finished
  | Suspended (t : Task).

(** What the edit branch of [createMessageElement] gets from
    [document.querySelector] and [original.querySelector('.message-body')]:
    the selector does not parse, or there is no such body, or the body
    is that of the [i]-th child of the container. *)
Inductive Query :=
  | SyntaxError
  | NoBody
  | Body (i : nat).

(** The ids that stand for themselves between the quotes of the selector
    [[data-event-id="..."]], in which the id is not escaped: those
    without a quote, a backslash, a line break, a form feed or a NUL. *)
Definition plain_char (c : ascii) : bool :=
  let n := nat_of_ascii c in
  negb ((n =? 0) || (n =? 10) || (n =? 12) || (n =? 13) || (n =? 34)
        || (n =? 92))%nat.

Fixpoint plain (id : string) : bool :=
  match id with
  | EmptyString => true
  | String c rest => plain_char c && plain rest
  end.

Section Layout.

(** The height the browser gives to a child of the container. *)
Variable layout : Node -> Z.

(** The selector engine of the browser on the selector built from an id
    that is not plain, in a document whose container has the given
    children. *)
Variable css : string -> list Node -> Query.

Definition contentHeight (l : list Node) : Z :=
  foldr (fun n acc => layout n + acc) 0 l.

Definition scrollHeight (c : Container) : Z :=
  Z.max (clientHeight c) (contentHeight (children c)).

(** Assigning [scrollTop]: the browser keeps the offset within the
    scrollable range. *)
Definition set_scrollTop (v : Z) (c : Container) : Container :=
  mkContainer (children c)
    (Z.max 0 (Z.min v (scrollHeight c - clientHeight c)))
    (clientHeight c).

(** Changing the children: the offset stays, within the new range. *)
Definition set_children (l : list Node) (c : Container) : Container :=
  set_scrollTop (scrollTop c) (mkContainer l (scrollTop c) (clientHeight c)).

Definition with_container (c : Container) (a : App) : App :=
  mkApp (isLoadingOlder a) (canLoadMore a) c (sentinels a) (observers a)
        (requests a).

Definition with_isLoadingOlder (b : bool) (a : App) : App :=
  mkApp b (canLoadMore a) (container a) (sentinels a) (observers a)
        (requests a).

Definition with_canLoadMore (b : bool) (a : App) : App :=
  mkApp (isLoadingOlder a) b (container a) (sentinels a) (observers a)
        (requests a).

Definition is_system (m : Message) : bool :=
  match kind m with system => true | _ => false end.

(** The edit branch of [createMessageElement]: the first element with the
    target id gets the new text in its [.message-body], which a system
    message does not have. *)
Fixpoint apply_edit (target text : string) (l : list Node) : list Node :=
  match l with
  | [] => []
  | Element m e :: rest =>
      if String.eqb (eventId m) target
      then (if is_system m then Element m e else Element m (Some text)) :: rest
      else Element m e :: apply_edit target text rest
  | n :: rest => n :: apply_edit target text rest
  end.

(** The body of the [i]-th child gets the new text. *)
Fixpoint edit_at (i : nat) (text : string) (l : list Node) : list Node :=
  match l, i with
  | [], _ => []
  | Element m e :: rest, O =>
      (if is_system m then Element m e else Element m (Some text)) :: rest
  | n :: rest, O => n :: rest
  | n :: rest, S j => n :: edit_at j text rest
  end.

(** [createMessageElement(message)]: [None] is [null].  In the edit
    branch a plain target id selects the first element that carries it;
    for any other id the selector engine decides, and a selector that
    does not parse makes [querySelector] throw. *)
Definition createMessageElement (message : Message) (a : App)
  : Completion unit (option Node) * App :=
  match payload message with
  | PReaction _ _ => (Returns None, a)
  | PEdit target newContent =>
      let id := default "undefined" target in
      let text := js_or newContent "" in
      let l := children (container a) in
      if plain id then
        (Returns None,
         with_container (set_children (apply_edit id text l) (container a)) a)
      else
        match css id l with
        | SyntaxError => (Throws tt, a)
        | NoBody => (Returns None, a)
        | Body i =>
            (Returns None,
             with_container (set_children (edit_at i text l) (container a)) a)
        end
  | _ => (Returns (Some (Element message None)), a)
  end.

(** [document.getElementById('messages-top-sentinel')] *)
Fixpoint getTopSentinel (l : list Node) : option nat :=
  match l with
  | [] => None
  | TopSentinel g :: _ => Some g
  | _ :: rest => getTopSentinel rest
  end.

(** [messagesContainer.insertBefore(el, topSentinel.nextSibling)]: right
    after the sentinel, or at the end when the sentinel has no next
    sibling (it is the last child, or no longer in the container). *)
Fixpoint insertAfterSentinel (g : nat) (el : Node) (l : list Node) : list Node :=
  match l with
  | [] => [el]
  | TopSentinel g' :: rest =>
      if Nat.eqb g g' then TopSentinel g' :: el :: rest
      else TopSentinel g' :: insertAfterSentinel g el rest
  | n :: rest => n :: insertAfterSentinel g el rest
  end.

(** The ids of [querySelectorAll('[data-event-id]')]. *)
Fixpoint eventIds (l : list Node) : list string :=
  match l with
  | [] => []
  | Element message _ :: rest => eventId message :: eventIds rest
  | _ :: rest => eventIds rest
  end.

Definition existingIds (c : Container) : list string :=
  eventIds (children c).

Definition has (ids : list string) (id : string) : bool :=
  existsb (String.eqb id) ids.

(** The end of [loadOlderMessages]: the scroll position is restored and
    the [finally] block clears the guard. *)
Definition older_finish (prevScrollHeight prevScrollTop : Z) (a : App)
  : Outcome * App :=
  let c := container a in
  let newScrollHeight := scrollHeight c in
  let c' := set_scrollTop (prevScrollTop + (newScrollHeight - prevScrollHeight)) c in
  (Finished, with_isLoadingOlder false (with_container c' a)).

(** The head of the insertion loop: the next message is handed to
    [createMessageElement], which is awaited. *)
Definition older_loop (prevScrollHeight prevScrollTop : Z)
    (topSentinel : option nat) (newMessages : list Message) (a : App)
  : Outcome * App :=
  match newMessages with
  | [] => older_finish prevScrollHeight prevScrollTop a
  | message :: rest =>
      let '(el, a') := createMessageElement message a in
      (Suspended (OlderAwaitElement prevScrollHeight prevScrollTop
                    topSentinel el rest), a')
  end.

(** [loadOlderMessages(roomId)] up to its first [await]. *)
Definition loadOlderMessages (roomId : string) (a : App) : Outcome * App :=
  if isLoadingOlder a || negb (canLoadMore a) then (Finished, a)
  else
    let a1 := with_isLoadingOlder true a in
    let prevScrollHeight := scrollHeight (container a1) in
    let prevScrollTop := scrollTop (container a1) in
    (Suspended (OlderAwaitPage roomId prevScrollHeight prevScrollTop),
     mkApp (isLoadingOlder a1) (canLoadMore a1) (container a1) (sentinels a1)
           (observers a1) (requests a1 ++ [(roomId, 10)])).

(** The segment after [await matrixClient.loadOlderMessages(roomId, 10)],
    which never rejects. *)
Definition older_page (prevScrollHeight prevScrollTop : Z)
    (messages : list Message) (more : bool) (a : App) : Outcome * App :=
  let a1 := with_canLoadMore more a in
  let ids := existingIds (container a1) in
  let newMessages := filter (fun m => has ids (eventId m) = false) messages in
  let topSentinel := getTopSentinel (children (container a1)) in
  older_loop prevScrollHeight prevScrollTop topSentinel newMessages a1.

(** The segment after [await createMessageElement(message)]: when that
    call threw, or when the insertion throws for want of a sentinel, the
    [catch] logs it and the [finally] block clears the guard. *)
Definition older_element (prevScrollHeight prevScrollTop : Z)
    (topSentinel : option nat) (el : Completion unit (option Node))
    (rest : list Message) (a : App) : Outcome * App :=
  match el with
  | Throws _ => (Finished, with_isLoadingOlder false a)
  | Returns None =>
      older_loop prevScrollHeight prevScrollTop topSentinel rest a
  | Returns (Some node) =>
      match topSentinel with
      | None => (Finished, with_isLoadingOlder false a)
      | Some g =>
          let c := container a in
          let c' := set_children (insertAfterSentinel g node (children c)) c in
          older_loop prevScrollHeight prevScrollTop topSentinel rest
                     (with_container c' a)
      end
  end.

(** [scrollToBottom()] *)
Definition scrollToBottom (a : App) : App :=
  with_container (set_scrollTop (scrollHeight (container a)) (container a)) a.

(** [setupInfiniteScroll(roomId)]: an observer of the sentinel is
    registered when there is one. *)
Definition setupInfiniteScroll (roomId : string) (a : App) : App :=
  match getTopSentinel (children (container a)) with
  | None => a
  | Some _ =>
      mkApp (isLoadingOlder a) (canLoadMore a) (container a) (sentinels a)
            (observers a ++ [roomId]) (requests a)
  end.

(** [loadMessages(roomId)] up to [await matrixClient.getRoomMessages]. *)
Definition loadMessages (matrixClient : bool) (roomId : string) (a : App)
  : Outcome * App :=
  if negb matrixClient || negb (truthy roomId) then (Finished, a)
  else (Suspended (MessagesAwaitRoom roomId), a).

Definition messages_loop (roomId : string) (messages : list Message) (a : App)
  : Outcome * App :=
  match messages with
  | [] => (Finished, setupInfiniteScroll roomId (scrollToBottom a))
  | message :: rest =>
      let '(el, a') := createMessageElement message a in
      (Suspended (MessagesAwaitElement roomId el rest), a')
  end.

(** The segment after the room messages arrived: the container is
    emptied and gets a new sentinel; for an empty conversation the notice
    is added by re-parsing the markup and the function returns. *)
Definition messages_room (roomId : string) (messages : list Message) (a : App)
  : Outcome * App :=
  let g := sentinels a in
  let c := set_children [TopSentinel g] (container a) in
  let a1 := mkApp (isLoadingOlder a) (canLoadMore a) c (S g) (observers a)
                  (requests a) in
  match messages with
  | [] =>
      (Finished,
       mkApp (isLoadingOlder a) (canLoadMore a)
             (set_children [TopSentinel (S g); Notice] c) (S (S g))
             (observers a) (requests a))
  | _ => messages_loop roomId messages a1
  end.

(** The segment after [await createMessageElement(message)] in
    [loadMessages]: when that call threw the [catch] logs it and the
    function ends. *)
Definition messages_element (roomId : string)
    (el : Completion unit (option Node)) (rest : list Message) (a : App)
  : Outcome * App :=
  match el with
  | Throws _ => (Finished, a)
  | Returns None => messages_loop roomId rest a
  | Returns (Some node) =>
      let c := container a in
      messages_loop roomId rest
        (with_container (set_children (children c ++ [node]) c) a)
  end.

(** The callback [setupInfiniteScroll] gives to its observer, for an
    intersecting entry. *)
Definition observer_callback (roomId : string) (a : App) : Outcome * App :=
  if canLoadMore a && negb (isLoadingOlder a) then loadOlderMessages roomId a
  else (Finished, a).

(** The end of [addMessageToUI] for a live event: the element is
    appended and the view scrolls down; without an element the call
    throws before that. *)
Definition appendLive (message : Message) (a : App) : App :=
  let '(el, a') := createMessageElement message a in
  match el with
  | Throws _ | Returns None => a'
  | Returns (Some node) =>
      let c := container a' in
      scrollToBottom
        (with_container (set_children (children c ++ [node]) c) a')
  end.

(** *** The event loop

    The module state with the calls that are suspended.  An action is
    what the event loop runs next: a call from the page, an observer
    callback, the continuation of a suspended call with the value it
    awaited, the arrival of a live message, a scroll by the user. *)

Record World := mkWorld {
  app : App;
  tasks : list Task
}.

Inductive Response :=
  | PageResult (messages : list Message) (more : bool)
  | RoomMessages (messages : list Message)
  | ElementReady.

Inductive Action :=
  | CallLoadOlder (roomId : string)
  | CallLoadMessages (roomId : string)
  | ObserverFires (roomId : string)
  | Resume (i : nat) (r : Response)
  | LiveMessage (message : Message)
  | UserScroll (v : Z).

(** The continuation of a task with the value it awaited; [None] when
    the value is not the one the task awaits. *)
Definition resume (t : Task) (r : Response) (a : App) : option (Outcome * App) :=
  match t, r with
  | OlderAwaitPage _ h top, PageResult messages more =>
      Some (older_page h top messages more a)
  | OlderAwaitElement h top sentinel el rest, ElementReady =>
      Some (older_element h top sentinel el rest a)
  | MessagesAwaitRoom roomId, RoomMessages messages =>
      Some (messages_room roomId messages a)
  | MessagesAwaitElement roomId el rest, ElementReady =>
      Some (messages_element roomId el rest a)
  | _, _ => None
  end.

Definition spawn (o : Outcome) : list Task :=
  match o with
  | Suspended t => [t]
  | _ => []
  end.

Definition step (act : Action) (w : World) : World :=
  match act with
  | CallLoadOlder roomId =>
      let '(o, a) := loadOlderMessages roomId (app w) in
      mkWorld a (tasks w ++ spawn o)
  | CallLoadMessages roomId =>
      let '(o, a) := loadMessages true roomId (app w) in
      mkWorld a (tasks w ++ spawn o)
  | ObserverFires roomId =>
      if bool_decide (roomId ∈ observers (app w)) then
        let '(o, a) := observer_callback roomId (app w) in
        mkWorld a (tasks w ++ spawn o)
      else w
  | Resume i r =>
      match tasks w !! i with
      | None => w
      | Some t =>
          match resume t r (app w) with
          | None => w
          | Some (o, a) =>
              mkWorld a (take i (tasks w) ++ spawn o ++ drop (S i) (tasks w))
          end
      end
  | LiveMessage message => mkWorld (appendLive message (app w)) (tasks w)
  | UserScroll v =>
      mkWorld (with_container (set_scrollTop v (container (app w))) (app w))
              (tasks w)
  end.

Definition run (acts : list Action) (w : World) : World :=
  foldl (fun w act => step act w) w acts.

(** A generation no sentinel of [l] has. *)
Definition fresh_gen (l : list Node) : nat :=
  foldr (fun n acc => match n with
                      | TopSentinel g => Nat.max (S g) acc
                      | _ => acc
                      end) 0%nat l.

(** The page as the script finds it: the guard open, nothing in flight. *)
Definition initial (c : Container) : World :=
  mkWorld (mkApp false true c (fresh_gen (children c)) [] []) [].

Definition is_older (t : Task) : bool :=
  match t with
  | OlderAwaitPage _ _ _ | OlderAwaitElement _ _ _ _ _ => true
  | _ => false
  end.

Definition awaits_page (t : Task) : bool :=
  match t with
  | OlderAwaitPage _ _ _ => true
  | _ => false
  end.

(** The [loadOlderMessages] calls in flight. *)
Definition in_flight (w : World) : list Task :=
  filter (fun t => is_older t = true) (tasks w).

(** An uninterrupted [loadOlderMessages]: the call, the page it is
    answered with, and the continuation after each element. *)
Fixpoint drain (fuel : nat) (o : Outcome) (a : App) : Outcome * App :=
  match fuel, o with
  | S n, Suspended (OlderAwaitElement h top sentinel el rest) =>
      let '(o', a') := older_element h top sentinel el rest a in
      drain n o' a'
  | _, _ => (o, a)
  end.

Definition loadOlder_run (roomId : string) (messages : list Message)
    (more : bool) (a : App) : Outcome * App :=
  match loadOlderMessages roomId a with
  | (Suspended (OlderAwaitPage _ h top), a1) =>
      let '(o, a2) := older_page h top messages more a1 in
      drain (S (length messages)) o a2
  | r => r
  end.

End Layout.

(** *** Facts about the container *)

Section Facts.

Variable layout : Node -> Z.
Variable css : string -> list Node -> Query.

Definition ids_of (el : option Node) : list string :=
  match el with
  | Some node => from_option (fun id => [id]) [] (dataEventId node)
  | None => []
  end.

Lemma children_set_scrollTop v c :
  children (set_scrollTop layout v c) = children c.
Proof. reflexivity. Qed.

Lemma children_set_children l c :
  children (set_children layout l c) = l.
Proof. reflexivity. Qed.

Lemma clientHeight_set_children l c :
  clientHeight (set_children layout l c) = clientHeight c.
Proof. reflexivity. Qed.

Lemma eventIds_apply_edit target text l :
  eventIds (apply_edit target text l) = eventIds l.
Proof.
  induction l as [|[g|m e|] l IH]; simpl; [done|done| |done].
  destruct (String.eqb (eventId m) target).
  - by destruct (is_system m).
  - simpl. by rewrite IH.
Qed.

Lemma eventIds_insert g node l :
  eventIds (insertAfterSentinel g node l) ≡ₚ ids_of (Some node) ++ eventIds l.
Proof.
  induction l as [|[g'|m e|] l IH]; simpl.
  - destruct node; done.
  - destruct (Nat.eqb g g'); simpl; [|done]. destruct node; done.
  - rewrite IH. by rewrite Permutation_middle.
  - done.
Qed.

Lemma getTopSentinel_apply_edit target text l :
  getTopSentinel (apply_edit target text l) = getTopSentinel l.
Proof.
  induction l as [|[g|m e|] l IH]; simpl; [done|done| |done].
  destruct (String.eqb (eventId m) target); [|done].
  by destruct (is_system m).
Qed.

(** What [createMessageElement] yields: no element or the element of the
    message, in a container with the same ids, the same sentinel and the
    same height of view; the guard is not touched. *)
Lemma eventIds_edit_at i text l : eventIds (edit_at i text l) = eventIds l.
Proof.
  revert i. induction l as [|[g|m e|] l IH]; intros [|i]; simpl;
    rewrite ?IH; try done.
  by destruct (is_system m).
Qed.

Lemma getTopSentinel_edit_at i text l :
  getTopSentinel (edit_at i text l) = getTopSentinel l.
Proof.
  revert i. induction l as [|[g|m e|] l IH]; intros [|i]; simpl;
    rewrite ?IH; try done.
  by destruct (is_system m).
Qed.

Lemma createMessageElement_spec message a :
  (createMessageElement layout css message a).1 = Throws tt ∨
  (createMessageElement layout css message a).1 = Returns None ∨
  (createMessageElement layout css message a).1
    = Returns (Some (Element message None)).
Proof.
  unfold createMessageElement. destruct (payload message); simpl; auto.
  repeat case_match; auto.
Qed.

(** The messages for which [createMessageElement] cannot throw: all but
    the edits whose target id is not plain. *)
Definition quiet (message : Message) : bool :=
  match payload message with
  | PEdit target _ => plain (default "undefined" target)
  | _ => true
  end.

Lemma createMessageElement_quiet message a :
  quiet message = true →
  (createMessageElement layout css message a).1 ≠ Throws tt.
Proof.
  unfold quiet, createMessageElement.
  destruct (payload message); simpl; try done. by intros ->.
Qed.

Lemma createMessageElement_keeps message a :
  let a' := (createMessageElement layout css message a).2 in
  existingIds (container a') = existingIds (container a) ∧
  clientHeight (container a') = clientHeight (container a) ∧
  getTopSentinel (children (container a')) =
    getTopSentinel (children (container a)) ∧
  isLoadingOlder a' = isLoadingOlder a ∧
  canLoadMore a' = canLoadMore a ∧
  requests a' = requests a.
Proof.
  unfold createMessageElement, existingIds.
  destruct (payload message); simpl; try done.
  repeat case_match; simpl; try done.
  - by rewrite eventIds_apply_edit, getTopSentinel_apply_edit.
  - by rewrite eventIds_edit_at, getTopSentinel_edit_at.
Qed.

Lemma drain_finished fuel a : drain layout css fuel Finished a = (Finished, a).
Proof. by destruct fuel. Qed.

(** The insertion loop, run to its end from the head of an iteration:
    it finishes with the guard cleared, every id that was in the
    container is still there, and the ids that came in are ids of the
    messages that were left to insert.  With a sentinel, and when no
    message makes [createMessageElement] throw, the run ends in
    [older_finish]. *)
Lemma insertion_loop h top sentinel (rest : list Message) :
  ∀ (fuel : nat) (a : App),
    (length rest <= fuel)%nat →
    ∃ a',
      (let '(o, a1) := older_loop layout css h top sentinel rest a in
       drain layout css fuel o a1) = (Finished, a') ∧
      isLoadingOlder a' = false ∧
      canLoadMore a' = canLoadMore a ∧
      requests a' = requests a ∧
      existingIds (container a') ⊆+
        existingIds (container a) ++ map eventId rest ∧
      existingIds (container a) ⊆+ existingIds (container a') ∧
      (is_Some sentinel → forallb quiet rest = true →
       ∃ mid, a' = (older_finish layout h top mid).2 ∧
              clientHeight (container mid) = clientHeight (container a)).
Proof.
  induction rest as [|m rest IH]; intros fuel a Hfuel.
  - simpl. rewrite drain_finished. eexists. split; [done|].
    simpl. rewrite app_nil_r. split_and!; try done.
    intros _ _. by exists a.
  - destruct fuel as [|fuel]; [simpl in Hfuel; lia|].
    simpl in Hfuel. unfold older_loop.
    pose proof (createMessageElement_spec m a) as Hel.
    pose proof (createMessageElement_keeps m a) as Hkeep. cbv zeta in Hkeep.
    pose proof (createMessageElement_quiet m a) as Hquiet.
    destruct (createMessageElement layout css m a) as [el a1].
    simpl in Hel, Hkeep, Hquiet.
    destruct Hkeep as (Hids & Hch & Hsent & Hflag & Hmore & Hreq).
    simpl. unfold older_element.
    destruct Hel as [->|[->| ->]].
    + rewrite drain_finished. eexists. split; [done|].
      simpl. do 3 (split; [done|]). split; [|split].
      * rewrite Hids. by apply submseteq_inserts_r.
      * by rewrite Hids.
      * intros _ [Hq _]%andb_prop. by destruct (Hquiet Hq).
    + destruct (IH fuel a1 ltac:(lia))
        as (a' & Hrun & Hf & Hm & Hr & Hsub & Hsup & Hfin).
      exists a'. split; [exact Hrun|].
      do 3 (split; [congruence|]). split; [|split].
      * rewrite Hsub, Hids. apply submseteq_app; [done|].
        by apply submseteq_cons.
      * by rewrite <- Hids.
      * intros Hs [_ Hq]%andb_prop. destruct (Hfin Hs Hq) as (mid & -> & Hc).
        exists mid. split; [done|congruence].
    + destruct sentinel as [g|].
      * set (a2 := with_container _ a1).
        destruct (IH fuel a2 ltac:(lia))
          as (a' & Hrun & Hf & Hm & Hr & Hsub & Hsup & Hfin).
        assert (Hids2 : existingIds (container a2)
                          ≡ₚ eventId m :: existingIds (container a)).
        { subst a2. unfold existingIds; simpl.
          rewrite eventIds_insert. simpl. unfold existingIds in Hids.
          by rewrite Hids. }
        exists a'. split; [exact Hrun|].
        split; [done|]. split; [subst a2; simpl in *; congruence|].
        split; [subst a2; simpl in *; congruence|]. split; [|split].
        -- rewrite Hsub, Hids2. simpl. by rewrite Permutation_middle.
        -- rewrite <- Hsup, Hids2. by apply submseteq_cons.
        -- intros Hs [_ Hq]%andb_prop.
           destruct (Hfin Hs Hq) as (mid & -> & Hc).
           exists mid. split; [done|]. rewrite Hc. subst a2. simpl. done.
      * rewrite drain_finished. eexists. split; [done|].
        simpl. do 3 (split; [done|]). split; [|split].
        -- rewrite Hids. by apply submseteq_inserts_r.
        -- by rewrite Hids.
        -- intros [? ?]; done.
Qed.

Lemma submseteq_NoDup {A} (k l : list A) : k ⊆+ l → NoDup l → NoDup k.
Proof.
  intros Hsub Hl. apply submseteq_Permutation in Hsub as [rest Hperm].
  rewrite Hperm in Hl. by apply NoDup_app in Hl as [? _].
Qed.

Lemma has_spec (ids : list string) id : has ids id = true ↔ id ∈ ids.
Proof.
  unfold has. rewrite existsb_exists. split.
  - intros (x & Hin & Heq). apply String.eqb_eq in Heq. subst.
    by apply list_elem_of_In.
  - intros Hin. exists id. split; [by apply list_elem_of_In|apply String.eqb_refl].
Qed.

(** A page filtered against the ids in the container brings only new,
    pairwise different ids. *)
Lemma filtered_page_is_new (ids : list string) (messages : list Message) :
  NoDup ids → NoDup (map eventId messages) →
  NoDup (ids ++ map eventId
           (filter (fun m => has ids (eventId m) = false) messages)).
Proof.
  intros Hids Hpage. apply NoDup_app. split; [done|]. split.
  - intros id Hin Hnew. apply list_elem_of_fmap in Hnew as (m & -> & Hm).
    apply list_elem_of_filter in Hm as [Hm _].
    apply has_spec in Hin. congruence.
  - eapply sublist_NoDup; [exact Hpage|].
    apply fmap_sublist, sublist_filter.
Qed.

Lemma loadOlder_run_open roomId messages more a :
  isLoadingOlder a = false → canLoadMore a = true →
  loadOlder_run layout css roomId messages more a =
    (let a1 := mkApp true more (container a) (sentinels a) (observers a)
                     (requests a ++ [(roomId, 10)]) in
     let '(o, a2) :=
       older_loop layout css (scrollHeight layout (container a))
         (scrollTop (container a))
         (getTopSentinel (children (container a)))
         (filter (fun m => has (existingIds (container a)) (eventId m) = false)
                 messages) a1 in
     drain layout css (S (length messages)) o a2).
Proof.
  intros Hl Hm. unfold loadOlder_run, loadOlderMessages. rewrite Hl, Hm.
  reflexivity.
Qed.

Lemma loadOlder_run_rejected roomId messages more a :
  isLoadingOlder a || negb (canLoadMore a) = true →
  loadOlder_run layout css roomId messages more a = (Finished, a).
Proof.
  intros Hg. unfold loadOlder_run, loadOlderMessages. by rewrite Hg.
Qed.

(** Where the filter does what it is there for.  When the ids in the
    container are pairwise different and so are the ids of the page, a
    [loadOlderMessages] that no other handler interrupts finishes with
    the ids in the container pairwise different again: the messages of
    the page whose id was already there were filtered out, and nothing
    that was there is gone. *)
Lemma pagination_dedup roomId messages more a :
  NoDup (existingIds (container a)) → NoDup (map eventId messages) →
  ∃ a',
    loadOlder_run layout css roomId messages more a = (Finished, a') ∧
    NoDup (existingIds (container a')) ∧
    (∀ id, id ∈ existingIds (container a) → id ∈ existingIds (container a')).
Proof.
  intros Hids Hpage.
  destruct (isLoadingOlder a || negb (canLoadMore a)) eqn:Hg.
  - exists a. by rewrite loadOlder_run_rejected.
  - apply orb_false_elim in Hg as [Hl Hm]. apply negb_false_iff in Hm.
    rewrite loadOlder_run_open by done. cbv zeta.
    set (page := filter _ messages).
    set (a1 := mkApp _ _ _ _ _ _).
    destruct (insertion_loop (scrollHeight layout (container a))
                (scrollTop (container a))
                (getTopSentinel (children (container a))) page
                (S (length messages)) a1)
      as (a' & Hrun & _ & _ & _ & Hsub & Hsup & _).
    { subst page. etrans; [apply length_filter|]. lia. }
    exists a'. split; [exact Hrun|]. split.
    + eapply submseteq_NoDup; [exact Hsub|].
      subst a1 page; simpl. by apply filtered_page_is_new.
    + intros id Hin. eapply elem_of_submseteq; [|exact Hsup]. done.
Qed.

Lemma forallb_filter {A} (f : A → bool) (P : A → Prop)
    `{∀ x, Decision (P x)} (l : list A) :
  forallb f l = true → forallb f (filter P l) = true.
Proof.
  induction l as [|x l IH]; [done|]. simpl. intros [Hx Hl]%andb_prop.
  destruct (decide (P x)).
  - rewrite filter_cons_True by done. simpl. by rewrite Hx, IH.
  - rewrite filter_cons_False by done. by apply IH.
Qed.

(** Where the restored offset is the anchored one.  A
    [loadOlderMessages] that no other handler interrupts and that is not
    turned away by the guard, in a container that has its sentinel and
    whose offset is within the scrollable range, for a page none of
    whose messages makes [createMessageElement] throw, finishes; and
    when the scrollable height has grown by [H] the offset has grown by
    [H] as well. *)
Lemma scroll_anchor_preserved roomId messages more a g :
  isLoadingOlder a = false → canLoadMore a = true →
  getTopSentinel (children (container a)) = Some g →
  0 <= scrollTop (container a)
    <= scrollHeight layout (container a) - clientHeight (container a) →
  forallb quiet messages = true →
  ∃ a',
    loadOlder_run layout css roomId messages more a = (Finished, a') ∧
    ∀ H, scrollHeight layout (container a')
           = scrollHeight layout (container a) + H →
         0 <= H →
         scrollTop (container a') = scrollTop (container a) + H.
Proof.
  intros Hl Hm Hs Hrange Hquiet.
  rewrite loadOlder_run_open by done. cbv zeta. rewrite Hs.
  set (page := filter _ messages).
  set (a1 := mkApp _ _ _ _ _ _).
  destruct (insertion_loop (scrollHeight layout (container a))
              (scrollTop (container a)) (Some g) page
              (S (length messages)) a1)
    as (a' & Hrun & _ & _ & _ & _ & _ & Hfin).
  { subst page. etrans; [apply length_filter|]. lia. }
  exists a'. split; [exact Hrun|].
  destruct (Hfin ltac:(by eexists)) as (mid & -> & Hc).
  { subst page. by apply forallb_filter. }
  intros H Hgrow Hpos. subst a1. simpl in Hc.
  unfold older_finish in *. simpl in *.
  unfold scrollHeight in *. simpl in *. lia.
Qed.

(** *** The guard over the event loop *)

(** What holds between any two actions: at most one [loadOlderMessages]
    is in flight; while one is, the guard is closed; and once
    [canLoadMore] is false none is waiting for its page. *)
Definition guarded (w : World) : Prop :=
  (length (in_flight w) <= 1)%nat ∧
  (in_flight w ≠ [] → isLoadingOlder (app w) = true) ∧
  (canLoadMore (app w) = false → ∀ t, t ∈ tasks w → awaits_page t = false).

(** The effect of a segment on the guard: a segment of
    [loadOlderMessages] past its guard either finishes, clearing
    [isLoadingOlder], or suspends again with the guard as it was. *)
Definition older_segment (before : App) (r : Outcome * App) : Prop :=
  requests r.2 = requests before ∧
  ((r.1 = Finished ∧ isLoadingOlder r.2 = false) ∨
   (∃ h top s el rest, r.1 = Suspended (OlderAwaitElement h top s el rest) ∧
                       isLoadingOlder r.2 = isLoadingOlder before)).

(** A segment of [loadMessages] leaves the guard and the requests as
    they were and spawns no [loadOlderMessages]. *)
Definition messages_segment (before : App) (r : Outcome * App) : Prop :=
  requests r.2 = requests before ∧
  isLoadingOlder r.2 = isLoadingOlder before ∧
  canLoadMore r.2 = canLoadMore before ∧
  ∀ t, r.1 = Suspended t → is_older t = false.

Lemma older_loop_segment h top s rest a :
  older_segment a (older_loop layout css h top s rest a) ∧
  canLoadMore (older_loop layout css h top s rest a).2 = canLoadMore a.
Proof.
  unfold older_segment, older_loop. destruct rest as [|m rest]; simpl.
  - split; [|done]. split; [done|]. by left.
  - pose proof (createMessageElement_keeps m a) as Hkeep. cbv zeta in Hkeep.
    destruct (createMessageElement layout css m a) as [el a1]. simpl in *.
    destruct Hkeep as (_ & _ & _ & Hflag & Hmore & Hreq).
    split; [|done]. split; [done|]. right. by exists h, top, s, el, rest.
Qed.

Lemma older_page_segment h top messages more a :
  older_segment a (older_page layout css h top messages more a) ∧
  canLoadMore (older_page layout css h top messages more a).2 = more.
Proof.
  unfold older_page.
  destruct (older_loop_segment h top
    (getTopSentinel (children (container (with_canLoadMore more a))))
    (filter (fun m => has (existingIds (container (with_canLoadMore more a)))
                          (eventId m) = false) messages)
    (with_canLoadMore more a)) as [Hseg Hmore].
  split; [exact Hseg|exact Hmore].
Qed.

Lemma older_element_segment h top s el rest a :
  older_segment a (older_element layout css h top s el rest a) ∧
  canLoadMore (older_element layout css h top s el rest a).2 = canLoadMore a.
Proof.
  unfold older_element. destruct el as [[node|]|e].
  - destruct s as [g|].
    + apply (older_loop_segment h top (Some g) rest
               (with_container _ a)).
    + split; [|done]. split; [done|]. by left.
  - apply older_loop_segment.
  - split; [|done]. split; [done|]. by left.
Qed.

Lemma scrollToBottom_keeps a :
  requests (scrollToBottom layout a) = requests a ∧
  isLoadingOlder (scrollToBottom layout a) = isLoadingOlder a ∧
  canLoadMore (scrollToBottom layout a) = canLoadMore a.
Proof. done. Qed.

Lemma messages_loop_segment roomId messages a :
  messages_segment a (messages_loop layout css roomId messages a).
Proof.
  unfold messages_segment, messages_loop. destruct messages as [|m rest].
  - simpl. unfold setupInfiniteScroll.
    destruct (getTopSentinel _); simpl; split_and!; try done.
  - pose proof (createMessageElement_keeps m a) as Hkeep. cbv zeta in Hkeep.
    destruct (createMessageElement layout css m a) as [el a1]. simpl in *.
    destruct Hkeep as (_ & _ & _ & Hflag & Hmore & Hreq).
    split_and!; try done. intros t [= <-]. done.
Qed.

Lemma messages_room_segment roomId messages a :
  messages_segment a (messages_room layout css roomId messages a).
Proof.
  unfold messages_room. destruct messages as [|m rest].
  - unfold messages_segment; simpl. split_and!; done.
  - apply (messages_loop_segment roomId (m :: rest) (mkApp _ _ _ _ _ _)).
Qed.

Lemma messages_element_segment roomId el rest a :
  messages_segment a (messages_element layout css roomId el rest a).
Proof.
  unfold messages_element. destruct el as [[node|]|e].
  - apply (messages_loop_segment roomId rest (with_container _ a)).
  - apply messages_loop_segment.
  - unfold messages_segment. simpl. split_and!; done.
Qed.

Lemma appendLive_keeps message a :
  requests (appendLive layout css message a) = requests a ∧
  isLoadingOlder (appendLive layout css message a) = isLoadingOlder a ∧
  canLoadMore (appendLive layout css message a) = canLoadMore a.
Proof.
  unfold appendLive.
  pose proof (createMessageElement_keeps message a) as Hkeep. cbv zeta in Hkeep.
  destruct (createMessageElement layout css message a) as [el a1]. simpl in *.
  destruct Hkeep as (_ & _ & _ & Hflag & Hmore & Hreq).
  destruct el as [[node|]|e]; simpl; done.
Qed.

Definition flight (l : list Task) : list Task :=
  filter (fun t => is_older t = true) l.

Lemma flight_app l1 l2 : flight (l1 ++ l2) = flight l1 ++ flight l2.
Proof. apply filter_app. Qed.

Lemma flight_cons t l :
  flight (t :: l) = if is_older t then t :: flight l else flight l.
Proof.
  unfold flight. destruct (is_older t) eqn:E.
  - by rewrite filter_cons_True.
  - rewrite filter_cons_False; [done|]. by rewrite E.
Qed.

Lemma flight_spawn_older a r :
  older_segment a r → flight (spawn r.1) = spawn r.1.
Proof.
  intros [_ [[-> _]|(h & top & s & el & rest & -> & _)]]; done.
Qed.

Lemma flight_spawn_messages a r :
  messages_segment a r → flight (spawn r.1) = [].
Proof.
  intros (_ & _ & _ & Hspawn). destruct r.1 as [|t] eqn:E; [done|].
  simpl. rewrite flight_cons, (Hspawn t); done.
Qed.

(** Replacing the [i]-th task by what its continuation spawns. *)
Lemma flight_resume l i t new :
  l !! i = Some t →
  flight l = flight (take i l) ++ flight [t] ++ flight (drop (S i) l) ∧
  flight (take i l ++ new ++ drop (S i) l) =
    flight (take i l) ++ flight new ++ flight (drop (S i) l).
Proof.
  intros Hi. split.
  - rewrite <- !flight_app. simpl. by rewrite take_drop_middle.
  - by rewrite !flight_app.
Qed.

Lemma elem_of_resumed (l : list Task) i t new x :
  l !! i = Some t →
  x ∈ take i l ++ new ++ drop (S i) l → x ∈ l ∨ x ∈ new.
Proof.
  intros Hi Hx. rewrite <- (take_drop_middle l i t Hi).
  rewrite !elem_of_app in Hx. rewrite elem_of_app, elem_of_cons.
  destruct Hx as [?|[?|?]]; auto.
Qed.

Lemma spawn_not_awaiting_page a r t :
  older_segment a r ∨ messages_segment a r →
  t ∈ spawn r.1 → awaits_page t = false.
Proof.
  intros [[_ [[-> _]|(h & top & s & el & rest & -> & _)]]|(_ & _ & _ & Hs)] Ht.
  - by apply not_elem_of_nil in Ht.
  - simpl in Ht. apply list_elem_of_singleton in Ht. by subst.
  - destruct r.1 as [|t']; simpl in Ht; [by apply not_elem_of_nil in Ht|].
    apply list_elem_of_singleton in Ht. subst.
    specialize (Hs t' eq_refl). by destruct t'.
Qed.

Lemma guarded_initial c : guarded (initial c).
Proof. unfold guarded, initial, in_flight; simpl. split_and!; [lia|done|done]. Qed.

Lemma world_eta w : mkWorld (app w) (tasks w) = w.
Proof. by destruct w. Qed.

(** A call of [loadOlderMessages] while the guard is closed or the
    history is exhausted changes nothing. *)
Lemma rejected_call roomId w :
  isLoadingOlder (app w) || negb (canLoadMore (app w)) = true →
  step layout css (CallLoadOlder roomId) w = w.
Proof.
  intros Hg. unfold step, loadOlderMessages. rewrite Hg. simpl.
  rewrite app_nil_r. apply world_eta.
Qed.

Lemma flight_nil_elem l x : flight l = [] → x ∈ l → is_older x = false.
Proof.
  intros Hnil Hx. destruct (is_older x) eqn:E; [|done].
  assert (x ∈ flight l) as Hin by (by apply list_elem_of_filter).
  rewrite Hnil in Hin. by apply not_elem_of_nil in Hin.
Qed.

Lemma not_older_not_awaiting t : is_older t = false → awaits_page t = false.
Proof. by destruct t. Qed.

Lemma guarded_call roomId w :
  guarded w → guarded (step layout css (CallLoadOlder roomId) w).
Proof.
  intros (Hone & Hflag & Hpage).
  destruct (isLoadingOlder (app w) || negb (canLoadMore (app w))) eqn:Hg.
  - rewrite rejected_call by done. done.
  - apply orb_false_elim in Hg as [Hl Hm]. apply negb_false_iff in Hm.
    assert (Hnone : flight (tasks w) = []).
    { destruct (flight (tasks w)) as [|t0 l0] eqn:E; [done|].
      assert (isLoadingOlder (app w) = true); [|congruence].
      apply Hflag. unfold in_flight. fold (flight (tasks w)). by rewrite E. }
    unfold step, loadOlderMessages. rewrite Hl, Hm. simpl.
    unfold guarded, in_flight. simpl.
    fold (flight (tasks w ++ [OlderAwaitPage roomId
            (scrollHeight layout (container (app w)))
            (scrollTop (container (app w)))])).
    rewrite flight_app, Hnone. simpl. split_and!; [lia|done|congruence].
Qed.

Lemma guarded_resume i r w :
  guarded w → guarded (step layout css (Resume i r) w).
Proof.
  intros (Hone & Hflag & Hpage). unfold step.
  destruct (tasks w !! i) as [t|] eqn:Hi; [|done].
  destruct (resume layout css t r (app w)) as [[o a]|] eqn:Hres; [|done].
  destruct (flight_resume (tasks w) i t (spawn o) Hi) as [Hold Hnew].
  assert (Hcases :
    (is_older t = true ∧ older_segment (app w) (o, a)) ∨
    (is_older t = false ∧ messages_segment (app w) (o, a))).
  { destruct t, r; simpl in Hres; try discriminate; injection Hres as Hres.
    - left. pose proof (older_page_segment prevScrollHeight prevScrollTop
                          messages more (app w)) as [H1 H2].
      rewrite Hres in H1. done.
    - left. pose proof (older_element_segment prevScrollHeight prevScrollTop
                          topSentinel messageElement rest (app w)) as [H1 H2].
      rewrite Hres in H1. done.
    - right. pose proof (messages_room_segment roomId messages (app w)) as H1.
      rewrite Hres in H1. done.
    - right. pose proof (messages_element_segment roomId messageElement rest
                           (app w)) as H1.
      rewrite Hres in H1. done. }
  unfold guarded, in_flight in *. simpl.
  fold (flight (tasks w)) in Hone, Hflag.
  fold (flight (take i (tasks w) ++ spawn o ++ drop (S i) (tasks w))).
  rewrite Hnew. rewrite Hold in Hone, Hflag.
  destruct Hcases as [(Holder & Hseg)|(Hnot & Hseg)].
  - rewrite flight_cons, Holder in Hone, Hflag. simpl in Hone, Hflag.
    rewrite !length_app in Hone. simpl in Hone.
    assert (flight (take i (tasks w)) = []) as Hpre
      by (apply length_zero_iff_nil; lia).
    assert (flight (drop (S i) (tasks w)) = []) as Hpost
      by (apply length_zero_iff_nil; lia).
    rewrite Hpre, Hpost, app_nil_r. simpl.
    pose proof (flight_spawn_older _ _ Hseg) as Hsp. simpl in Hsp. rewrite Hsp.
    assert (Hwas : isLoadingOlder (app w) = true).
    { apply Hflag. rewrite Hpre. done. }
    split_and!.
    + destruct o; simpl; lia.
    + intros Hne. destruct Hseg as [_ [[Ho _]|(? & ? & ? & ? & ? & Ho & Hf)]];
        simpl in *; subst o; [done|congruence].
    + intros _ x Hx. rewrite !elem_of_app in Hx. destruct Hx as [Hx|[Hx|Hx]].
      * apply not_older_not_awaiting. by apply (flight_nil_elem _ _ Hpre).
      * eapply (spawn_not_awaiting_page (app w) (o, a)); [by left|done].
      * apply not_older_not_awaiting. by apply (flight_nil_elem _ _ Hpost).
  - rewrite flight_cons, Hnot in Hone, Hflag. simpl in Hone, Hflag.
    pose proof (flight_spawn_messages _ _ Hseg) as Hsp. simpl in Hsp.
    rewrite Hsp. simpl.
    destruct Hseg as (Hreq & Hl & Hm & Hspawn). simpl in *.
    split_and!.
    + done.
    + intros Hne. rewrite Hl. by apply Hflag.
    + intros Hexh x Hx. rewrite Hm in Hexh.
      apply (elem_of_resumed _ _ _ _ _ Hi) in Hx as [Hx|Hx]; [by apply Hpage|].
      eapply (spawn_not_awaiting_page (app w) (o, a)); [|done].
      right. done.
Qed.

(** Every action keeps the guard. *)
Lemma guarded_step act w : guarded w → guarded (step layout css act w).
Proof.
  intros Hg. destruct act as [roomId|roomId|roomId|i r|message|v].
  - by apply guarded_call.
  - destruct Hg as (Hone & Hflag & Hpage).
    unfold step, loadMessages. simpl.
    destruct (negb (truthy roomId)); simpl.
    + rewrite app_nil_r. done.
    + unfold guarded, in_flight in *. simpl.
      fold (flight (tasks w)) in Hone, Hflag.
      fold (flight (tasks w ++ [MessagesAwaitRoom roomId])).
      rewrite flight_app. simpl. rewrite app_nil_r.
      split_and!; [done|done|].
      intros Hexh x Hx. apply elem_of_app in Hx as [Hx|Hx]; [by apply Hpage|].
      apply list_elem_of_singleton in Hx. by subst.
  - unfold step. destruct (bool_decide _); [|done].
    unfold observer_callback.
    destruct (canLoadMore (app w) && negb (isLoadingOlder (app w))) eqn:E.
    + by apply (guarded_call roomId).
    + simpl. rewrite app_nil_r. by rewrite world_eta.
  - by apply guarded_resume.
  - destruct Hg as (Hone & Hflag & Hpage).
    destruct (appendLive_keeps message (app w)) as (_ & Hl & Hm).
    unfold guarded, in_flight, step in *. simpl. rewrite Hl, Hm. done.
  - done.
Qed.

Lemma guarded_run acts w : guarded w → guarded (run layout css acts w).
Proof.
  revert w. induction acts as [|act acts IH]; intros w Hg; [done|].
  simpl. by apply IH, guarded_step.
Qed.

(** C6.  In any state the event loop reaches, while a
    [loadOlderMessages] is in flight a further call, for whatever room,
    returns at once and leaves the whole state as it was: no request, no
    change of the guard, no new task; so the call in flight continues
    exactly as it would have, and there is never a second one in flight. *)
Theorem single_flight c acts roomId :
  let w := run layout css acts (initial c) in
  in_flight w ≠ [] →
  loadOlderMessages layout roomId (app w) = (Finished, app w) ∧
  step layout css (CallLoadOlder roomId) w = w ∧
  (∀ i r, step layout css (Resume i r) (step layout css (CallLoadOlder roomId) w)
          = step layout css (Resume i r) w) ∧
  (length (in_flight w) <= 1)%nat.
Proof.
  intros w Hflight.
  destruct (guarded_run acts (initial c) (guarded_initial c))
    as (Hone & Hflag & _).
  fold w in Hone, Hflag. specialize (Hflag Hflight).
  assert (Hrej : step layout css (CallLoadOlder roomId) w = w).
  { apply rejected_call. by rewrite Hflag. }
  split_and!.
  - unfold loadOlderMessages. by rewrite Hflag.
  - exact Hrej.
  - intros i r. by rewrite Hrej.
  - exact Hone.
Qed.

(** With the history exhausted, an action neither reopens the guard
    nor makes a request. *)
Lemma exhausted_step act w :
  guarded w → canLoadMore (app w) = false →
  canLoadMore (app (step layout css act w)) = false ∧
  requests (app (step layout css act w)) = requests (app w).
Proof.
  intros (Hone & Hflag & Hpage) Hexh.
  assert (Hrej : ∀ roomId, step layout css (CallLoadOlder roomId) w = w).
  { intros roomId. apply rejected_call. rewrite Hexh. apply orb_true_r. }
  destruct act as [roomId|roomId|roomId|i r|message|v].
  - by rewrite Hrej.
  - unfold step, loadMessages. simpl. by destruct (negb (truthy roomId)).
  - unfold step. destruct (bool_decide _); [|done].
    unfold observer_callback. rewrite Hexh. done.
  - unfold step. destruct (tasks w !! i) as [t|] eqn:Hi; [|done].
    assert (Hin : t ∈ tasks w) by (by eapply list_elem_of_lookup_2).
    specialize (Hpage Hexh t Hin).
    destruct (resume layout css t r (app w)) as [[o a]|] eqn:Hres; [|done].
    simpl. destruct t, r; simpl in Hres, Hpage; try discriminate;
      injection Hres as Hres.
    + pose proof (older_element_segment prevScrollHeight prevScrollTop
                    topSentinel messageElement rest (app w)) as [[H1 _] H2].
      rewrite Hres in H1, H2. simpl in *. split; congruence.
    + pose proof (messages_room_segment roomId messages (app w))
        as (H1 & _ & H2 & _).
      rewrite Hres in H1, H2. simpl in *. split; congruence.
    + pose proof (messages_element_segment roomId messageElement rest (app w))
        as (H1 & _ & H2 & _).
      rewrite Hres in H1, H2. simpl in *. split; congruence.
  - destruct (appendLive_keeps message (app w)) as (Hreq & _ & Hm).
    unfold step. simpl. split; congruence.
  - done.
Qed.

Lemma exhausted_run acts w :
  guarded w → canLoadMore (app w) = false →
  canLoadMore (app (run layout css acts w)) = false ∧
  requests (app (run layout css acts w)) = requests (app w).
Proof.
  revert w. induction acts as [|act acts IH]; intros w Hg Hexh; [done|].
  simpl. destruct (exhausted_step act w Hg Hexh) as [Hm Hr].
  destruct (IH (step layout css act w) (guarded_step act w Hg) Hm) as [Hm' Hr'].
  split; [done|congruence].
Qed.

(** C10.  The guard is one pair of globals of the page, and nothing but
    [loadOlderMessages] writes it.  Once [canLoadMore] is false in a
    state the event loop has reached, it is false after any further
    actions (conversations opened, pages and elements arriving, live
    messages, scrolling), no pagination request is made any more, and a
    call of [loadOlderMessages], for whatever room, returns at once. *)
Theorem exhausted_guard_is_global c acts later :
  let w := run layout css acts (initial c) in
  canLoadMore (app w) = false →
  let w' := run layout css later w in
  canLoadMore (app w') = false ∧
  requests (app w') = requests (app w) ∧
  (∀ roomId, loadOlderMessages layout roomId (app w') = (Finished, app w') ∧
             step layout css (CallLoadOlder roomId) w' = w') ∧
  (∀ roomId,
     isLoadingOlder (app (step layout css (CallLoadMessages roomId) w'))
       = isLoadingOlder (app w') ∧
     canLoadMore (app (step layout css (CallLoadMessages roomId) w')) = false).
Proof.
  intros w Hexh w'.
  pose proof (guarded_run acts (initial c) (guarded_initial c)) as Hg.
  fold w in Hg.
  destruct (exhausted_run later w Hg Hexh) as [Hm Hr]. fold w' in Hm, Hr.
  split_and!; [done|done| |].
  - intros roomId. split.
    + unfold loadOlderMessages. rewrite Hm. by rewrite orb_true_r.
    + apply rejected_call. rewrite Hm. apply orb_true_r.
  - intros roomId. unfold step, loadMessages. simpl.
    by destruct (negb (truthy roomId)).
Qed.

End Facts.

(** *** The theorems on a small page

    Every child is 20 pixels high in a view of 30; the container shows
    the sentinel and the messages [$2] and [$3], scrolled down to the
    end. *)

Definition flat (n : Node) : Z := 20.

(** A selector engine for which no selector built from an id that is
    not plain parses. *)
Definition strict (id : string) (l : list Node) : Query := SyntaxError.

Definition note (id : string) : Message :=
  mkMessage id (PText "m.text" "hi" None None) "@alice:hs" (Some "Alice") 1
            (Some false).

Definition view : Container :=
  mkContainer [TopSentinel 0; Element (note "$2") None; Element (note "$3") None]
              30 30.

Definition page_open : App := mkApp false true view 1 [] [].

Lemma single_flight_witness :
  let w := run flat strict [CallLoadOlder "!a"] (initial view) in
  loadOlderMessages flat "!b" (app w) = (Finished, app w) ∧
  step flat strict (CallLoadOlder "!b") w = w ∧
  (∀ i r, step flat strict (Resume i r) (step flat strict (CallLoadOlder "!b") w)
          = step flat strict (Resume i r) w) ∧
  (length (in_flight w) <= 1)%nat.
Proof.
  apply (single_flight flat strict view [CallLoadOlder "!a"] "!b"). discriminate.
Defined.

Lemma pagination_dedup_witness :
  ∃ a',
    loadOlder_run flat strict "!a" [note "$1"; note "$2"] true page_open
      = (Finished, a') ∧
    NoDup (existingIds (container a')) ∧
    (∀ id, id ∈ existingIds (container page_open) →
           id ∈ existingIds (container a')).
Proof.
  apply (pagination_dedup flat strict "!a" [note "$1"; note "$2"] true page_open).
  - apply (bool_decide_unpack _). vm_compute. exact I.
  - apply (bool_decide_unpack _). vm_compute. exact I.
Defined.

Lemma scroll_anchor_preserved_witness :
  ∃ a',
    loadOlder_run flat strict "!a" [note "$1"; note "$2"] true page_open
      = (Finished, a') ∧
    ∀ H, scrollHeight flat (container a')
           = scrollHeight flat (container page_open) + H →
         0 <= H →
         scrollTop (container a') = scrollTop (container page_open) + H.
Proof.
  apply (scroll_anchor_preserved flat strict "!a" [note "$1"; note "$2"] true
           page_open 0%nat); [reflexivity|reflexivity|reflexivity| |reflexivity].
  vm_compute. split; discriminate.
Defined.

Lemma exhausted_guard_is_global_witness :
  let w := run flat strict [CallLoadOlder "!a"; Resume 0 (PageResult [] false)]
               (initial view) in
  let w' := run flat strict [CallLoadMessages "!b"; Resume 0 (RoomMessages [note "$9"]);
                      Resume 0 ElementReady; ObserverFires "!b";
                      CallLoadOlder "!b"] w in
  canLoadMore (app w') = false ∧
  requests (app w') = requests (app w) ∧
  (∀ roomId, loadOlderMessages flat roomId (app w') = (Finished, app w') ∧
             step flat strict (CallLoadOlder roomId) w' = w') ∧
  (∀ roomId,
     isLoadingOlder (app (step flat strict (CallLoadMessages roomId) w'))
       = isLoadingOlder (app w') ∧
     canLoadMore (app (step flat strict (CallLoadMessages roomId) w')) = false).
Proof.
  apply (exhausted_guard_is_global flat strict view
           [CallLoadOlder "!a"; Resume 0 (PageResult [] false)]).
  reflexivity.
Defined.

(** The run on that page: [$2] was there and is filtered out, [$1] is
    inserted after the sentinel, and the offset moves by the 20 pixels
    the content has grown. *)
Example loadOlder_run_example :
  loadOlder_run flat strict "!a" [note "$1"; note "$2"] true page_open =
    (Finished,
     mkApp false true
       (mkContainer [TopSentinel 0; Element (note "$1") None;
                     Element (note "$2") None; Element (note "$3") None]
                    50 30)
       1 [] [("!a", 10)]).
Proof. reflexivity. Qed.

(** C7 (where the code misses it).  The filter is there to keep every
    id at most once in the container, but the ids shown are computed
    once, when the page arrives, and every element is awaited before it
    is inserted.
    The container shows [$2] and [$3]; the page brings [$1] and [$9],
    both new; after [$1] has been inserted, and while the element of
    [$9] is awaited, the live message [$9] is appended by
    [addMessageToUI].  The loop then inserts [$9] as well: when
    [loadOlderMessages] has completed, the container holds [$9] twice. *)
Theorem live_message_defeats_dedup :
  let page := [note "$1"; note "$9"] in
  let w := run flat strict
             [CallLoadOlder "!a"; Resume 0 (PageResult page true);
              Resume 0 ElementReady; LiveMessage (note "$9");
              Resume 0 ElementReady] (initial view) in
  existingIds view = ["$2"; "$3"] ∧
  map eventId page = ["$1"; "$9"] ∧
  tasks w = [] ∧
  isLoadingOlder (app w) = false ∧
  children (container (app w)) =
    [TopSentinel 0; Element (note "$9") None; Element (note "$1") None;
     Element (note "$2") None; Element (note "$3") None;
     Element (note "$9") None] ∧
  existingIds (container (app w)) = ["$9"; "$1"; "$2"; "$3"; "$9"] ∧
  bool_decide (NoDup (existingIds (container (app w)))) = false.
Proof. cbv zeta. split_and!; reflexivity. Qed.

(** The view of the examples scrolled to the top, where the sentinel
    shows. *)
Definition top_view : Container :=
  mkContainer [TopSentinel 0; Element (note "$2") None; Element (note "$3") None]
              0 30.

(** An edit whose target id has a quotation mark in it. *)
Definition quoted_edit : Message :=
  mkMessage "$e" (PEdit (Some ("a" +:+ Media.dq +:+ "b")) (Some "new text"))
            "@alice:hs" (Some "Alice") 2 (Some false).

(** C8 (where the code misses it).  The restoring assignment is there
    to keep what the reader sees in place, and misses it in two ways.
    First, the offset to restore is read before the page is awaited:
    the call starts at offset 0, the
    reader scrolls down to 30 while the page is on its way, the page
    brings [$1] and the content grows by 20; the offset is then set to
    0 + 20 = 20, not to 30 + 20 = 50, so what the reader was looking at
    moves.  Second, the restoring assignment stands at the end of the
    [try] block: the page brings [$1] and an edit whose target id has a
    quotation mark in it, [$1] is inserted and the content grows by 20,
    the selector of the edit does not parse, and the [catch] leaves the
    offset at 30, not at 50. *)
Theorem stale_anchor_after_scroll :
  (let w0 := run flat strict [CallLoadOlder "!a"; UserScroll 30]
               (initial top_view) in
   let w := run flat strict
              [Resume 0 (PageResult [note "$1"] true); Resume 0 ElementReady]
              w0 in
   scrollTop (container (app w0)) = 30 ∧
   scrollHeight flat (container (app w))
     = scrollHeight flat (container (app w0)) + 20 ∧
   tasks w = [] ∧
   scrollTop (container (app w)) = 20) ∧
  (let w0 := run flat strict [CallLoadOlder "!a"] (initial view) in
   let w := run flat strict
              [Resume 0 (PageResult [note "$1"; quoted_edit] true);
               Resume 0 ElementReady; Resume 0 ElementReady] w0 in
   plain ("a" +:+ Media.dq +:+ "b") = false ∧
   scrollTop (container (app w0)) = 30 ∧
   scrollHeight flat (container (app w))
     = scrollHeight flat (container (app w0)) + 20 ∧
   tasks w = [] ∧
   isLoadingOlder (app w) = false ∧
   scrollTop (container (app w)) = 30).
Proof. cbv zeta. split_and!; reflexivity. Qed.

End Pagination.

(** ** Call signaling ([WebRTCManager]) *)

Module Calls.

(** A media stream with its tracks, and a call object of the protocol
    client as the manager reads it. *)
Record Stream := mkStream { stream_id : nat; getTracks : list nat }.

Record Call := mkCall {
  callId : nat;
  hasRemoteUserMediaVideoTrack : bool;
  type_is_video : bool
}.

(** The fields of the manager. *)
Record Manager := mkManager {
  currentCall : option Call;
  localStream : option Stream;
  remoteStream : option Stream;
  isVideo : bool;
  isInCall : bool
}.

(** What the manager does to its collaborators. *)
Inductive Effect :=
  | GetUserMedia (video : bool)
  | CreateCall (roomId : string)
  | PlaceCall (call : nat) (video : bool)
  | Answer (call : nat) (video : bool)
  | Reject (call : nat)
  | HangupCall (call : nat)
  | SetupCallEventHandlers (call : nat)
  | ShowIncomingCallDialog (call : nat)
  | UpdateCallUI (inCall video : bool)
  | ShowCallError (message : string)
  | SetupLocalVideo
  | SetupRemoteVideo
  | StopTrack (track : nat).

(** The synchronous answers of the protocol client: the call
    [createCall] returns for a room, if any, and whether [call.reject()]
    and [call.hangup()] throw. *)
Record Env := mkEnv {
  createCall : string -> option Call;
  reject_throws : nat -> bool;
  hangup_throws : nat -> bool
}.

(** A call of the manager suspended at an [await]. *)
Inductive Task :=
  | MakeAwaitMedia (roomId : string) (video : bool)
  | MakeAwaitPlace
  | IncomingAwaitReject
  | IncomingAwaitDialog (call : Call)
  | IncomingAwaitMedia (call : Call)
  | IncomingAwaitAnswer
  | HangupAwait.

(** How a segment ends: with the value the call returns, or suspended. *)
Inductive Outcome :=
  | Finished (value : option bool)
  | Suspended (t : Task).

(** The manager, the effects so far and the calls whose events the
    manager listens to. *)
Record State := mkState {
  mgr : Manager;
  effects : list Effect;
  listening : list nat
}.

Definition emit (e : Effect) (s : State) : State :=
  mkState (mgr s) (effects s ++ [e]) (listening s).

Definition emits (es : list Effect) (s : State) : State :=
  mkState (mgr s) (effects s ++ es) (listening s).

Definition with_mgr (m : Manager) (s : State) : State :=
  mkState m (effects s) (listening s).

(** [cleanup()]: the tracks of the local stream are stopped and the
    fields are reset. *)
Definition cleanup (s : State) : State :=
  let s1 :=
    match localStream (mgr s) with
    | Some stream => emits (map StopTrack (getTracks stream)) s
    | None => s
    end in
  with_mgr (mkManager None None None false false) s1.

(** The error of [navigator.mediaDevices.getUserMedia]. *)
Record MediaError := mkMediaError { error_name : string; error_message : string }.

(** The message [getUserMedia] shows before it rethrows. *)
Definition media_error_message (e : MediaError) : string :=
  if String.eqb (error_name e) "NotAllowedError" then
    "Camera/microphone access denied. Please allow access and try again."
  else if String.eqb (error_name e) "NotFoundError" then
    "No camera/microphone found. Please check your devices."
  else if String.eqb (error_name e) "NotReadableError" then
    "Camera/microphone is already in use by another application."
  else "Failed to access camera/microphone".

(** The [catch] block of [makeCall]. *)
Definition makeCall_failed (message : string) (s : State) : Outcome * State :=
  (Finished (Some false),
   emit (ShowCallError ("Failed to start call: " +:+ message)) (cleanup s)).

(** The [catch] block of [handleIncomingCall]. *)
Definition incoming_failed (s : State) : Outcome * State :=
  (Finished None, cleanup s).

(** [makeCall(roomId, isVideo)] up to [await this.getUserMedia(isVideo)]. *)
Definition makeCall (roomId : string) (video : bool) (s : State)
  : Outcome * State :=
  if isInCall (mgr s) then (Finished (Some false), s)
  else
    let m := mgr s in
    let m1 := mkManager (currentCall m) (localStream m) (remoteStream m)
                        video (isInCall m) in
    (Suspended (MakeAwaitMedia roomId video),
     emit (GetUserMedia video) (with_mgr m1 s)).

(** The segment of [makeCall] after the media request settled: with a
    stream the call is created, recorded as the current call and
    placed. *)
Definition makeCall_media (env : Env) (matrixApp : bool) (roomId : string)
    (video : bool) (media : MediaError + option Stream) (s : State)
  : Outcome * State :=
  match media with
  | inl e =>
      makeCall_failed (error_message e)
        (emit (ShowCallError (media_error_message e)) s)
  | inr None => makeCall_failed "Failed to get user media" s
  | inr (Some stream) =>
      let m := mgr s in
      let s1 := with_mgr (mkManager (currentCall m) (Some stream)
                            (remoteStream m) (isVideo m) (isInCall m)) s in
      let s2 := if video then emit SetupLocalVideo s1 else s1 in
      let s3 := emit (CreateCall roomId) s2 in
      match createCall env roomId with
      | None => makeCall_failed "Failed to create call" s3
      | Some call =>
          let m3 := mgr s3 in
          let s4 := with_mgr (mkManager (Some call) (localStream m3)
                                (remoteStream m3) (isVideo m3) true) s3 in
          let s5 := mkState (mgr s4)
                      (effects s4 ++ [SetupCallEventHandlers (callId call)])
                      (listening s4 ++ [callId call]) in
          let s6 := if matrixApp then emit (UpdateCallUI true video) s5 else s5 in
          (Suspended MakeAwaitPlace, emit (PlaceCall (callId call) video) s6)
      end
  end.

(** The segment after [await call.placeCall(true, isVideo)]. *)
Definition makeCall_placed (placed : option string) (s : State)
  : Outcome * State :=
  match placed with
  | None => (Finished (Some true), s)
  | Some message => makeCall_failed message s
  end.

(** [handleIncomingCall(call)] up to its first [await]. *)
Definition handleIncomingCall (env : Env) (call : Call) (s : State)
  : Outcome * State :=
  if isInCall (mgr s) then
    let s1 := emit (Reject (callId call)) s in
    if reject_throws env (callId call) then incoming_failed s1
    else (Suspended IncomingAwaitReject, s1)
  else
    let m := mgr s in
    let m1 := mkManager (currentCall m) (localStream m) (remoteStream m)
                        (hasRemoteUserMediaVideoTrack call) (isInCall m) in
    (Suspended (IncomingAwaitDialog call),
     emit (ShowIncomingCallDialog (callId call)) (with_mgr m1 s)).

(** The segment after the dialog: an accepted call becomes the current
    call before the media request. *)
Definition incoming_dialog (env : Env) (call : Call) (accept : bool)
    (s : State) : Outcome * State :=
  if accept then
    let m := mgr s in
    let m1 := mkManager (Some call) (localStream m) (remoteStream m)
                        (type_is_video call) true in
    (Suspended (IncomingAwaitMedia call),
     emit (GetUserMedia (type_is_video call)) (with_mgr m1 s))
  else
    let s1 := emit (Reject (callId call)) s in
    if reject_throws env (callId call) then incoming_failed s1
    else (Suspended IncomingAwaitReject, s1).

Definition incoming_media (call : Call)
    (media : MediaError + option Stream) (s : State) : Outcome * State :=
  match media with
  | inl e => incoming_failed (emit (ShowCallError (media_error_message e)) s)
  | inr None => incoming_failed s
  | inr (Some stream) =>
      let m := mgr s in
      let s1 := with_mgr (mkManager (currentCall m) (Some stream)
                            (remoteStream m) (isVideo m) (isInCall m)) s in
      let s2 := if isVideo m then emit SetupLocalVideo s1 else s1 in
      let s3 := mkState (mgr s2)
                  (effects s2 ++ [SetupCallEventHandlers (callId call)])
                  (listening s2 ++ [callId call]) in
      (Suspended IncomingAwaitAnswer,
       emit (Answer (callId call) (isVideo m)) s3)
  end.

Definition incoming_answered (matrixApp : bool) (answered : bool) (s : State)
  : Outcome * State :=
  if answered then
    (Finished None,
     if matrixApp then emit (UpdateCallUI true (isVideo (mgr s))) s else s)
  else incoming_failed s.

(** [hangup()] up to its first [await]; without a current call, or when
    [currentCall.hangup()] throws, the cleanup runs at once. *)
Definition hangup (env : Env) (s : State) : Outcome * State :=
  match currentCall (mgr s) with
  | Some call =>
      let s1 := emit (HangupCall (callId call)) s in
      if hangup_throws env (callId call) then (Finished None, cleanup s1)
      else (Suspended HangupAwait, s1)
  | None => (Finished None, cleanup s)
  end.

Definition hangup_done (s : State) : Outcome * State :=
  (Finished None, cleanup s).

(** The events of a call the manager listens to. *)
Inductive CallEvent :=
  | FeedsChanged (remoteFeeds : list Stream)
  | StateChanged (state : string)
  | HangupEvent
  | ErrorEvent (message : option string).

(** [handleCallEnded(call)] *)
Definition handleCallEnded (matrixApp : bool) (s : State) : State :=
  let s1 := cleanup s in
  if matrixApp then emit (UpdateCallUI false false) s1 else s1.

(** The handlers [setupCallEventHandlers] installs. *)
Definition on_event (matrixApp : bool) (e : CallEvent) (s : State) : State :=
  match e with
  | FeedsChanged remoteFeeds =>
      match remoteFeeds with
      | [] => s
      | feed :: _ =>
          let m := mgr s in
          emit SetupRemoteVideo
            (with_mgr (mkManager (currentCall m) (localStream m) (Some feed)
                         (isVideo m) (isInCall m)) s)
      end
  | StateChanged state =>
      if String.eqb state "ended" then handleCallEnded matrixApp s else s
  | HangupEvent => handleCallEnded matrixApp s
  | ErrorEvent message =>
      emit (ShowCallError ("Call error: " +:+ js_or message "Unknown error")) s
  end.

(** *** The event loop *)

Record World := mkWorld {
  state : State;
  tasks : list Task
}.

Inductive Response :=
  | Media (media : MediaError + option Stream)
  | Placed (error : option string)
  | Dialog (accept : bool)
  | Answered (ok : bool)
  | Continue.

Inductive Action :=
  | CallMake (roomId : string) (video : bool)
  | Incoming (call : Call)
  | CallHangup
  | Resume (i : nat) (r : Response)
  | Emit (call : nat) (e : CallEvent).

Definition resume (env : Env) (matrixApp : bool) (t : Task) (r : Response)
    (s : State) : option (Outcome * State) :=
  match t, r with
  | MakeAwaitMedia roomId video, Media media =>
      Some (makeCall_media env matrixApp roomId video media s)
  | MakeAwaitPlace, Placed error => Some (makeCall_placed error s)
  | IncomingAwaitReject, Continue => Some (Finished None, s)
  | IncomingAwaitDialog call, Dialog accept =>
      Some (incoming_dialog env call accept s)
  | IncomingAwaitMedia call, Media media => Some (incoming_media call media s)
  | IncomingAwaitAnswer, Answered ok => Some (incoming_answered matrixApp ok s)
  | HangupAwait, Continue => Some (hangup_done s)
  | _, _ => None
  end.

Definition spawn (o : Outcome) : list Task :=
  match o with
  | Suspended t => [t]
  | Finished _ => []
  end.

Definition step (env : Env) (matrixApp : bool) (act : Action) (w : World)
  : World :=
  match act with
  | CallMake roomId video =>
      let '(o, s) := makeCall roomId video (state w) in
      mkWorld s (tasks w ++ spawn o)
  | Incoming call =>
      let '(o, s) := handleIncomingCall env call (state w) in
      mkWorld s (tasks w ++ spawn o)
  | CallHangup =>
      let '(o, s) := hangup env (state w) in
      mkWorld s (tasks w ++ spawn o)
  | Resume i r =>
      match tasks w !! i with
      | None => w
      | Some t =>
          match resume env matrixApp t r (state w) with
          | None => w
          | Some (o, s) =>
              mkWorld s (take i (tasks w) ++ spawn o ++ drop (S i) (tasks w))
          end
      end
  | Emit call e =>
      if bool_decide (call ∈ listening (state w))
      then mkWorld (on_event matrixApp e (state w)) (tasks w)
      else w
  end.

Definition run (env : Env) (matrixApp : bool) (acts : list Action) (w : World)
  : World :=
  foldl (fun w act => step env matrixApp act w) w acts.

Definition idle : World :=
  mkWorld (mkState (mkManager None None None false false) [] []) [].

(** The tracks of the local stream the manager holds. *)
Definition held (s : State) : list nat :=
  match localStream (mgr s) with
  | Some stream => getTracks stream
  | None => []
  end.

(** All media handles are released, and the given tracks have been
    stopped. *)
Definition released (tracks : list nat) (after : State) : Prop :=
  currentCall (mgr after) = None ∧
  localStream (mgr after) = None ∧
  remoteStream (mgr after) = None ∧
  isInCall (mgr after) = false ∧
  ∀ track, track ∈ tracks → StopTrack track ∈ effects after.

(** The calls that were placed or answered. *)
Definition engaged (s : State) : list nat :=
  omap (fun e => match e with
                 | PlaceCall c _ | Answer c _ => Some c
                 | _ => None
                 end) (effects s).

(** The inputs of the examples: a client whose calls can be created,
    and on which rejecting the call 7 throws; the microphone and the
    camera; the call 7 coming in. *)
Definition client : Env :=
  mkEnv (fun _ => Some (mkCall 1 false false))
        (fun c => Nat.eqb c 7) (fun _ => false).

Definition microphone : Stream := mkStream 1 [11%nat].

Definition camera : Stream := mkStream 2 [21%nat; 22%nat].

Definition caller : Call := mkCall 7 true true.

Definition second_caller : Call := mkCall 8 true true.

(** A voice call in room [!r] that has been placed. *)
Definition in_call : World :=
  run client true
    [CallMake "!r" false; Resume 0 (Media (inr (Some microphone)));
     Resume 0 (Placed None)] idle.

(** A voice call is started and, while the microphone is being asked
    for, the call 8 comes in and is accepted. *)
Definition overlapping : list Action :=
  [CallMake "!r" false;
   Incoming second_caller;
   Resume 0 (Media (inr (Some microphone)));
   Resume 1 (Dialog true);
   Resume 0 (Placed None);
   Resume 0 (Media (inr (Some camera)));
   Resume 0 (Answered true)].

(** *** Properties of the call sessions *)

Lemma cleanup_releases s : released (held s) (cleanup s).
Proof.
  unfold released, cleanup, held. destruct (localStream (mgr s)) as [stream|];
    simpl; split_and!; try done.
  - intros track Hin. apply elem_of_app. right.
    by apply list_elem_of_fmap_2.
  - intros track Hin. by apply not_elem_of_nil in Hin.
Qed.

Lemma released_emit tracks e s : released tracks s → released tracks (emit e s).
Proof.
  intros (H1 & H2 & H3 & H4 & H5). unfold released, emit; simpl.
  split_and!; try done. intros track Hin. apply elem_of_app. left. by apply H5.
Qed.

Lemma handleCallEnded_releases matrixApp s :
  released (held s) (handleCallEnded matrixApp s).
Proof.
  unfold handleCallEnded. destruct matrixApp.
  - apply released_emit, cleanup_releases.
  - apply cleanup_releases.
Qed.

Lemma makeCall_failed_releases message s :
  released (held s) (makeCall_failed message s).2.
Proof. apply released_emit, cleanup_releases. Qed.

(** The guard of [makeCall]: with [isInCall] set the call returns
    [false] and nothing changes. *)
Lemma makeCall_busy roomId video s :
  isInCall (mgr s) = true → makeCall roomId video s = (Finished (Some false), s).
Proof. intros H. unfold makeCall. by rewrite H. Qed.

(** The guard of [handleIncomingCall]: with [isInCall] set the call is
    rejected without a dialog, and when [reject()] returns the manager is
    as it was. *)
Lemma handleIncomingCall_busy env call s :
  isInCall (mgr s) = true → reject_throws env (callId call) = false →
  handleIncomingCall env call s
    = (Suspended IncomingAwaitReject, emit (Reject (callId call)) s).
Proof. intros H Hr. unfold handleIncomingCall. by rewrite H, Hr. Qed.



(** C4 fails on the code in two ways.  First, while the voice call in
    room [!r] is on, the call 7 comes in and its [reject()] throws: the
    [catch] block runs [cleanup], so the manager forgets the call that is
    on and stops its microphone, though that call was never hung up.
    Second, [isInCall] is only set after the media request: the call 8
    that comes in while [makeCall] waits for the microphone is not
    rejected, and once it is accepted both calls are engaged, the placed
    call 1 and the answered call 8, with no hangup or reject of either;
    the manager knows only the call 8, and the microphone is never
    stopped. *)
Theorem busy_guard_is_bypassed :
  (let w := step client true (Incoming caller) in_call in
   isInCall (mgr (state in_call)) = true ∧
   currentCall (mgr (state in_call)) = Some (mkCall 1 false false) ∧
   mgr (state w) = mkManager None None None false false ∧
   effects (state w) =
     effects (state in_call) ++ [Reject 7%nat; StopTrack 11%nat]) ∧
  (let w := run client true overlapping idle in
   engaged (state w) = [1%nat; 8%nat] ∧
   mgr (state w) = mkManager (Some second_caller) (Some camera) None true true ∧
   tasks w = [] ∧
   effects (state w) =
     [GetUserMedia false; ShowIncomingCallDialog 8%nat; CreateCall "!r";
      SetupCallEventHandlers 1%nat; UpdateCallUI true false;
      PlaceCall 1%nat false; GetUserMedia true; SetupLocalVideo;
      SetupCallEventHandlers 8%nat; Answer 8%nat true; UpdateCallUI true true]).
Proof. cbv zeta. split_and!; reflexivity. Qed.

End Calls.

(** ** More on sending ([MatrixManager.sendMessage] in src/matrix.js,
    [handleSendMessage] in src/app.js) *)

Module Sending.

Import Echo.

Section Tokens.

Variable w1 : ascii → bool.
Variable w2 : ascii → ascii → bool.
Variable w3 : ascii → ascii → ascii → bool.

(** The string after the one white-space character it starts with, if
    it starts with one. *)
Definition strip (s : string) : option string :=
  match s with
  | EmptyString => None
  | String c1 r1 =>
      if w1 c1 then Some r1
      else
        match r1 with
        | EmptyString => None
        | String c2 r2 =>
            if w2 c1 c2 then Some r2
            else
              match r2 with
              | EmptyString => None
              | String c3 r3 => if w3 c1 c2 c3 then Some r3 else None
              end
        end
  end.

(** A string of white space only. *)
Fixpoint only_with (s : string) : bool :=
  match s with
  | EmptyString => true
  | String c1 r1 =>
      if w1 c1 then only_with r1
      else
        match r1 with
        | EmptyString => false
        | String c2 r2 =>
            if w2 c1 c2 then only_with r2
            else
              match r2 with
              | EmptyString => false
              | String c3 r3 => w3 c1 c2 c3 && only_with r3
              end
        end
  end.

(** A sequence of white-space characters. *)
Inductive tokens : string → Prop :=
  | tokens_nil : tokens ""
  | tokens_cons p q : strip p = Some "" → tokens q → tokens (p +:+ q).

End Tokens.

(** A string of nothing but what [String.prototype.trim] takes off: the
    white space and the line terminators of ECMAScript, the no-break
    space, the separators U+2028 and U+2029 and the byte order mark
    among them. *)
Definition all_ws : string → bool := only_with is_ws is_ws2 is_ws3.

(** The page of src/app.js as [handleSendMessage] and
    [handleMessageInput] use it: the text of [#message-input] and whether
    [#send-btn] is disabled ([None] when the element is missing), the
    open room, and the typing notices the client was given by
    [matrixClient.sendTyping], which catches its own errors.  The height
    of the input, which both handlers also set, is not part of it. *)
Record Page := mkPage {
  input : option string;
  sendDisabled : option bool;
  currentRoomId : option string;
  typing : list (string * bool);
  manager : Manager
}.

(** [handleSendMessage()]; [matrixClient] says whether the manager
    object exists and [client] whether it is logged in. *)
Definition handleSendMessage (env : Env) (matrixClient client : bool)
    (p : Page) : Page :=
  let message := match input p with
                 | Some value => js_trim value
                 | None => ""
                 end in
  match currentRoomId p with
  | None => p
  | Some roomId =>
      if negb (truthy message) || negb (truthy roomId) || negb matrixClient
      then p
      else
        match sendMessage env client roomId (Some message) (manager p) with
        | (Returns _, m') =>
            mkPage (match input p with Some _ => Some "" | None => None end)
                   (match sendDisabled p with Some _ => Some true | None => None end)
                   (currentRoomId p)
                   (if client then typing p ++ [(roomId, false)] else typing p)
                   m'
        | (Throws _, m') =>
            mkPage (input p) (sendDisabled p) (currentRoomId p) (typing p) m'
        end
  end.

(** [handleMessageInput(event)] for the message input, which holds the
    text as the user left it. *)
Definition handleMessageInput (matrixClient client : bool) (p : Page) : Page :=
  match input p with
  | None => p
  | Some value =>
      let empty := negb (truthy (js_trim value)) in
      mkPage (input p)
             (match sendDisabled p with Some _ => Some empty | None => None end)
             (currentRoomId p)
             (match currentRoomId p with
              | Some roomId =>
                  if truthy roomId && matrixClient && client
                  then typing p ++ [(roomId, negb empty)]
                  else typing p
              | None => typing p
              end)
             (manager p)
  end.

(** An absent or white-space-only message. *)
Definition blank (message : option string) : bool :=
  match message with Some s => all_ws s | None => true end.

(** [m'] differs from [m] by calls that are not sends. *)
Definition quiet_step (m m' : Manager) : Prop :=
  pendingEchos m' = pendingEchos m ∧ timers m' = timers m ∧ now m' = now m ∧
  ∃ l, log m' = log m ++ l ∧ sends l = 0%nat.

(** [m'] is [m] with at most one more registration, whose timer is due
    5000 ms from now. *)
Definition registers_at_most_one (m m' : Manager) : Prop :=
  (pendingEchos m' = pendingEchos m ∧ timers m' = timers m) ∨
  (∃ id, truthy id = true ∧
         pendingEchos m' = {[id]} ∪ pendingEchos m ∧
         timers m' = timers m ++ [(now m + 5000, id)]).

(** What happens to the manager over time. *)
Inductive Op :=
  | Send (env : Env) (client : bool) (roomId : string) (message : option string)
  | Inbound (currentRoomId : option string) (event : TimelineEvent)
            (roomId : string)
  | Tick (ms : N).

Definition apply_op (op : Op) (m : Manager) : Manager :=
  match op with
  | Send env client roomId message =>
      (sendMessage env client roomId message m).2
  | Inbound cur event roomId => handleRoomTimelineEvent cur event roomId m
  | Tick ms => advance (Z.of_N ms) m
  end.

Definition history (ops : list Op) (m : Manager) : Manager :=
  foldl (fun m op => apply_op op m) m ops.

(** Every registration has its timer, and the timers are those that are
    not yet due, none further away than 5000 ms. *)
Definition armed (m : Manager) : Prop :=
  (∀ id, id ∈ pendingEchos m → ∃ d, (d, id) ∈ timers m) ∧
  (∀ d id, (d, id) ∈ timers m → now m < d <= now m + 5000).

(** *** Trimming *)

Lemma append_cons (x : ascii) (a b : string) :
  (String x a +:+ b = String x (a +:+ b))%string.
Proof. reflexivity. Qed.

Lemma append_nil (b : string) : ("" +:+ b = b)%string.
Proof. reflexivity. Qed.

Lemma append_assoc (a b c : string) :
  ((a +:+ b) +:+ c = a +:+ (b +:+ c))%string.
Proof.
  induction a as [|x a IH]; [done|]. by rewrite !append_cons, IH.
Qed.

Lemma append_empty_r (a : string) : (a +:+ "" = a)%string.
Proof.
  induction a as [|x a IH]; [done|]. by rewrite append_cons, IH.
Qed.

Lemma rev_string_app s acc :
  rev_string s acc = (rev_string s "" +:+ acc)%string.
Proof.
  revert acc. induction s as [|c s IH]; intros acc; [done|].
  cbn [rev_string]. rewrite (IH (String c acc)), (IH (String c "")).
  by rewrite append_assoc, append_cons, append_nil.
Qed.

Lemma rev_string_append a b :
  rev_string (a +:+ b) "" = (rev_string b "" +:+ rev_string a "")%string.
Proof.
  induction a as [|c a IH].
  - rewrite append_nil. cbn [rev_string]. by rewrite append_empty_r.
  - rewrite append_cons. cbn [rev_string].
    rewrite (rev_string_app (a +:+ b) (String c "")), IH.
    rewrite (rev_string_app a (String c "")).
    by rewrite append_assoc.
Qed.

Lemma rev_string_involutive s : rev_string (rev_string s "") "" = s.
Proof.
  induction s as [|c s IH]; [done|].
  cbn [rev_string]. rewrite (rev_string_app s (String c "")), rev_string_append.
  cbn [rev_string]. by rewrite append_cons, append_nil, IH.
Qed.

Lemma rev_string_empty s : rev_string s "" = "" → s = "".
Proof. intros H. by rewrite <- (rev_string_involutive s), H. Qed.

Section Stripping.

Variable w1 : ascii → bool.
Variable w2 : ascii → ascii → bool.
Variable w3 : ascii → ascii → ascii → bool.

Local Abbreviation strip := (strip w1 w2 w3).
Local Abbreviation trim := (trim_with w1 w2 w3).
Local Abbreviation only := (only_with w1 w2 w3).
Local Abbreviation tokens := (tokens w1 w2 w3).

(** Trimming takes white-space characters off, one at a time, as long
    as there is one. *)
Lemma trim_with_eq s :
  trim s = match strip s with Some r => trim r | None => s end.
Proof.
  destruct s as [|c1 r1]; [done|]. cbn [trim_with Sending.strip].
  destruct (w1 c1); [done|]. destruct r1 as [|c2 r2]; [done|].
  destruct (w2 c1 c2); [done|]. destruct r2 as [|c3 r3]; [done|].
  by destruct (w3 c1 c2 c3).
Qed.

Lemma only_with_eq s :
  only s = match strip s with
           | Some r => only r
           | None => match s with EmptyString => true | _ => false end
           end.
Proof.
  destruct s as [|c1 r1]; [done|]. cbn [only_with Sending.strip].
  destruct (w1 c1); [done|]. destruct r1 as [|c2 r2]; [done|].
  destruct (w2 c1 c2); [done|]. destruct r2 as [|c3 r3]; [done|].
  by destruct (w3 c1 c2 c3).
Qed.

Lemma strip_split s r :
  strip s = Some r → ∃ p, s = (p +:+ r)%string ∧ strip p = Some "".
Proof.
  destruct s as [|c1 [|c2 [|c3 r3]]]; cbn [Sending.strip]; intros H;
    repeat case_match; simplify_eq.
  - exists (String c1 ""). split; [done|]. cbn [Sending.strip]. by rewrite H0.
  - exists (String c1 ""). split; [done|]. cbn [Sending.strip]. by rewrite H0.
  - exists (String c1 (String c2 "")). split; [done|].
    cbn [Sending.strip]. by rewrite H0, H1.
  - exists (String c1 ""). split; [done|]. cbn [Sending.strip]. by rewrite H0.
  - exists (String c1 (String c2 "")). split; [done|].
    cbn [Sending.strip]. by rewrite H0, H1.
  - exists (String c1 (String c2 (String c3 ""))). split; [done|].
    cbn [Sending.strip]. by rewrite H0, H1, H2.
Qed.

Lemma strip_length s r :
  strip s = Some r → (String.length r < String.length s)%nat.
Proof.
  intros (p & -> & Hp)%strip_split. destruct p as [|c p]; [done|].
  rewrite append_cons. cbn [String.length]. clear Hp.
  induction p as [|d p IH]; [rewrite append_nil; lia|].
  rewrite append_cons. cbn [String.length]. lia.
Qed.

(** A string that starts with a white-space character still does with
    more text after it. *)
Lemma strip_append s r x :
  strip s = Some r → strip (s +:+ x) = Some (r +:+ x)%string.
Proof.
  destruct s as [|c1 [|c2 [|c3 r3]]]; cbn [Sending.strip]; intros H;
    repeat case_match; simplify_eq;
    rewrite ?append_cons, ?append_nil; cbn [Sending.strip];
    rewrite ?H0, ?H1, ?H2; try reflexivity.
Qed.

Lemma strip_ind (P : string → Prop) :
  (∀ s, strip s = None → P s) →
  (∀ s r, strip s = Some r → P r → P s) →
  ∀ s, P s.
Proof.
  intros Hnone Hsome s.
  remember (String.length s) as n eqn:Hn. revert s Hn.
  induction n as [n IH] using lt_wf_ind. intros s ->.
  destruct (strip s) as [r|] eqn:E; [|by apply Hnone].
  apply (Hsome s r E). apply (IH (String.length r)); [|done].
  by apply strip_length.
Qed.

(** What is trimmed does not start with white space. *)
Lemma trim_with_stops s : strip (trim s) = None.
Proof.
  induction s as [s H|s r H IH] using strip_ind; rewrite trim_with_eq, H; done.
Qed.

Lemma trim_with_fixed s : strip s = None → trim s = s.
Proof. intros H. by rewrite trim_with_eq, H. Qed.

(** Trimming takes a sequence of white-space characters off. *)
Lemma trim_with_split s : ∃ q, tokens q ∧ s = (q +:+ trim s)%string.
Proof.
  induction s as [s H|s r H IH] using strip_ind; rewrite trim_with_eq, H.
  - exists "". split; [constructor|done].
  - destruct IH as (q & Hq & Hr).
    destruct (strip_split s r H) as (p & -> & Hp).
    exists (p +:+ q)%string. split; [by constructor|].
    by rewrite append_assoc, <- Hr.
Qed.

Lemma only_with_spec s : only s = true ↔ trim s = "".
Proof.
  induction s as [s H|s r H IH] using strip_ind;
    rewrite trim_with_eq, only_with_eq, H; [|done].
  by destruct s.
Qed.

End Stripping.

(** A white-space character read from its end is one read from its
    start, and a sequence of them too. *)
Lemma tokens_reversed q :
  tokens is_ws (fun c1 c2 => is_ws2 c2 c1) (fun c1 c2 c3 => is_ws3 c3 c2 c1) q →
  q ≠ "" →
  ∃ x, strip is_ws is_ws2 is_ws3 (rev_string q "") = Some x.
Proof.
  induction 1 as [|p q Hp Hq IH]; [done|]. intros _.
  rewrite rev_string_append.
  destruct q as [|d q].
  - cbn [rev_string]. rewrite append_nil.
    destruct p as [|c1 [|c2 [|c3 [|c4 r]]]]; cbn [strip] in Hp;
      repeat case_match; simplify_eq; cbn [rev_string strip];
      repeat case_match; simplify_eq; by eexists.
  - destruct IH as [x Hx]; [done|].
    eexists. by apply strip_append.
Qed.

Lemma trim_start_empty s : all_ws s = true ↔ trim_start s = "".
Proof. apply only_with_spec. Qed.

Lemma js_trim_all_ws s : all_ws s = true → js_trim s = "".
Proof.
  intros H%trim_start_empty. unfold js_trim. by rewrite H.
Qed.

Lemma js_trim_parts s :
  ∃ q, tokens is_ws (fun c1 c2 => is_ws2 c2 c1)
         (fun c1 c2 c3 => is_ws3 c3 c2 c1) q ∧
       trim_start s = (js_trim s +:+ rev_string q "")%string.
Proof.
  unfold js_trim, trim_reversed. set (t := trim_start s).
  destruct (trim_with_split is_ws (fun c1 c2 => is_ws2 c2 c1)
              (fun c1 c2 c3 => is_ws3 c3 c2 c1) (rev_string t ""))
    as (q & Hq & Ht).
  exists q. split; [done|].
  rewrite <- (rev_string_involutive t) at 1. rewrite Ht at 1.
  apply rev_string_append.
Qed.

Lemma js_trim_empty s : js_trim s = "" → all_ws s = true.
Proof.
  intros H. apply trim_start_empty.
  destruct (js_trim_parts s) as (q & Hq & Ht).
  rewrite H, append_nil in Ht.
  destruct q as [|c q]; [done|].
  destruct (tokens_reversed _ Hq) as [x Hx]; [done|].
  rewrite <- Ht in Hx. unfold trim_start in Hx.
  by rewrite trim_with_stops in Hx.
Qed.

(** Trimming what is trimmed changes nothing. *)
Lemma js_trim_idempotent s : js_trim (js_trim s) = js_trim s.
Proof.
  assert (Hu : trim_start (js_trim s) = js_trim s).
  { apply trim_with_fixed.
    destruct (strip is_ws is_ws2 is_ws3 (js_trim s)) as [r|] eqn:E; [|done].
    destruct (js_trim_parts s) as (q & _ & Ht).
    apply (strip_append _ _ _ _ _ (rev_string q "")) in E.
    rewrite <- Ht in E. unfold trim_start in E.
    by rewrite trim_with_stops in E. }
  unfold js_trim at 1. rewrite Hu. unfold js_trim.
  rewrite rev_string_involutive. unfold trim_reversed.
  by rewrite (trim_with_fixed _ _ _ _ (trim_with_stops _ _ _ _)).
Qed.

(** The trimmed message is falsy exactly for a blank message. *)
Lemma trimmed_falsy message :
  truthy (match message with Some s => js_trim s | None => "" end) = false
  ↔ blank message = true.
Proof.
  destruct message as [s|]; simpl; [|done]. split.
  - intros H. apply js_trim_empty. by destruct (js_trim s).
  - intros H. by rewrite (js_trim_all_ws s H).
Qed.

(** The no-break space U+00A0, the line separator U+2028 and the byte
    order mark U+FEFF are trimmed as the space is: a message of them
    alone is blank, and around a text they go. *)
Lemma unicode_white_space_is_trimmed :
  let nbsp := String (ascii_of_nat 194) (String (ascii_of_nat 160) "") in
  let ls := String (ascii_of_nat 226) (String (ascii_of_nat 128)
              (String (ascii_of_nat 168) "")) in
  let bom := String (ascii_of_nat 239) (String (ascii_of_nat 187)
               (String (ascii_of_nat 191) "")) in
  blank (Some (nbsp +:+ " " +:+ ls +:+ bom)) = true ∧
  js_trim (bom +:+ nbsp +:+ "hi there" +:+ ls +:+ nbsp) = "hi there".
Proof. cbv zeta. split; vm_compute; reflexivity. Qed.

(** *** What one [sendMessage] does to the manager *)

Lemma quiet_step_refl m : quiet_step m m.
Proof. split_and!; try done. exists []. by rewrite app_nil_r. Qed.

Lemma quiet_step_trans a b c :
  quiet_step a b → quiet_step b c → quiet_step a c.
Proof.
  intros (Hp & Ht & Hn & l & Hl & Hs) (Hp' & Ht' & Hn' & l' & Hl' & Hs').
  split_and!; try congruence. exists (l ++ l'). split.
  - by rewrite Hl', Hl, app_assoc.
  - rewrite sends_app. lia.
Qed.

Lemma setDeviceKnown_quiet env userId deviceId m :
  quiet_step m (setDeviceKnown env userId deviceId m).2.
Proof.
  unfold setDeviceKnown.
  destruct (setDeviceKnown_outcome env userId deviceId); simpl;
    (split_and!; try done; by exists [SetDeviceKnown userId deviceId]).
Qed.

Lemma for_of_quiet {A} (xs : list A) (body : A → Run Manager JsError unit) :
  (∀ x m, quiet_step m (body x m).2) →
  ∀ m, quiet_step m (for_of xs body m).2.
Proof.
  intros Hbody. induction xs as [|x xs IH]; intros m; simpl.
  - apply quiet_step_refl.
  - unfold bind. pose proof (Hbody x m) as Hx.
    destruct (body x m) as [[[]|e] m1]; simpl in *; [|done].
    eapply quiet_step_trans; [exact Hx|apply IH].
Qed.

Lemma try_catch_eq {S E A} (m : Run S E A) (h : E → Run S E A) (s : S) :
  try_catch m h s =
    match m s with
    | (Returns a, s') => (Returns a, s')
    | (Throws e, s') => h e s'
    end.
Proof. reflexivity. Qed.

(** One send with its registration. *)
Lemma attempt_registers env roomId body m :
  let run := (resp ← sendTextMessage env roomId body; registerEcho resp) m in
  now run.2 = now m ∧
  log run.2 = log m ++ [SendTextMessage roomId body] ∧
  match run.1 with
  | Returns _ => registers_at_most_one m run.2
  | Throws _ => pendingEchos run.2 = pendingEchos m ∧ timers run.2 = timers m
  end.
Proof.
  cbv zeta. unfold mbind, run_bind, bind, sendTextMessage, registers_at_most_one.
  destruct (send_outcome env (sends (log m))) as [e|[id|]]; simpl; auto.
  destruct (truthy id) eqn:Hid; simpl; [|auto].
  split_and!; try done. right. by exists id.
Qed.

Lemma sendMessage_guarded env client roomId message m :
  client = false ∨ roomId = "" ∨ blank message = true →
  sendMessage env client roomId message m = (Returns tt, m).
Proof.
  intros H. unfold sendMessage.
  destruct client; simpl; [|done].
  destruct roomId as [|c r]; simpl; [done|].
  destruct H as [H|[H|H]]; try done.
  apply trimmed_falsy in H. by rewrite H.
Qed.

(** [sendMessage] past its guard, with the two [try] blocks written
    out. *)
Lemma sendMessage_unfolded env roomId message m :
  truthy roomId = true → blank message = false →
  let body := match message with Some s => js_trim s | None => "" end in
  let attempt := (resp ← sendTextMessage env roomId body; registerEcho resp) in
  sendMessage env true roomId message m =
    match attempt m with
    | (Returns a, m1) => (Returns a, m1)
    | (Throws error, m1) =>
        if String.eqb (err_name error) "UnknownDeviceError" then
          match for_of (reported error)
                  (fun device => setDeviceKnown env device.1 device.2) m1 with
          | (Returns _, m2) =>
              match attempt (emit (AcknowledgeUnknownDevicesInRoom roomId) m2) with
              | (Returns a, m4) => (Returns a, m4)
              | (Throws e2, m4) => (Throws e2, m4)
              end
          | (Throws e2, m2) => (Throws e2, m2)
          end
        else (Throws error, m1)
    end.
Proof.
  intros Hr Hb. cbv zeta. unfold sendMessage.
  set (body := match message with Some s => js_trim s | None => "" end).
  assert (Hbody : truthy body = true).
  { destruct (truthy body) eqn:E; [done|].
    apply trimmed_falsy in E. congruence. }
  rewrite Hr, Hbody. cbn [negb orb].
  set (attempt := (resp ← sendTextMessage env roomId body; registerEcho resp)).
  rewrite try_catch_eq. destruct (attempt m) as [[a|error] m1]; [done|].
  destruct (String.eqb (err_name error) "UnknownDeviceError"); [|done].
  rewrite try_catch_eq.
  change ((for_of (err_devices error) (λ '(userId, devices),
             for_of devices (λ deviceId, setDeviceKnown env userId deviceId))
           ≫= λ _, acknowledgeUnknownDevicesInRoom roomId ≫= λ _, attempt) m1)
    with (bind (for_of (err_devices error) (λ '(userId, devices),
             for_of devices (λ deviceId, setDeviceKnown env userId deviceId)))
           (λ _, bind (acknowledgeUnknownDevicesInRoom roomId) (λ _, attempt)) m1).
  unfold bind at 1. rewrite nested_loops_flatten. fold (reported error).
  destruct (for_of (reported error) _ m1) as [[[]|e2] m2]; [|done].
  unfold bind, acknowledgeUnknownDevicesInRoom, modify.
  by destruct (attempt _) as [[a|e4] m4].
Qed.

(** The whole of it: the clock stands still, the log grows by at most
    two sends, the first of them right away, and at most one
    registration is made, none by a run that throws. *)
Lemma sendMessage_effect env roomId message m :
  truthy roomId = true → blank message = false →
  let body := match message with Some s => js_trim s | None => "" end in
  let run := sendMessage env true roomId message m in
  now run.2 = now m ∧
  (∃ rest, log run.2 = log m ++ SendTextMessage roomId body :: rest ∧
           (sends rest <= 1)%nat) ∧
  match run.1 with
  | Returns _ => registers_at_most_one m run.2
  | Throws _ => pendingEchos run.2 = pendingEchos m ∧ timers run.2 = timers m
  end.
Proof.
  intros Hr Hb. cbv zeta.
  rewrite (sendMessage_unfolded env roomId message m Hr Hb). cbv zeta.
  set (body := match message with Some s => js_trim s | None => "" end).
  set (attempt := (resp ← sendTextMessage env roomId body; registerEcho resp)).
  pose proof (attempt_registers env roomId body m) as H1. cbv zeta in H1.
  fold attempt in H1.
  destruct (attempt m) as [[[]|error] m1];
    simpl in H1; destruct H1 as (Hn1 & Hl1 & Hreg1).
  { simpl. split_and!; try done.
    exists []. split; [done|unfold sends; simpl; lia]. }
  destruct Hreg1 as [Hp1 Ht1].
  destruct (String.eqb (err_name error) "UnknownDeviceError").
  2:{ simpl. split_and!; try done.
      exists []. split; [done|unfold sends; simpl; lia]. }
  pose proof (for_of_quiet (reported error)
    (fun device => setDeviceKnown env device.1 device.2)
    (fun x m => setDeviceKnown_quiet env x.1 x.2 m) m1) as Hq.
  destruct (for_of (reported error) _ m1) as [[[]|e2] m2]; simpl in Hq;
    destruct Hq as (Hp2 & Ht2 & Hn2 & l & Hl2 & Hs2).
  2:{ simpl. split_and!; try congruence. exists l. split; [|lia].
      by rewrite Hl2, Hl1, <- app_assoc. }
  set (m3 := emit (AcknowledgeUnknownDevicesInRoom roomId) m2).
  pose proof (attempt_registers env roomId body m3) as H4. cbv zeta in H4.
  fold attempt in H4.
  assert (Hlog : ∀ m4, log m4 = log m3 ++ [SendTextMessage roomId body] →
    ∃ rest, log m4 = log m ++ SendTextMessage roomId body :: rest ∧
            (sends rest <= 1)%nat).
  { intros m4 Hl4.
    exists (l ++ [AcknowledgeUnknownDevicesInRoom roomId;
                  SendTextMessage roomId body]).
    split.
    - rewrite Hl4. subst m3. unfold emit; simpl.
      rewrite Hl2, Hl1, <- !app_assoc. done.
    - rewrite sends_app, Hs2. unfold sends. simpl. lia. }
  destruct (attempt m3)
    as [[[]|e4] m4]; simpl in H4; destruct H4 as (Hn4 & Hl4 & Hreg4); simpl.
  - split; [subst m3; simpl in *; congruence|]. split; [by apply Hlog|].
    unfold registers_at_most_one in *. subst m3; simpl in *.
    rewrite Hp2, Ht2, Hn2, Hp1, Ht1, Hn1 in Hreg4. exact Hreg4.
  - split; [subst m3; simpl in *; congruence|]. split; [by apply Hlog|].
    subst m3; simpl in *. destruct Hreg4. split; congruence.
Qed.

Lemma sendMessage_cases env client roomId message m :
  sendMessage env client roomId message m = (Returns tt, m) ∨
  (client = true ∧ truthy roomId = true ∧ blank message = false).
Proof.
  destruct client; [|left; apply sendMessage_guarded; auto].
  destruct roomId as [|c r]; [left; apply sendMessage_guarded; auto|].
  destruct (blank message) eqn:Hb; [left; apply sendMessage_guarded; auto|].
  by right.
Qed.

Lemma sendMessage_trims env client roomId value m :
  sendMessage env client roomId (Some (js_trim value)) m =
  sendMessage env client roomId (Some value) m.
Proof. unfold sendMessage. by rewrite js_trim_idempotent. Qed.

(** *** The pending-echo set over time *)

Lemma handleRoomTimelineEvent_frame cur event roomId m :
  let m' := handleRoomTimelineEvent cur event roomId m in
  pendingEchos m' = pendingEchos m ∧ timers m' = timers m ∧ now m' = now m.
Proof. cbv zeta. unfold handleRoomTimelineEvent. repeat case_match; done. Qed.

Lemma foldl_delete_elem (due : list (Z * string)) (s : gset string) id :
  id ∈ foldl (fun s '(_, i) => s ∖ {[i]}) s due → id ∈ s.
Proof.
  revert s. induction due as [|[d i] due IH]; intros s; simpl; [done|].
  intros H%IH. set_solver.
Qed.

Lemma armed_advance dt m : 0 <= dt → armed m → armed (advance dt m).
Proof.
  intros Hdt [Hreg Hdue]. split.
  - intros id Hid. unfold advance in *; simpl in *.
    pose proof (foldl_delete_elem _ _ _ Hid) as Hin.
    destruct (Hreg id Hin) as [d Hd]. exists d.
    apply list_elem_of_filter. split; [|done].
    intros Hle. apply (foldl_delete_due
      (filter (fun '(d, _) => d <= now m + dt) (timers m))
      (pendingEchos m) d id); [|exact Hid].
    apply list_elem_of_filter. by split.
  - intros d id. unfold advance; simpl.
    intros [Hnot Hin]%list_elem_of_filter.
    specialize (Hdue d id Hin). simpl in Hnot. lia.
Qed.

Lemma armed_registers m m' :
  now m' = now m → registers_at_most_one m m' → armed m → armed m'.
Proof.
  intros Hn [[Hp Ht]|(id & Hid & Hp & Ht)] [Hreg Hdue]; split.
  - intros i. rewrite Hp, Ht. apply Hreg.
  - intros d i. rewrite Ht, Hn. apply Hdue.
  - intros i. rewrite Hp, Ht.
    intros [->%elem_of_singleton|Hi]%elem_of_union.
    + exists (now m + 5000). apply elem_of_app. right.
      by apply list_elem_of_singleton.
    + destruct (Hreg i Hi) as [d Hd]. exists d. apply elem_of_app. by left.
  - intros d i. rewrite Ht, Hn. intros [H|H]%elem_of_app.
    + by apply Hdue in H.
    + apply list_elem_of_singleton in H. inversion H. lia.
Qed.

Lemma armed_unchanged m m' :
  pendingEchos m' = pendingEchos m → timers m' = timers m → now m' = now m →
  armed m → armed m'.
Proof.
  intros Hp Ht Hn. apply armed_registers; [done|]. by left.
Qed.

Lemma armed_apply_op op m : armed m → armed (apply_op op m).
Proof.
  intros Ha. destruct op as [env client roomId message|cur event roomId|ms]; simpl.
  - destruct (sendMessage_cases env client roomId message m)
      as [->|(-> & Hr & Hb)]; [done|].
    pose proof (sendMessage_effect env roomId message m Hr Hb) as H.
    cbv zeta in H. destruct H as (Hn & _ & Hreg).
    destruct (sendMessage env true roomId message m) as [[[]|e] m1];
      simpl in *.
    + by apply (armed_registers m).
    + destruct Hreg. by apply (armed_unchanged m).
  - pose proof (handleRoomTimelineEvent_frame cur event roomId m) as H.
    cbv zeta in H. destruct H as (Hp & Ht & Hn).
    by apply (armed_unchanged m).
  - apply armed_advance; [lia|done].
Qed.

Lemma armed_history ops m : armed m → armed (history ops m).
Proof.
  revert m. induction ops as [|op ops IH]; intros m Ha; [done|].
  simpl. apply IH. by apply armed_apply_op.
Qed.

Lemma armed_fresh : armed fresh.
Proof. split; [intros id H|intros d id H]; simpl in H; set_solver. Qed.

Lemma armed_expires dt m :
  armed m → 5000 <= dt → pendingEchos (advance dt m) = ∅.
Proof.
  intros [Hreg Hdue] Hdt. apply elem_of_equiv_empty_L. intros id Hid.
  assert (Hin : id ∈ pendingEchos m).
  { unfold advance in Hid; simpl in Hid. by apply foldl_delete_elem in Hid. }
  destruct (Hreg id Hin) as [d Hd]. specialize (Hdue d id Hd).
  apply (advance_deletes dt d id m); [done|lia|done].
Qed.

(** A page with a draft, open on room [!r]. *)
Definition draft : Page :=
  mkPage (Some " hello ") (Some false) (Some "!r") [] fresh.

(** *** Theorems *)

(** X1.  [sendMessage] leaves the manager untouched and returns exactly
    when there is no client, the room id is empty, or the message is
    absent or white space only; in every other case it calls the
    client. *)
Theorem sendMessage_silent_iff env client roomId message m :
  sendMessage env client roomId message m = (Returns tt, m)
  ↔ client = false ∨ roomId = "" ∨ blank message = true.
Proof.
  split; [|apply sendMessage_guarded].
  intros Hrun.
  destruct (sendMessage_cases env client roomId message m)
    as [_|(-> & Hr & Hb)].
  - destruct client; [|auto]. destruct roomId as [|c r]; [auto|].
    destruct (blank message) eqn:Hb; [auto|]. exfalso.
    pose proof (sendMessage_effect env (String c r) message m eq_refl Hb) as H.
    cbv zeta in H. rewrite Hrun in H. destruct H as (_ & (rest & Hl & _) & _).
    simpl in Hl. apply (f_equal length) in Hl.
    rewrite length_app in Hl. simpl in Hl. lia.
  - exfalso.
    pose proof (sendMessage_effect env roomId message m Hr Hb) as H.
    cbv zeta in H. rewrite Hrun in H. destruct H as (_ & (rest & Hl & _) & _).
    simpl in Hl. apply (f_equal length) in Hl.
    rewrite length_app in Hl. simpl in Hl. lia.
Qed.

(** X2.  Whatever the client answers, one [sendMessage] leaves the clock
    alone, only appends to the log, and sends the message at most twice;
    a run that throws registers no echo and arms no timer, and a run that
    returns registers at most one event id, with one timer due 5000 ms
    later. *)
Theorem sendMessage_envelope env client roomId message m :
  let run := sendMessage env client roomId message m in
  now run.2 = now m ∧
  (∃ l, log run.2 = log m ++ l ∧ (sends l <= 2)%nat) ∧
  match run.1 with
  | Returns _ =>
      (pendingEchos run.2 = pendingEchos m ∧ timers run.2 = timers m) ∨
      (∃ id, truthy id = true ∧
             pendingEchos run.2 = {[id]} ∪ pendingEchos m ∧
             timers run.2 = timers m ++ [(now m + 5000, id)])
  | Throws _ => pendingEchos run.2 = pendingEchos m ∧ timers run.2 = timers m
  end.
Proof.
  cbv zeta.
  destruct (sendMessage_cases env client roomId message m)
    as [->|(-> & Hr & Hb)].
  - simpl. split_and!; [done| |by left].
    exists []. rewrite app_nil_r. split; [done|unfold sends; simpl; lia].
  - pose proof (sendMessage_effect env roomId message m Hr Hb) as H.
    cbv zeta in H. destruct H as (Hn & (rest & Hl & Hs) & Hreg).
    split; [done|]. split; [|exact Hreg].
    eexists. split; [exact Hl|].
    change (SendTextMessage roomId
              match message with Some s => js_trim s | None => "" end :: rest)
      with ([SendTextMessage roomId
              match message with Some s => js_trim s | None => "" end] ++ rest).
    rewrite sends_app. unfold sends at 1. simpl. lia.
Qed.

(** X3.  Starting from a new manager, after any sequence of sends,
    inbound events and clock ticks, every registered echo has a timer
    that is due within the next 5000 ms; so once 5000 ms pass without a
    send the pending-echo set is empty. *)
Theorem echo_lifetime_bounded (ops : list Op) :
  let m := history ops fresh in
  (∀ id, id ∈ pendingEchos m → ∃ d, (d, id) ∈ timers m) ∧
  (∀ d id, (d, id) ∈ timers m → now m < d <= now m + 5000) ∧
  (∀ dt, 5000 <= dt → pendingEchos (advance dt m) = ∅).
Proof.
  cbv zeta. pose proof (armed_history ops fresh armed_fresh) as Ha.
  destruct Ha as [Hreg Hdue]. split; [done|]. split; [done|].
  intros dt Hdt. by apply armed_expires.
Qed.

(** X4.  [handleSendMessage] with a logged-in client and a room open:
    a blank draft changes nothing; any other draft is sent trimmed, at
    most twice; the input is cleared exactly when the send returned, and
    a send that threw leaves the draft, the button and the typing notices
    as they were. *)
Theorem draft_survives_failed_send env p value roomId :
  input p = Some value → currentRoomId p = Some roomId →
  truthy roomId = true →
  let p' := handleSendMessage env true true p in
  let run := sendMessage env true roomId (Some value) (manager p) in
  if all_ws value then p' = p
  else
    (∃ rest, log (manager p') =
               log (manager p) ++ SendTextMessage roomId (js_trim value) :: rest ∧
             (sends rest <= 1)%nat) ∧
    match run.1 with
    | Returns _ =>
        input p' = Some "" ∧ typing p' = typing p ++ [(roomId, false)]
    | Throws _ =>
        input p' = Some value ∧ sendDisabled p' = sendDisabled p ∧
        typing p' = typing p
    end.
Proof.
  intros Hi Hc Hr. cbv zeta. unfold handleSendMessage. rewrite Hi, Hc, Hr.
  destruct (all_ws value) eqn:Hb.
  - rewrite (js_trim_all_ws value Hb). simpl. done.
  - assert (Ht : truthy (js_trim value) = true).
    { destruct (truthy (js_trim value)) eqn:E; [done|].
      apply (trimmed_falsy (Some value)) in E. simpl in E. congruence. }
    rewrite Ht. cbn [negb orb]. rewrite sendMessage_trims.
    pose proof (sendMessage_effect env roomId (Some value) (manager p) Hr Hb) as H.
    cbv zeta in H. destruct H as (_ & Hl & _).
    destruct (sendMessage env true roomId (Some value) (manager p))
      as [[[]|e] m1]; simpl in *; split; done.
Qed.

Lemma draft_survives_failed_send_witness :
  input (handleSendMessage refusing true true draft) = Some " hello " ∧
  input (handleSendMessage accepting true true draft) = Some "".
Proof.
  split.
  - pose proof (draft_survives_failed_send refusing draft " hello " "!r"
                  eq_refl eq_refl eq_refl) as H.
    cbv zeta in H. change (all_ws " hello ") with false in H.
    destruct H as [_ H].
    change (sendMessage refusing true "!r" (Some " hello ") (manager draft)).1
      with (@Throws JsError unit no_such_method) in H.
    apply H.
  - pose proof (draft_survives_failed_send accepting draft " hello " "!r"
                  eq_refl eq_refl eq_refl) as H.
    cbv zeta in H. change (all_ws " hello ") with false in H.
    destruct H as [_ H].
    change (sendMessage accepting true "!r" (Some " hello ") (manager draft)).1
      with (@Returns JsError unit tt) in H.
    apply H.
Defined.

(** X25.  The send button agrees with the send: after
    [handleMessageInput], with a room open and a logged-in client, the
    button is disabled exactly when the text is white space only, which
    is exactly when [handleSendMessage] would do nothing; and the typing
    notice sent says whether there is text. *)
Theorem send_button_matches_send env p value roomId b :
  input p = Some value → sendDisabled p = Some b →
  currentRoomId p = Some roomId → truthy roomId = true →
  let p1 := handleMessageInput true true p in
  sendDisabled p1 = Some (all_ws value) ∧
  typing p1 = typing p ++ [(roomId, negb (all_ws value))] ∧
  (sendDisabled p1 = Some true ↔ handleSendMessage env true true p1 = p1).
Proof.
  intros Hi Hd Hc Hr. cbv zeta. unfold handleMessageInput.
  rewrite Hi, Hd, Hc, Hr. cbn [andb].
  assert (Ht : truthy (js_trim value) = negb (all_ws value)).
  { destruct (all_ws value) eqn:Hb.
    - by rewrite (js_trim_all_ws value Hb).
    - destruct (truthy (js_trim value)) eqn:E; [done|].
      apply (trimmed_falsy (Some value)) in E. simpl in E. congruence. }
  rewrite Ht, negb_involutive. split; [done|]. split; [done|].
  cbn [sendDisabled]. unfold handleSendMessage. cbn [input currentRoomId].
  rewrite ?Hi, ?Hc, ?Hr, ?Ht.
  destruct (all_ws value) eqn:Hb; cbn [negb orb]; [done|].
  split; [done|]. intros Hsame. exfalso.
  rewrite sendMessage_trims in Hsame. cbn [manager] in Hsame.
  pose proof (sendMessage_effect env roomId (Some value) (manager p) Hr Hb) as H.
  cbv zeta in H. destruct H as (_ & (rest & Hl & _) & _).
  destruct (sendMessage env true roomId (Some value) (manager p))
    as [[[]|e] m1]; simpl in Hl; apply (f_equal manager) in Hsame;
    simpl in Hsame; rewrite Hsame in Hl; apply (f_equal length) in Hl;
    rewrite length_app in Hl; simpl in Hl; lia.
Qed.

Lemma send_button_matches_send_witness :
  let p1 := handleMessageInput true true draft in
  sendDisabled p1 = Some false ∧
  typing p1 = [("!r", true)] ∧
  (sendDisabled p1 = Some true ↔ handleSendMessage accepting true true p1 = p1).
Proof.
  exact (send_button_matches_send accepting draft " hello " "!r" false
           eq_refl eq_refl eq_refl eq_refl).
Defined.

(** X5.  When the manager object exists but has no client (it is not
    logged in), [handleSendMessage] clears a non-blank draft and disables
    the button although nothing was sent. *)
Theorem unsent_draft_is_cleared env p value roomId :
  input p = Some value → currentRoomId p = Some roomId →
  truthy roomId = true → all_ws value = false →
  let p' := handleSendMessage env true false p in
  input p' = Some "" ∧
  sendDisabled p' = (match sendDisabled p with Some _ => Some true | None => None end) ∧
  manager p' = manager p ∧ typing p' = typing p.
Proof.
  intros Hi Hc Hr Hb. cbv zeta. unfold handleSendMessage. rewrite Hi, Hc, Hr.
  assert (Ht : truthy (js_trim value) = true).
  { destruct (truthy (js_trim value)) eqn:E; [done|].
    apply (trimmed_falsy (Some value)) in E. simpl in E. congruence. }
  rewrite Ht. cbn [negb orb].
  rewrite sendMessage_guarded by auto. done.
Qed.

Lemma unsent_draft_is_cleared_witness :
  input (handleSendMessage accepting true false draft) = Some "" ∧
  sendDisabled (handleSendMessage accepting true false draft) = Some true ∧
  manager (handleSendMessage accepting true false draft) = fresh ∧
  typing (handleSendMessage accepting true false draft) = [].
Proof.
  exact (unsent_draft_is_cleared accepting draft " hello " "!r"
           eq_refl eq_refl eq_refl eq_refl).
Defined.

End Sending.

(** ** More on the classifier ([formatEventToMessage], src/matrix.js) *)

Module Kinds.

Import Classifier.

(** The test of the decryption-failure branch. *)
Definition failed (event : MatrixEvent) : bool :=
  bool_decide (isEncrypted event = Some true)
  && bool_decide (isDecryptionFailure event = Some true).

(** [type.startsWith('m.call.')] *)
Definition is_call_type (type : string) : bool :=
  bool_decide (is_Some (Media.strip_prefix "m.call." type)).

Definition is_state_type (type : string) : bool :=
  String.eqb type "m.room.member" || String.eqb type "m.room.name"
  || String.eqb type "m.room.topic" || String.eqb type "m.room.avatar".

(** The key request appends to whatever was logged before. *)
Lemma requestKey_appends client event l :
  try_catch (requestKey client event) (fun _ => ret tt) l =
    (Returns tt, l ++ key_requests client event).
Proof.
  unfold try_catch, requestKey, key_requests, ret.
  destruct (crypto_requestRoomKey client) as [[]|]; [done|done|].
  destruct (client_requestRoomKeyForEvent client) as [[]|];
    rewrite ?app_nil_r; done.
Qed.

(** The classifier returns, for every event, a message with the id of
    the event; it asks for keys only in the decryption-failure branch. *)
Lemma classify_run stringify client event room l :
  ∃ msg,
    formatEventToMessage stringify client event room l =
      (Returns msg,
       l ++ (if failed event then key_requests client event else [])) ∧
    eventId msg = getId event.
Proof.
  unfold formatEventToMessage. fold (failed event).
  destruct (failed event).
  - unfold mbind, run_bind, bind. rewrite requestKey_appends.
    eexists. split; [reflexivity|done].
  - rewrite app_nil_r. unfold ret.
    repeat case_match; simplify_eq; eexists; (split; [reflexivity|done]).
Qed.

(** The kind of the message as a function of the event. *)
Definition kind_of (event : MatrixEvent) : Kind :=
  let type := getType event in
  let content := default empty_content (getContent event) in
  let other :=
    if String.eqb type "m.reaction" then reaction
    else if is_call_type type then call
    else if is_state_type type then system
    else unknown in
  if failed event then error
  else if String.eqb type "m.room.message" then
    if equals "m.replace" (rel_type content)
       && bool_decide (is_Some (new_content content)) then edit
    else if equals "m.text" (msgtype content) || equals "m.notice" (msgtype content)
            || equals "m.emote" (msgtype content) then text
    else if equals "m.image" (msgtype content) || equals "m.video" (msgtype content)
            || equals "m.audio" (msgtype content)
            || equals "m.file" (msgtype content) then media
    else if equals "m.location" (msgtype content) then location
    else other
  else other.

Lemma classify_kind stringify client event room l msg l' :
  formatEventToMessage stringify client event room l = (Returns msg, l') →
  kind msg = kind_of event.
Proof.
  unfold formatEventToMessage, kind_of, is_state_type, is_call_type.
  fold (failed event).
  destruct (failed event).
  - unfold mbind, run_bind, bind. rewrite requestKey_appends.
    unfold ret. by intros [= <- _].
  - unfold ret.
    repeat case_match; simplify_eq; intros [= <- _]; try done.
    all: simpl in *; try congruence.
Qed.

Lemma state_type_cases type :
  is_state_type type = true →
  type = "m.room.member" ∨ type = "m.room.name" ∨ type = "m.room.topic"
  ∨ type = "m.room.avatar".
Proof.
  unfold is_state_type. intros H.
  repeat (apply orb_prop in H as [H|H]); apply String.eqb_eq in H; auto.
Qed.

Lemma state_type_not_call type :
  is_state_type type = true →
  is_call_type type = false ∧ String.eqb type "m.reaction" = false
  ∧ String.eqb type "m.room.message" = false.
Proof.
  intros H. destruct (state_type_cases type H) as [->|[->|[->| ->]]]; done.
Qed.

(** *** Theorems *)

(** X6.  For every event and every client the classifier returns; the
    message carries the id, the sender and the time of the event; and key
    requests are made for an encrypted event whose decryption failed and
    for no other event. *)
Theorem classification_keeps_identity stringify client event room l :
  ∃ msg,
    formatEventToMessage stringify client event room l =
      (Returns msg,
       l ++ (if failed event then key_requests client event else [])) ∧
    eventId msg = getId event ∧
    senderId msg = getSender event ∧
    timestamp msg = getTs event.
Proof.
  destruct (classify_run stringify client event room l) as (msg & Hrun & Hid).
  exists msg. split; [exact Hrun|]. split; [exact Hid|].
  revert Hrun. unfold formatEventToMessage. fold (failed event).
  destruct (failed event).
  - unfold mbind, run_bind, bind. rewrite requestKey_appends.
    unfold ret. by intros [= <-].
  - unfold ret. repeat case_match; simplify_eq; by intros [= <- _].
Qed.

(** X7.  The kind of the message follows the event: [error] exactly for
    an encrypted event whose decryption failed; otherwise [reaction]
    exactly for the type [m.reaction], [call] exactly for the types that
    start with [m.call.], [system] exactly for [m.room.member],
    [m.room.name], [m.room.topic] and [m.room.avatar]; and a message of
    kind [edit], [text], [media] or [location] comes from an
    [m.room.message]. *)
Theorem kind_follows_type stringify client event room l :
  ∃ msg l',
    formatEventToMessage stringify client event room l = (Returns msg, l') ∧
    (kind msg = error ↔ failed event = true) ∧
    (kind msg = reaction
       ↔ failed event = false ∧ getType event = "m.reaction") ∧
    (kind msg = call
       ↔ failed event = false ∧ is_call_type (getType event) = true) ∧
    (kind msg = system
       ↔ failed event = false ∧ is_state_type (getType event) = true) ∧
    (kind msg = edit ∨ kind msg = text ∨ kind msg = media
       ∨ kind msg = location
       → failed event = false ∧ getType event = "m.room.message").
Proof.
  destruct (classify_run stringify client event room l) as (msg & Hrun & _).
  exists msg. eexists. split; [exact Hrun|].
  rewrite (classify_kind _ _ _ _ _ _ _ Hrun). unfold kind_of.
  destruct (failed event); [naive_solver|].
  destruct (String.eqb_spec (getType event) "m.room.message") as [Hty|Hty].
  - rewrite Hty. change (is_call_type "m.room.message") with false.
    change (is_state_type "m.room.message") with false. cbn [String.eqb].
    simpl. repeat case_match; naive_solver.
  - destruct (String.eqb_spec (getType event) "m.reaction") as [Hre|Hre].
    { rewrite Hre. change (is_call_type "m.reaction") with false.
      change (is_state_type "m.reaction") with false. naive_solver. }
    destruct (is_state_type (getType event)) eqn:Hst.
    { destruct (state_type_not_call _ Hst) as (-> & _ & _). naive_solver. }
    destruct (is_call_type (getType event)); naive_solver.
Qed.

End Kinds.

(** ** Sending files ([MatrixManager.sendFile] in src/matrix.js,
    [handleFileSelect] in src/app.js) *)

Module Files.

Import Classifier.

(** A [File] of the browser. *)
Record File := mkFile {
  name : string;
  size : Z;
  type : string
}.

(** Calls made to the protocol client. *)
Inductive Call :=
  | UploadContent (file : File)
  | SendMessage (roomId : string) (content : Content).

(** What [sendFile] throws: what a call of the client threw, or its own
    [new Error('File upload failed')]. *)
Inductive Failure :=
  | Thrown (call : Call)
  | UploadFailed.

(** What the client answers to an upload: it throws, or it responds;
    [content_uri] is [None] when there is no response object or the
    object has no such field. *)
Inductive Upload :=
  | UploadThrows
  | UploadResponds (content_uri : option string).

Record Env := mkEnv {
  upload_outcome : File -> Upload;
  send_accepted : string -> Content -> bool
}.

Definition uploadContent (env : Env) (file : File)
  : Run (list Call) Failure (option string) :=
  fun l =>
    let l' := l ++ [UploadContent file] in
    match upload_outcome env file with
    | UploadThrows => (Throws (Thrown (UploadContent file)), l')
    | UploadResponds content_uri => (Returns content_uri, l')
    end.

Definition client_sendMessage (env : Env) (roomId : string) (content : Content)
  : Run (list Call) Failure unit :=
  fun l =>
    let l' := l ++ [SendMessage roomId content] in
    if send_accepted env roomId content then (Returns tt, l')
    else (Throws (Thrown (SendMessage roomId content)), l').

Definition starts_with (p s : string) : bool :=
  bool_decide (is_Some (Media.strip_prefix p s)).

(** The message type by the media type of the file. *)
Definition msgtype_of (type : string) : string :=
  if starts_with "image/" type then "m.image"
  else if starts_with "audio/" type then "m.audio"
  else if starts_with "video/" type then "m.video"
  else "m.file".

(** The content object of the file message. *)
Definition file_content (file : File) (content_uri : string) : Content :=
  mkContent (Some (msgtype_of (type file))) (Some (name file)) None None
            (Some content_uri) None (Some (name file)) None None
            (Some (size file)) (Some (type file)) None None None None None
            None None None.

(** [sendFile(roomId, file)]; the [catch] logs the error and throws it
    again. *)
Definition sendFile (env : Env) (client : bool) (roomId : string)
    (file : option File) : Run (list Call) Failure unit :=
  try_catch
    (match file with
     | Some f =>
         if negb client || negb (truthy roomId) then ret tt
         else
           uploadResponse ← uploadContent env f;
           match truthy_opt uploadResponse with
           | Some content_uri =>
               client_sendMessage env roomId (file_content f content_uri)
           | None => throw UploadFailed
           end
     | None => ret tt
     end)
    (fun error => throw error).

(** [handleFileSelect(event)]: [files] is [event.target.files]; the
    result says whether the file input was cleared. *)
Definition handleFileSelect (env : Env) (matrixClient client : bool)
    (currentRoomId : option string) (files : option (list File))
  : Run (list Call) Failure bool :=
  match files, currentRoomId with
  | Some (f :: fs), Some roomId =>
      if negb (truthy roomId) || negb matrixClient then ret false
      else
        for_of (f :: fs) (fun file =>
          try_catch (sendFile env client roomId (Some file))
                    (fun _ => ret tt));;
        ret true
  | _, _ => ret false
  end.

(** The files uploaded by the calls of a log, in order. *)
Fixpoint uploads (l : list Call) : list File :=
  match l with
  | [] => []
  | UploadContent f :: rest => f :: uploads rest
  | _ :: rest => uploads rest
  end.

(** The rooms and contents of the messages sent by the calls of a log. *)
Fixpoint posts (l : list Call) : list (string * Content) :=
  match l with
  | [] => []
  | SendMessage r c :: rest => (r, c) :: posts rest
  | _ :: rest => posts rest
  end.

(** Examples: a photo, a client that stores every upload, and one whose
    store answers the photo without a content URI. *)
Definition photo : File := mkFile "cat.png" 2048 "image/png".

Definition notes : File := mkFile "notes.txt" 12 "text/plain".

Definition storing : Env :=
  mkEnv (fun f => UploadResponds (Some ("mxc://hs/" +:+ name f)))
        (fun _ _ => true).

Definition picky : Env :=
  mkEnv (fun f => if String.eqb (name f) "cat.png" then UploadResponds None
                  else UploadResponds (Some ("mxc://hs/" +:+ name f)))
        (fun _ _ => true).

Definition photo_event (content : Content) : MatrixEvent :=
  mkEvent "@me:hs" "m.room.message" (Some content) 1700000000000 "$f1"
          None None None None None.

(** *** Facts *)

Lemma uploads_app l1 l2 : uploads (l1 ++ l2) = uploads l1 ++ uploads l2.
Proof.
  induction l1 as [|[f|r c] l1 IH]; simpl; [done| |done]. by rewrite IH.
Qed.

Lemma posts_app l1 l2 : posts (l1 ++ l2) = posts l1 ++ posts l2.
Proof.
  induction l1 as [|[f|r c] l1 IH]; simpl; [done|done|]. by rewrite IH.
Qed.

Lemma msgtype_of_cases type :
  msgtype_of type = "m.image" ∨ msgtype_of type = "m.audio"
  ∨ msgtype_of type = "m.video" ∨ msgtype_of type = "m.file".
Proof. unfold msgtype_of. repeat case_match; auto. Qed.

(** What one [sendFile] past its guard does. *)
Lemma sendFile_run env roomId f l :
  truthy roomId = true →
  sendFile env true roomId (Some f) l =
    match upload_outcome env f with
    | UploadThrows =>
        (Throws (Thrown (UploadContent f)), l ++ [UploadContent f])
    | UploadResponds uri =>
        match truthy_opt uri with
        | Some content_uri =>
            let c := file_content f content_uri in
            (if send_accepted env roomId c then Returns tt
             else Throws (Thrown (SendMessage roomId c)),
             l ++ [UploadContent f; SendMessage roomId c])
        | None => (Throws UploadFailed, l ++ [UploadContent f])
        end
    end.
Proof.
  intros Hr. unfold sendFile, try_catch. rewrite Hr. cbn [negb orb].
  unfold mbind, run_bind, bind, uploadContent.
  destruct (upload_outcome env f) as [|uri]; [done|].
  destruct (truthy_opt uri) as [content_uri|]; [|done].
  unfold client_sendMessage. cbv zeta. rewrite <- app_assoc.
  by destruct (send_accepted env roomId _).
Qed.

(** The message a file brings, when its upload gave a content URI. *)
Definition post_of (env : Env) (roomId : string) (f : File)
  : option (string * Content) :=
  match upload_outcome env f with
  | UploadResponds uri =>
      (fun u => (roomId, file_content f u)) <$> truthy_opt uri
  | UploadThrows => None
  end.

(** One turn of the loop of [handleFileSelect]. *)
Lemma select_step env roomId f l :
  truthy roomId = true →
  ∃ l',
    try_catch (sendFile env true roomId (Some f)) (fun _ => ret tt) l
      = (Returns tt, l') ∧
    uploads l' = uploads l ++ [f] ∧
    posts l' = posts l ++ option_list (post_of env roomId f).
Proof.
  intros Hr. unfold try_catch at 1, post_of.
  rewrite (sendFile_run env roomId f l Hr).
  destruct (upload_outcome env f) as [|uri].
  - eexists. split; [reflexivity|].
    rewrite uploads_app, posts_app. simpl. by rewrite app_nil_r.
  - destruct (truthy_opt uri) as [u|]; cbv zeta.
    + exists (l ++ [UploadContent f; SendMessage roomId (file_content f u)]).
      split; [by destruct (send_accepted env roomId _)|].
      by rewrite uploads_app, posts_app.
    + eexists. split; [reflexivity|].
      rewrite uploads_app, posts_app. simpl. by rewrite app_nil_r.
Qed.

(** The loop goes through every file. *)
Lemma select_loop env roomId (files : list File) l :
  truthy roomId = true →
  ∃ l',
    for_of files (fun file =>
      try_catch (sendFile env true roomId (Some file)) (fun _ => ret tt)) l
      = (Returns tt, l') ∧
    uploads l' = uploads l ++ files ∧
    posts l' = posts l ++ omap (post_of env roomId) files.
Proof.
  intros Hr. revert l. induction files as [|f files IH]; intros l.
  - exists l. simpl. by rewrite !app_nil_r.
  - cbn [for_of]. unfold bind at 1.
    destruct (select_step env roomId f l Hr) as (l1 & -> & Hu1 & Hp1).
    destruct (IH l1) as (l' & Hrun & Hu & Hp).
    exists l'. split; [exact Hrun|].
    rewrite Hu, Hp, Hu1, Hp1, <- !app_assoc. split; [done|].
    f_equal. cbn [omap list_omap]. by destruct (post_of env roomId f).
Qed.

(** *** Theorems *)

(** X8.  A file that [sendFile] has sent comes back as a media message:
    after an upload that gave a content URI, [sendFile] posts one
    message, and an [m.room.message] event with that content is
    classified as media of the type chosen by the media type of the file,
    with the content URI as its locator, the file name as text and file
    name ([file] when the name is empty), the size and the media type of
    the file, and no encrypted-file descriptor. *)
Theorem sent_file_is_media env roomId f uri :
  upload_outcome env f = UploadResponds (Some uri) →
  truthy uri = true → truthy roomId = true →
  ∃ content,
    (sendFile env true roomId (Some f) []).2 =
      [UploadContent f; SendMessage roomId content] ∧
    ∀ stringify client event room l,
      getType event = "m.room.message" →
      getContent event = Some content →
      Kinds.failed event = false →
      ∃ msg,
        formatEventToMessage stringify client event room l = (Returns msg, l) ∧
        payload msg =
          PMedia (msgtype_of (type f)) (js_or (Some (name f)) "file")
                 (Some uri) None None None (js_or (Some (name f)) "file")
                 (size f) (truthy_opt (Some (type f))) None.
Proof.
  intros Hup Huri Hr. exists (file_content f uri). split.
  - rewrite (sendFile_run env roomId f [] Hr), Hup. simpl. rewrite Huri.
    reflexivity.
  - intros stringify client event room l Hty Hc Hf.
    unfold formatEventToMessage. fold (Kinds.failed event).
    rewrite Hf, Hty, Hc. cbn [String.eqb Ascii.eqb Bool.eqb default].
    unfold file_content. simpl.
    destruct (msgtype_of_cases (type f)) as [->|[->|[->| ->]]];
      simpl; rewrite Huri; eexists; (split; [reflexivity|]);
      simpl; by destruct (truthy (name f)).
Qed.

Lemma sent_file_is_media_witness :
  ∃ content,
    (sendFile storing true "!r" (Some photo) []).2 =
      [UploadContent photo; SendMessage "!r" content] ∧
    ∀ stringify client event room l,
      getType event = "m.room.message" →
      getContent event = Some content →
      Kinds.failed event = false →
      ∃ msg,
        formatEventToMessage stringify client event room l = (Returns msg, l) ∧
        payload msg =
          PMedia "m.image" "cat.png" (Some "mxc://hs/cat.png") None None None
                 "cat.png" 2048 (Some "image/png") None.
Proof.
  exact (sent_file_is_media storing "!r" photo "mxc://hs/cat.png"
           eq_refl eq_refl eq_refl).
Defined.

(** X9.  [handleFileSelect] with a room open and a logged-in client:
    every selected file is uploaded, in the order of the selection,
    whether or not an earlier file failed; the handler returns and
    clears the file input; and the messages posted are those of the files
    whose upload gave a content URI. *)
Theorem every_selected_file_is_tried env roomId f fs l :
  truthy roomId = true →
  ∃ l',
    handleFileSelect env true true (Some roomId) (Some (f :: fs)) l =
      (Returns true, l') ∧
    uploads l' = uploads l ++ f :: fs ∧
    posts l' = posts l ++ omap (post_of env roomId) (f :: fs).
Proof.
  intros Hr. unfold handleFileSelect. rewrite Hr. cbn [negb orb].
  destruct (select_loop env roomId (f :: fs) l Hr) as (l' & Hrun & Hu & Hp).
  exists l'. split; [|done].
  unfold mbind, run_bind, bind. by rewrite Hrun.
Qed.

Lemma every_selected_file_is_tried_witness :
  ∃ l',
    handleFileSelect picky true true (Some "!r") (Some [photo; notes]) [] =
      (Returns true, l') ∧
    uploads l' = [photo; notes] ∧
    posts l' = [("!r", file_content notes "mxc://hs/notes.txt")].
Proof.
  exact (every_selected_file_is_tried picky "!r" photo [notes] [] eq_refl).
Defined.

End Files.

(** ** The history of a room ([MatrixManager.getRoomMessages] and
    [MatrixManager.loadOlderMessages], src/matrix.js) *)

Module History.

Import Classifier.

(** A room of the client with the events of its live timeline. *)
Record RoomState := mkRoomState {
  room : Room;
  timeline : list MatrixEvent
}.

(** The protocol client: [getRoom], and [paginateEventTimeline], which
    throws ([None]) or answers whether there is more to load, the
    timeline then holding the given events. *)
Record Sdk := mkSdk {
  getRoom : string -> option RoomState;
  paginateEventTimeline : RoomState -> Z -> option (bool * list MatrixEvent)
}.

(** The types both functions keep. *)
Definition wanted (type : string) : bool :=
  String.eqb type "m.room.message" || String.eqb type "m.room.encrypted"
  || String.eqb type "m.reaction" || Kinds.is_call_type type
  || String.eqb type "m.room.member" || String.eqb type "m.room.name"
  || String.eqb type "m.room.topic".

(** [Array.prototype.slice(start)] for an integer [start]. *)
Definition slice {A} (start : Z) (l : list A) : list A :=
  let len := Z.of_nat (length l) in
  let k := if (start <? 0)%Z then Z.max (len + start) 0 else Z.min start len in
  drop (Z.to_nat k) l.

(** [for (const event of events) messages.push(await
    this.formatEventToMessage(event, room))]; a message object is always
    truthy. *)
Fixpoint format_all (stringify : Content -> string) (client : Client)
    (r : Room) (events : list MatrixEvent)
  : Run (list KeyRequest) unit (list Message) :=
  match events with
  | [] => ret []
  | event :: rest =>
      message ← formatEventToMessage stringify client event r;
      messages ← format_all stringify client r rest;
      ret (message :: messages)
  end.

(** [getRoomMessages(roomId, limit)]; [sdk] is [this.client], and
    reading [getRoom] of a missing client throws inside the [try]. *)
Definition getRoomMessages (stringify : Content -> string) (client : Client)
    (sdk : option Sdk) (roomId : string) (limit : Z)
  : Run (list KeyRequest) unit (list Message) :=
  try_catch
    (match sdk with
     | None => throw tt
     | Some s =>
         match getRoom s roomId with
         | None => ret []
         | Some r =>
             let messageEvents :=
               slice (- limit)
                 (List.filter (fun event => wanted (getType event)) (timeline r)) in
             format_all stringify client (room r) messageEvents
         end
     end)
    (fun _ => ret []).

(** The loop of [loadOlderMessages], which tests the type of each event
    itself. *)
Fixpoint format_wanted (stringify : Content -> string) (client : Client)
    (r : Room) (events : list MatrixEvent)
  : Run (list KeyRequest) unit (list Message) :=
  match events with
  | [] => ret []
  | event :: rest =>
      if wanted (getType event) then
        message ← formatEventToMessage stringify client event r;
        messages ← format_wanted stringify client r rest;
        ret (message :: messages)
      else format_wanted stringify client r rest
  end.

(** [loadOlderMessages(roomId, limit)] *)
Definition loadOlderMessages (stringify : Content -> string) (client : Client)
    (sdk : option Sdk) (roomId : string) (limit : Z)
  : Run (list KeyRequest) unit (list Message * bool) :=
  try_catch
    (match sdk with
     | None => throw tt
     | Some s =>
         match getRoom s roomId with
         | None => ret ([], false)
         | Some r =>
             match paginateEventTimeline s r limit with
             | None => throw tt
             | Some (canLoadMore, allEvents) =>
                 messages ← format_wanted stringify client (room r) allEvents;
                 ret (messages, canLoadMore)
             end
         end
     end)
    (fun _ => ret ([], false)).

(** The wanted events of a timeline. *)
Definition kept (events : list MatrixEvent) : list MatrixEvent :=
  List.filter (fun event => wanted (getType event)) events.

(** The room of a client, if it has one by that id. *)
Definition room_of (sdk : option Sdk) (roomId : string) : option RoomState :=
  match sdk with
  | Some s => getRoom s roomId
  | None => None
  end.

(** The page the client answers a pagination with; [None] when there is
    no client, no such room, or the request throws. *)
Definition page_of (sdk : option Sdk) (roomId : string) (limit : Z)
  : option (bool * list MatrixEvent) :=
  match sdk with
  | Some s =>
      match getRoom s roomId with
      | Some r => paginateEventTimeline s r limit
      | None => None
      end
  | None => None
  end.

(** *** Facts *)

Lemma format_all_ids stringify client r events l :
  ∃ msgs l',
    format_all stringify client r events l = (Returns msgs, l') ∧
    map eventId msgs = map getId events.
Proof.
  revert l. induction events as [|event rest IH]; intros l.
  - by exists [], l.
  - cbn [format_all]. unfold mbind, run_bind, bind.
    destruct (Kinds.classify_run stringify client event r l)
      as (msg & -> & Hid).
    destruct (IH (l ++ (if Kinds.failed event
                        then key_requests client event else [])))
      as (msgs & l' & -> & Hids).
    exists (msg :: msgs), l'. split; [done|]. simpl. by rewrite Hid, Hids.
Qed.

Lemma format_wanted_kept stringify client r events l :
  format_wanted stringify client r events l =
  format_all stringify client r (kept events) l.
Proof.
  revert l. induction events as [|event rest IH]; intros l; [done|].
  unfold kept in *. cbn [format_wanted List.filter].
  destruct (wanted (getType event)); [|apply IH].
  cbn [format_all]. unfold mbind, run_bind, bind.
  destruct (formatEventToMessage stringify client event r l) as [[m|e] l1];
    [|done].
  by rewrite IH.
Qed.

Lemma slice_suffix {A} start (l : list A) : slice start l `suffix_of` l.
Proof. unfold slice. apply suffix_drop. Qed.

Lemma slice_last {A} n (l : list A) :
  0 < n → length (slice (- n) l) = Z.to_nat (Z.min n (Z.of_nat (length l))).
Proof.
  intros Hn. unfold slice.
  destruct (Z.ltb_spec (- n) 0); [|lia]. rewrite length_drop. lia.
Qed.

Lemma slice_zero {A} (l : list A) : slice (- 0) l = l.
Proof. unfold slice. simpl. rewrite Z.min_l by lia. done. Qed.

Lemma slice_map {A B} (f : A → B) start (l : list A) :
  map f (slice start l) = slice start (map f l).
Proof. unfold slice. by rewrite length_map, <- fmap_drop. Qed.

Lemma kept_app l1 l2 : kept (l1 ++ l2) = kept l1 ++ kept l2.
Proof. unfold kept. apply List.filter_app. Qed.

Lemma getRoomMessages_shape stringify client sdk roomId limit l :
  ∃ msgs l',
    getRoomMessages stringify client sdk roomId limit l = (Returns msgs, l') ∧
    match room_of sdk roomId with
    | None => msgs = [] ∧ l' = l
    | Some r =>
        map eventId msgs `suffix_of` map getId (kept (timeline r))
    end.
Proof.
  unfold getRoomMessages, room_of, try_catch.
  destruct sdk as [s|]; [|by exists [], l].
  destruct (getRoom s roomId) as [r|]; [|by exists [], l].
  cbv zeta. fold (kept (timeline r)).
  destruct (format_all_ids stringify client (room r)
              (slice (- limit) (kept (timeline r))) l)
    as (msgs & l' & -> & Hids).
  exists msgs, l'. split; [done|].
  rewrite slice_map in Hids. rewrite Hids. apply slice_suffix.
Qed.

Lemma loadOlderMessages_fallback stringify client sdk roomId limit l :
  page_of sdk roomId limit = None →
  loadOlderMessages stringify client sdk roomId limit l
    = (Returns ([], false), l).
Proof.
  unfold loadOlderMessages, page_of, try_catch.
  destruct sdk as [s|]; [|done].
  destruct (getRoom s roomId) as [r|]; [|done].
  by intros ->.
Qed.

Lemma loadOlderMessages_pages stringify client sdk roomId limit l more
    allEvents :
  page_of sdk roomId limit = Some (more, allEvents) →
  ∃ msgs l',
    loadOlderMessages stringify client sdk roomId limit l
      = (Returns (msgs, more), l') ∧
    map eventId msgs = map getId (kept allEvents).
Proof.
  unfold loadOlderMessages, page_of, try_catch.
  destruct sdk as [s|]; [|done].
  destruct (getRoom s roomId) as [r|]; [|done].
  intros ->. unfold mbind, run_bind, bind. rewrite format_wanted_kept.
  destruct (format_all_ids stringify client (room r) (kept allEvents) l)
    as (msgs & l' & -> & Hids).
  by exists msgs, l'.
Qed.

(** Examples: a room whose timeline holds the messages [$2] and [$3] and
    a typing notice, and a client for which a pagination brings [$1]. *)
Definition said (id : string) : MatrixEvent :=
  mkEvent "@alice:hs" "m.room.message"
          (Some (mkContent (Some "m.text") (Some "hi") None None None None
                   None None None None None None None None None None None
                   None None))
          1700000000000 id None None None None None.

Definition receipt : MatrixEvent :=
  mkEvent "@alice:hs" "m.receipt" None 1700000000000 "$x" None None None
          None None.

Definition lobby : RoomState :=
  mkRoomState a_room [said "$2"; receipt; said "$3"].

Definition paging : Sdk :=
  mkSdk (fun roomId => if String.eqb roomId "!a" then Some lobby else None)
        (fun r _ => Some (true, said "$1" :: timeline r)).

(** *** Theorems *)

(** X10.  [getRoomMessages] never throws.  Without a client or a room by
    that id it returns no message.  Otherwise the messages are those of
    the last events of the kept types, in timeline order: for a positive
    limit the last [limit] of them, or all when there are fewer; for the
    limit 0 all of them. *)
Theorem getRoomMessages_window stringify client sdk roomId limit l :
  ∃ msgs l',
    getRoomMessages stringify client sdk roomId limit l = (Returns msgs, l') ∧
    match room_of sdk roomId with
    | None => msgs = [] ∧ l' = l
    | Some r =>
        let ids := map getId (kept (timeline r)) in
        map eventId msgs `suffix_of` ids ∧
        (0 < limit →
         length msgs = Z.to_nat (Z.min limit (Z.of_nat (length ids)))) ∧
        (limit = 0 → map eventId msgs = ids)
    end.
Proof.
  unfold getRoomMessages, room_of, try_catch.
  destruct sdk as [s|]; [|by exists [], l].
  destruct (getRoom s roomId) as [r|]; [|by exists [], l].
  cbv zeta. fold (kept (timeline r)).
  destruct (format_all_ids stringify client (room r)
              (slice (- limit) (kept (timeline r))) l)
    as (msgs & l' & -> & Hids).
  exists msgs, l'. split; [done|].
  rewrite slice_map in Hids. split_and!.
  - rewrite Hids. apply slice_suffix.
  - intros Hl. rewrite <- (length_map eventId), Hids.
    by apply slice_last.
  - intros ->. by rewrite Hids, slice_zero.
Qed.

(** X11.  [loadOlderMessages] never throws.  Without a client or a room,
    or when the pagination request throws, it answers with no message
    and [canLoadMore] false.  Otherwise it passes on the answer of the
    request and returns the messages of every event of a kept type that
    the timeline then holds, in timeline order, whatever the limit. *)
Theorem older_page_is_whole_timeline stringify client sdk roomId limit l :
  ∃ msgs more l',
    loadOlderMessages stringify client sdk roomId limit l
      = (Returns (msgs, more), l') ∧
    match page_of sdk roomId limit with
    | None => msgs = [] ∧ more = false ∧ l' = l
    | Some (canLoadMore, allEvents) =>
        more = canLoadMore ∧ map eventId msgs = map getId (kept allEvents)
    end.
Proof.
  destruct (page_of sdk roomId limit) as [[more allEvents]|] eqn:Hpage.
  - destruct (loadOlderMessages_pages stringify client sdk roomId limit l
                more allEvents Hpage) as (msgs & l' & Hrun & Hids).
    by exists msgs, more, l'.
  - exists [], false, l. split; [|done].
    by apply loadOlderMessages_fallback.
Qed.

(** X12.  When a pagination puts the older events in front of the
    timeline, the page [loadOlderMessages] returns ends with everything
    [getRoomMessages] returned before it, whatever the two limits: each
    page repeats the messages already shown. *)
Theorem older_page_repeats_shown stringify client s roomId r limit n older
    more l1 l2 :
  getRoom s roomId = Some r →
  paginateEventTimeline s r n = Some (more, older ++ timeline r) →
  ∃ shown page l1' l2',
    getRoomMessages stringify client (Some s) roomId limit l1
      = (Returns shown, l1') ∧
    loadOlderMessages stringify client (Some s) roomId n l2
      = (Returns (page, more), l2') ∧
    map eventId shown `suffix_of` map eventId page.
Proof.
  intros Hroom Hpage.
  destruct (getRoomMessages_shape stringify client (Some s) roomId limit l1)
    as (shown & l1' & Hshown & Hs).
  destruct (loadOlderMessages_pages stringify client (Some s) roomId n l2
              more (older ++ timeline r)) as (page & l2' & Holder & Hp).
  { unfold page_of. by rewrite Hroom. }
  unfold room_of in Hs. rewrite Hroom in Hs.
  exists shown, page, l1', l2'. split; [done|]. split; [done|].
  rewrite Hp, kept_app, map_app.
  etrans; [exact Hs|]. by apply suffix_app_r.
Qed.

Lemma older_page_repeats_shown_witness :
  ∃ shown page l1' l2',
    getRoomMessages no_json bare_client (Some paging) "!a" 50 []
      = (Returns shown, l1') ∧
    loadOlderMessages no_json bare_client (Some paging) "!a" 10 []
      = (Returns (page, true), l2') ∧
    map eventId shown `suffix_of` map eventId page.
Proof.
  exact (older_page_repeats_shown no_json bare_client paging "!a" lobby 50 10
           [said "$1"] true [] [] eq_refl eq_refl).
Defined.

(** X13.  A pagination that fails ends the infinite scroll of the page
    for good: when there is no client or no such room, or the request
    throws, the answer the manager gives closes [canLoadMore]; once the
    waiting [loadOlderMessages] of the page has taken it, whatever
    happens later the guard stays closed and no further request is made. *)
Theorem failed_page_ends_scroll layout css stringify client sdk roomId limit l
    c acts i rid h top :
  page_of sdk roomId limit = None →
  Pagination.tasks (Pagination.run layout css acts (Pagination.initial c)) !! i
    = Some (Pagination.OlderAwaitPage rid h top) →
  ∃ msgs more l',
    loadOlderMessages stringify client sdk roomId limit l
      = (Returns (msgs, more), l') ∧
    ∀ later,
      let w := Pagination.run layout css acts (Pagination.initial c) in
      let w' := Pagination.run layout css
                  (Pagination.Resume i (Pagination.PageResult msgs more)
                   :: later) w in
      Pagination.canLoadMore (Pagination.app w') = false ∧
      Pagination.requests (Pagination.app w')
        = Pagination.requests (Pagination.app w).
Proof.
  intros Hpage Htask.
  exists [], false, l.
  split; [by apply loadOlderMessages_fallback|].
  intros later. cbv zeta.
  set (w := Pagination.run layout css acts (Pagination.initial c)) in *.
  pose proof (Pagination.guarded_run layout css acts _
                (Pagination.guarded_initial c)) as Hg.
  fold w in Hg.
  set (w1 := Pagination.step layout css
               (Pagination.Resume i (Pagination.PageResult [] false)) w).
  assert (Hg1 : Pagination.guarded w1)
    by (by apply Pagination.guarded_step).
  assert (H1 : Pagination.canLoadMore (Pagination.app w1) = false ∧
               Pagination.requests (Pagination.app w1)
                 = Pagination.requests (Pagination.app w)).
  { subst w1. unfold Pagination.step. rewrite Htask. simpl.
    pose proof (Pagination.older_page_segment layout css h top [] false
                  (Pagination.app w)) as [[Hreq _] Hmore].
    destruct (Pagination.older_page layout css h top [] false (Pagination.app w))
      as [o a]. simpl in *. done. }
  destruct H1 as [Hm1 Hr1].
  destruct (Pagination.exhausted_run layout css later w1 Hg1 Hm1) as [Hm Hr].
  change (Pagination.run layout css
            (Pagination.Resume i (Pagination.PageResult [] false) :: later) w)
    with (Pagination.run layout css later w1).
  split; [done|congruence].
Qed.

Lemma failed_page_ends_scroll_witness :
  ∃ msgs more l',
    loadOlderMessages no_json bare_client None "!a" 10 []
      = (Returns (msgs, more), l') ∧
    ∀ later,
      let w := Pagination.run Pagination.flat Pagination.strict [Pagination.CallLoadOlder "!a"]
                 (Pagination.initial Pagination.view) in
      let w' := Pagination.run Pagination.flat Pagination.strict
                  (Pagination.Resume 0 (Pagination.PageResult msgs more)
                   :: later) w in
      Pagination.canLoadMore (Pagination.app w') = false ∧
      Pagination.requests (Pagination.app w')
        = Pagination.requests (Pagination.app w).
Proof.
  exact (failed_page_ends_scroll Pagination.flat Pagination.strict no_json bare_client None
           "!a" 10 [] Pagination.view [Pagination.CallLoadOlder "!a"]
           0%nat "!a" 60 30 eq_refl eq_refl).
Defined.

End History.

(** ** More on media locators ([parseMxc], [resolveMxcThumbnailUrl] and
    [fetchMediaAsBlobUrl] in src/matrix.js; [mxcToHttp] and [getMediaUrl]
    in src/app.js) *)

Module Resolvers.

Import Media.

(** [c] occurs in [s]. *)
Fixpoint has_char (c : ascii) (s : string) : bool :=
  match s with
  | EmptyString => false
  | String a rest => Ascii.eqb a c || has_char c rest
  end.

(** The query of a thumbnail URL; [width] and [height] are the numbers
    in the decimal form the template literal gives them. *)
Definition thumbnail_query (width height method : string) : string :=
  "?width=" +:+ width +:+ "&height=" +:+ height +:+ "&method=" +:+ method.

Definition v3_thumbnail (homeserver : string) (parts : MxcParts)
    (width height method : string) : string :=
  strip_trailing_slash homeserver +:+ "/_matrix/media/v3/thumbnail/"
    +:+ media_path parts +:+ thumbnail_query width height method.

Definition r0_thumbnail (homeserver : string) (parts : MxcParts)
    (width height method : string) : string :=
  strip_trailing_slash homeserver +:+ "/_matrix/media/r0/thumbnail/"
    +:+ media_path parts +:+ thumbnail_query width height method.

(** [resolveMxcThumbnailUrl(mxcUrl, width, height, method)]: here the
    [return r0] stands after the [try]. *)
Definition resolveMxcThumbnailUrl (env : Env) (mxcUrl : option string)
    (width height method : string) : Run (list string) unit JsValue :=
  match parseMxc mxcUrl with
  | None => ret JsNull
  | Some parts =>
      let v3 := v3_thumbnail (getHomeserverUrl env) parts width height method in
      let r0 := r0_thumbnail (getHomeserverUrl env) parts width height method in
      found ← try_catch
        (res ← fetch env v3;
         match res with
         | Responds true _ => ret (Some (JsString v3))
         | _ => ret None
         end)
        (fun _ => ret None);
      match found with
      | Some value => ret value
      | None => ret (JsString r0)
      end
  end.

(** [fetchMediaAsBlobUrl(mxcUrl)]: an invalid locator, a response that
    is not [ok] and a body that cannot be read all throw. *)
Definition fetchMediaAsBlobUrl (env : Env) (mxcUrl : option string)
  : Run (list string) unit string :=
  match parseMxc mxcUrl with
  | None => throw tt
  | Some parts =>
      let downloadUrl := r0_download (getHomeserverUrl env) parts in
      res ← fetch env downloadUrl;
      match res with
      | Responds true (Some blob) => ret (createObjectURL blob)
      | _ => throw tt
      end
  end.

(** Examples: a homeserver that answers every download with a response
    that is not [ok], and something that is no locator. *)
Definition refusing_downloads : Env :=
  mkEnv "https://hs.example/"
        (fun _ _ => Responds false None)
        (fun _ _ => "https://hs.example/_matrix/client/v1/media/download/hs.example/abc")
        (fun _ => None).

Definition web_address : string := "https://example.org/cat.png".

(** *** Facts *)

Lemma strip_prefix_spec p s rest :
  strip_prefix p s = Some rest ↔ s = p +:+ rest.
Proof.
  revert s. induction p as [|a p IH]; intros s.
  - rewrite Sending.append_nil. simpl. split; congruence.
  - rewrite Sending.append_cons. destruct s as [|b s]; simpl; [done|].
    destruct (Ascii.eqb_spec a b) as [->|Hne].
    + rewrite IH. split; congruence.
    + split; [done|]. intros [= ? ?]. congruence.
Qed.

Lemma split_first_spec c s before after :
  split_first c s = Some (before, after)
  ↔ s = before +:+ String c after ∧ has_char c before = false.
Proof.
  revert before. induction s as [|a s IH]; intros before; simpl.
  - split; [done|]. intros [H _]. by destruct before.
  - destruct (Ascii.eqb_spec a c) as [->|Hne].
    + split.
      * intros [= <- <-]. by rewrite Sending.append_nil.
      * intros [H Hno]. destruct before as [|b before].
        -- rewrite Sending.append_nil in H. congruence.
        -- rewrite Sending.append_cons in H. injection H as <- _.
           simpl in Hno. by rewrite Ascii.eqb_refl in Hno.
    + destruct (split_first c s) as [[b1 a1]|] eqn:E.
      * split.
        -- intros [= <- <-]. rewrite Sending.append_cons.
           destruct (proj1 (IH b1) eq_refl) as [-> Hno]. split; [done|].
           simpl. rewrite Hno. by apply Ascii.eqb_neq in Hne as ->.
        -- intros [H Hno]. destruct before as [|b before].
           ++ rewrite Sending.append_nil in H. congruence.
           ++ rewrite Sending.append_cons in H. injection H as <- Hs.
              simpl in Hno. apply orb_false_elim in Hno as [_ Hno].
              by pose proof (proj2 (IH before) (conj Hs Hno)) as [= -> ->].
      * split; [done|]. intros [H Hno]. destruct before as [|b before].
        -- rewrite Sending.append_nil in H. congruence.
        -- rewrite Sending.append_cons in H. injection H as <- Hs.
           simpl in Hno. apply orb_false_elim in Hno as [_ Hno].
           by pose proof (proj2 (IH before) (conj Hs Hno)).
Qed.

(** The pattern of [mxcToHttp] accepts what [parseMxc] accepts with a
    server name, a media id, and no line break in the media id. *)
Lemma mxcToHttp_parse env u thumbnail :
  mxcToHttp env u thumbnail =
    match parseMxc (Some u) with
    | Some parts =>
        if truthy (serverName parts) && truthy (mediaId parts)
           && one_line (mediaId parts)
        then Some (mxcUrlToHttp env u thumbnail) else None
    | None => None
    end.
Proof.
  unfold mxcToHttp, parseMxc.
  destruct (strip_prefix "mxc://" u) as [rest|]; [|done].
  by destruct (split_first "/" rest) as [[server media]|].
Qed.

Lemma fetch_run env url l :
  fetch env url l =
    match fetch_outcome env (length l) url with
    | Rejects => (Throws tt, l ++ [url])
    | r => (Returns r, l ++ [url])
    end.
Proof. reflexivity. Qed.

(** *** Theorems *)

(** X14.  [parseMxc] accepts exactly the strings made of [mxc://], a
    server name without a slash, a slash and a media id, and returns
    these two parts; both parts may be empty. *)
Theorem parseMxc_round_trip u parts :
  parseMxc (Some u) = Some parts
  ↔ u = "mxc://" +:+ serverName parts +:+ "/" +:+ mediaId parts
    ∧ has_char "/" (serverName parts) = false.
Proof.
  unfold parseMxc. destruct parts as [server media].
  cbn [serverName mediaId].
  change ("/" +:+ media) with (String "/" media).
  split.
  - destruct (strip_prefix "mxc://" u) as [rest|] eqn:Hp; [|done].
    destruct (split_first "/" rest) as [[before after]|] eqn:Hs; [|done].
    intros [= -> ->]. apply strip_prefix_spec in Hp.
    apply split_first_spec in Hs as [-> Hno]. done.
  - intros [-> Hno].
    rewrite (proj2 (strip_prefix_spec "mxc://" _ (server +:+ String "/" media))
               eq_refl).
    by rewrite (proj2 (split_first_spec "/" _ server media) (conj eq_refl Hno)).
Qed.

(** A media id with a line separator U+2028 in it is one the pattern of
    [mxcToHttp] refuses and [parseMxc] accepts. *)
Lemma separator_breaks_the_line env thumbnail :
  let ls := String (ascii_of_nat 226) (String (ascii_of_nat 128)
              (String (ascii_of_nat 168) "")) in
  let u := "mxc://hs/a" +:+ ls +:+ "b" in
  mxcToHttp env u thumbnail = None ∧
  parseMxc (Some u) = Some (mkParts "hs" ("a" +:+ ls +:+ "b")).
Proof. cbv zeta. split; vm_compute; reflexivity. Qed.

(** X15.  The two parsers of a locator agree up to empty parts: the
    pattern of [mxcToHttp] in src/app.js accepts a string exactly when
    [parseMxc] in src/matrix.js accepts it with a server name and a media
    id that are not empty and a media id on one line, that is without
    a line feed, a carriage return, U+2028 or U+2029. *)
Theorem parsers_agree env u thumbnail :
  is_Some (mxcToHttp env u thumbnail)
  ↔ ∃ parts, parseMxc (Some u) = Some parts ∧
             truthy (serverName parts) = true ∧
             truthy (mediaId parts) = true ∧
             one_line (mediaId parts) = true.
Proof.
  rewrite mxcToHttp_parse. destruct (parseMxc (Some u)) as [parts|].
  - split.
    + intros [h Hh]. exists parts.
      destruct (truthy (serverName parts)), (truthy (mediaId parts)),
        (one_line (mediaId parts)); done.
    + intros (p & [= <-] & -> & -> & ->). by eexists.
  - split; [intros [? ?]; done|intros (? & ? & _); done].
Qed.

(** X16.  What is no locator is never fetched: for a string [parseMxc]
    rejects, the two URL resolvers return [null], [getMediaUrl] returns
    [null], the image case shows the notice of an invalid URL, and
    [fetchMediaAsBlobUrl] throws; none of them makes a request. *)
Theorem invalid_locator_is_never_fetched env u width height method
    thumbnail l :
  parseMxc (Some u) = None → truthy u = true →
  resolveMxcDownloadUrl env (Some u) l = (Returns JsNull, l) ∧
  resolveMxcThumbnailUrl env (Some u) width height method l
    = (Returns JsNull, l) ∧
  fetchMediaAsBlobUrl env (Some u) l = (Throws tt, l) ∧
  getMediaUrl env (Some u) None thumbnail l = (Returns None, l) ∧
  formatMessageContent_image env None (Some u) l
    = (Returns InvalidImageUrl, l).
Proof.
  intros Hp Hu.
  unfold resolveMxcDownloadUrl, resolveMxcThumbnailUrl, fetchMediaAsBlobUrl,
    getMediaUrl, formatMessageContent_image, try_catch.
  rewrite mxcToHttp_parse, Hp, Hu. done.
Qed.

Lemma invalid_locator_is_never_fetched_witness :
  resolveMxcDownloadUrl unreachable (Some web_address) [] = (Returns JsNull, []) ∧
  resolveMxcThumbnailUrl unreachable (Some web_address) "800" "800" "scale" []
    = (Returns JsNull, []) ∧
  fetchMediaAsBlobUrl unreachable (Some web_address) [] = (Throws tt, []) ∧
  getMediaUrl unreachable (Some web_address) None None [] = (Returns None, []) ∧
  formatMessageContent_image unreachable None (Some web_address) []
    = (Returns InvalidImageUrl, []).
Proof.
  exact (invalid_locator_is_never_fetched unreachable web_address
           "800" "800" "scale" None [] eq_refl eq_refl).
Defined.

(** X17.  For a locator [parseMxc] accepts, each of the two URL
    resolvers makes one request, for its v3 URL, and never throws.
    [resolveMxcThumbnailUrl] always answers with a URL: the v3 one when
    the response is [ok], the r0 one otherwise.  [resolveMxcDownloadUrl]
    answers the v3 URL when the response is [ok] and the r0 URL when the
    request is rejected, but [undefined] when a response arrives that is
    not [ok]. *)
Theorem resolvers_on_refused_download env u parts width height method l :
  parseMxc (Some u) = Some parts →
  let v3 := v3_download (getHomeserverUrl env) parts in
  let r0 := r0_download (getHomeserverUrl env) parts in
  let t3 := v3_thumbnail (getHomeserverUrl env) parts width height method in
  let t0 := r0_thumbnail (getHomeserverUrl env) parts width height method in
  resolveMxcDownloadUrl env (Some u) l =
    (Returns match fetch_outcome env (length l) v3 with
             | Responds true _ => JsString v3
             | Responds false _ => JsUndefined
             | Rejects => JsString r0
             end, l ++ [v3]) ∧
  resolveMxcThumbnailUrl env (Some u) width height method l =
    (Returns match fetch_outcome env (length l) t3 with
             | Responds true _ => JsString t3
             | _ => JsString t0
             end, l ++ [t3]).
Proof.
  intros Hp. cbv zeta.
  unfold resolveMxcDownloadUrl, resolveMxcThumbnailUrl. rewrite Hp.
  unfold try_catch, mbind, run_bind, bind. rewrite !fetch_run. split.
  - by destruct (fetch_outcome env (length l) _) as [|[] ?].
  - by destruct (fetch_outcome env (length l) _) as [|[] ?].
Qed.

Lemma resolvers_on_refused_download_witness :
  resolveMxcDownloadUrl refusing_downloads (Some image_locator) [] =
    (Returns JsUndefined,
     ["https://hs.example/_matrix/media/v3/download/hs.example/abc?allow_redirect=true"]) ∧
  resolveMxcThumbnailUrl refusing_downloads (Some image_locator)
      "800" "800" "scale" [] =
    (Returns (JsString "https://hs.example/_matrix/media/r0/thumbnail/hs.example/abc?width=800&height=800&method=scale"),
     ["https://hs.example/_matrix/media/v3/thumbnail/hs.example/abc?width=800&height=800&method=scale"]).
Proof.
  exact (resolvers_on_refused_download refusing_downloads image_locator
           (mkParts "hs.example" "abc") "800" "800" "scale" [] eq_refl).
Defined.

(** X18.  [getMediaUrl] never throws and makes at most one request.
    With an encrypted-file descriptor it makes none and never falls back
    to the plaintext locator: it returns the object URL of the decrypted
    content, or [null] when the decryption fails. *)
Theorem getMediaUrl_never_throws env url file thumbnail l :
  ∃ value fetched,
    getMediaUrl env url file thumbnail l = (Returns value, l ++ fetched) ∧
    (length fetched <= 1)%nat ∧
    match file with
    | Some f =>
        fetched = [] ∧
        value = createObjectURL <$> downloadEncryptedContent env f
    | None => True
    end.
Proof.
  unfold getMediaUrl, try_catch.
  destruct file as [f|].
  - destruct (downloadEncryptedContent env f) as [blob|];
      eexists _, []; rewrite app_nil_r; (split; [reflexivity|]);
      simpl; (split; [lia|done]).
  - assert (Hnone : ∃ value fetched,
      (@Returns unit (option string) None, l) = (Returns value, l ++ fetched)
      ∧ (length fetched <= 1)%nat ∧ True).
    { exists None, []. rewrite app_nil_r. simpl. split_and!; [done|lia|done]. }
    destruct url as [u|]; [|exact Hnone].
    destruct (truthy u); [|exact Hnone]. cbn [negb].
    destruct (mxcToHttp env u thumbnail) as [httpUrl|]; [|exact Hnone].
    destruct (truthy httpUrl); [|exact Hnone]. cbn [negb].
    unfold mbind, run_bind, bind. rewrite fetch_run.
    destruct (fetch_outcome env (length l) httpUrl) as [|[] [b|]];
      eexists _, [httpUrl]; (split; [reflexivity|]); simpl; (split; [lia|done]).
Qed.

End Resolvers.

(** ** The message list of the page ([loadMessages] and
    [loadOlderMessages] in src/app.js, [updateDecryptedMessageInUI] and
    [addMessageToUI] in src/matrix.js) *)

Module Timeline.

Import Classifier Pagination.

(** The messages [createMessageElement] builds an element for:
    reactions and edits get none. *)
Definition renders (m : Message) : bool :=
  match payload m with
  | PReaction _ _ | PEdit _ _ => false
  | _ => true
  end.

(** [messageElement.replaceWith(node)] for the first element that
    carries the id. *)
Fixpoint replace_first (id : string) (node : Node) (l : list Node) : list Node :=
  match l with
  | [] => []
  | Element m e :: rest =>
      if String.eqb (eventId m) id then node :: rest
      else Element m e :: replace_first id node rest
  | n :: rest => n :: replace_first id node rest
  end.

(** [document.querySelector] for the id: the first element that
    carries it. *)
Fixpoint shown (id : string) (l : list Node) : option Node :=
  match l with
  | [] => None
  | Element m e :: rest =>
      if String.eqb (eventId m) id then Some (Element m e) else shown id rest
  | _ :: rest => shown id rest
  end.

Section Runs.

Variable layout : Node -> Z.
Variable css : string -> list Node -> Query.

(** [document.querySelector] on the selector [[data-event-id="..."]]
    built from an id that is not plain: it throws, or finds nothing, or
    finds the [i]-th child of the container. *)
Variable find : string -> list Node -> Completion unit (option nat).


(** An uninterrupted [loadMessages]: the call, the messages it is
    answered with, and the continuation after each element. *)
Fixpoint drain_messages (fuel : nat) (o : Outcome) (a : App) : Outcome * App :=
  match fuel, o with
  | S n, Suspended (MessagesAwaitElement roomId el rest) =>
      let '(o', a') := messages_element layout css roomId el rest a in
      drain_messages n o' a'
  | _, _ => (o, a)
  end.

Definition loadMessages_run (roomId : string) (messages : list Message)
    (a : App) : Outcome * App :=
  match loadMessages true roomId a with
  | (Suspended (MessagesAwaitRoom r), a1) =>
      let '(o, a2) := messages_room layout css r messages a1 in
      drain_messages (S (length messages)) o a2
  | r => r
  end.

(** What [updateDecryptedMessageInUI(event)] does once it has found the
    element, run without interruption, with the [addMessageToUI] it
    calls on a detached wrapper; [room] is
    [this.client.getRoom(event.getRoomId())] and [replace] is
    [messageElement.replaceWith].  Appending the [null] that
    [createMessageElement] returns for a reaction or an edit throws;
    before the element is replaced the view has been scrolled down. *)
Definition rerender (stringify : Content -> string)
    (client : Client) (event : MatrixEvent) (room : option Room)
    (replace : Node -> list Node -> list Node)
  : Run (App * list KeyRequest) unit unit :=
  fun '(a, l) =>
    match room with
    | None => (Returns tt, (a, l))
    | Some r =>
        match formatEventToMessage stringify client event r l with
        | (Throws e, l') => (Throws e, (a, l'))
        | (Returns msg, l') =>
            let '(el, a1) := createMessageElement layout css msg a in
            match el with
            | Throws e => (Throws e, (a1, l'))
            | Returns None => (Throws tt, (a1, l'))
            | Returns (Some node) =>
                let a2 := scrollToBottom layout a1 in
                let c := container a2 in
                (Returns tt,
                 (with_container
                    (set_children layout (replace node (children c)) c)
                    a2, l'))
            end
        end
    end.

(** [updateDecryptedMessageInUI(event)].  The element is looked up with
    a selector in which the id is not escaped: a plain id selects the
    first element that carries it; for any other id the selector engine
    decides, and a selector that does not parse makes the call throw. *)
Definition updateDecryptedMessageInUI (stringify : Content -> string)
    (client : Client) (event : MatrixEvent) (room : option Room)
  : Run (App * list KeyRequest) unit unit :=
  fun '(a, l) =>
    let id := getId event in
    if plain id then
      if has (existingIds (container a)) id
      then rerender stringify client event room (replace_first id) (a, l)
      else (Returns tt, (a, l))
    else
      match find id (children (container a)) with
      | Throws e => (Throws e, (a, l))
      | Returns None => (Returns tt, (a, l))
      | Returns (Some i) =>
          rerender stringify client event room
            (fun node nodes => <[i:=node]> nodes) (a, l)
      end.

End Runs.

(** *** Facts *)

Section Facts.

Variable layout : Node -> Z.
Variable css : string -> list Node -> Query.
Variable find : string -> list Node -> Completion unit (option nat).

Lemma createMessageElement_renders m a :
  renders m = true →
  createMessageElement layout css m a = (Returns (Some (Element m None)), a).
Proof.
  unfold renders, createMessageElement. by destruct (payload m).
Qed.



Lemma eventIds_app l1 l2 : eventIds (l1 ++ l2) = eventIds l1 ++ eventIds l2.
Proof.
  induction l1 as [|[g|m e|] l1 IH]; simpl; [done|done| |done]. by rewrite IH.
Qed.

Lemma getTopSentinel_app_element l m e :
  getTopSentinel (l ++ [Element m e]) = getTopSentinel l.
Proof. induction l as [|[g|m' e'|] l IH]; simpl; done. Qed.

Lemma createMessageElement_frame m a :
  observers (createMessageElement layout css m a).2 = observers a ∧
  sentinels (createMessageElement layout css m a).2 = sentinels a.
Proof.
  unfold createMessageElement. destruct (payload m); try done.
  repeat case_match; done.
Qed.

(** A reaction or an edit brings no element: [createMessageElement]
    returns [null], or it throws and leaves the page as it was. *)
Lemma createMessageElement_no_element m a :
  renders m = false →
  createMessageElement layout css m a = (Throws tt, a) ∨
  (createMessageElement layout css m a).1 = Returns None.
Proof.
  unfold renders, createMessageElement.
  destruct (payload m); try discriminate; intros _;
    repeat case_match; auto.
Qed.

(** The loop of [loadMessages]: each element goes to the end. *)
Lemma appended_insertion roomId (ms : list Message) :
  ∀ (fuel : nat) (a : App),
    (length ms <= fuel)%nat →
    forallb quiet ms = true →
    ∃ a',
      (let '(o, a1) := messages_loop layout css roomId ms a in
       drain_messages layout css fuel o a1) = (Finished, a') ∧
      existingIds (container a') =
        existingIds (container a) ++ map eventId (List.filter renders ms) ∧
      getTopSentinel (children (container a'))
        = getTopSentinel (children (container a)) ∧
      observers a' =
        observers a ++ (match getTopSentinel (children (container a)) with
                        | Some _ => [roomId]
                        | None => []
                        end) ∧
      isLoadingOlder a' = isLoadingOlder a ∧
      canLoadMore a' = canLoadMore a ∧
      requests a' = requests a.
Proof.
  induction ms as [|m ms IH]; intros fuel a Hfuel Hquiet.
  - exists (setupInfiniteScroll roomId (scrollToBottom layout a)).
    split; [by destruct fuel|].
    unfold setupInfiniteScroll, scrollToBottom. simpl.
    destruct (getTopSentinel (children (container a))) eqn:E; simpl;
      rewrite ?app_nil_r; rewrite ?E; done.
  - destruct fuel as [|fuel]; [simpl in Hfuel; lia|].
    cbn [forallb] in Hquiet. apply andb_prop in Hquiet as [Hqm Hquiet].
    simpl in Hfuel. unfold messages_loop at 1. cbn [List.filter].
    pose proof (createMessageElement_keeps layout css m a) as Hkeep.
    pose proof (createMessageElement_frame m a) as [Hobs _].
    cbv zeta in Hkeep.
    destruct (renders m) eqn:Hr.
    + rewrite (createMessageElement_renders m a Hr). simpl.
      unfold messages_element.
      set (a2 := with_container _ a).
      destruct (IH fuel a2 ltac:(lia) Hquiet)
        as (a' & Hrun & Hids & Hs & Ho & Hf & Hm & Hq).
      exists a'. split; [exact Hrun|].
      subst a2. unfold existingIds in *. simpl in *.
      rewrite getTopSentinel_app_element in Hs, Ho.
      rewrite eventIds_app in Hids. simpl in Hids.
      rewrite Hids, <- app_assoc. done.
    + pose proof (createMessageElement_no_element m a Hr) as Hno.
      pose proof (createMessageElement_quiet layout css m a Hqm) as Hnt.
      destruct (createMessageElement layout css m a) as [el a1] eqn:E.
      simpl in Hkeep, Hobs, Hno, Hnt.
      destruct Hkeep as (Hids1 & _ & Hs1 & Hf1 & Hm1 & Hq1).
      assert (el = Returns None) as ->.
      { destruct Hno as [[= -> _]|Hno]; done. }
      simpl. unfold messages_element.
      destruct (IH fuel a1 ltac:(lia) Hquiet)
        as (a' & Hrun & Hids & Hs & Ho & Hf & Hm & Hq).
      exists a'. split; [exact Hrun|].
      rewrite Hids, Hs, Ho, Hf, Hm, Hq, Hids1, Hs1, Hobs, Hf1, Hm1, Hq1. done.
Qed.




(** An event whose id makes a selector that does not parse is not
    looked up: the call throws and the page stays as it was. *)
Lemma unparsed_selector_throws stringify client event room a l :
  plain (getId event) = false →
  find (getId event) (children (container a)) = Throws tt →
  updateDecryptedMessageInUI layout css find stringify client event room (a, l)
    = (Throws tt, (a, l)).
Proof.
  intros Hplain Hfind. unfold updateDecryptedMessageInUI.
  by rewrite Hplain, Hfind.
Qed.

(** *** Theorems *)


(** X20.  An uninterrupted [loadMessages] for a room, answered with
    messages in which every edit names its target by a plain id (so that
    [createMessageElement] does not throw), finishes with a sentinel in
    the container and the elements of the messages in their order,
    reactions and edits bringing none; it registers the observer of the
    infinite scroll unless there is no message; and it leaves the
    pagination guard and the requests as they were. *)
Theorem loadMessages_shows_page roomId messages a :
  truthy roomId = true →
  forallb quiet messages = true →
  ∃ a',
    loadMessages_run layout css roomId messages a = (Finished, a') ∧
    existingIds (container a') = map eventId (List.filter renders messages) ∧
    is_Some (getTopSentinel (children (container a'))) ∧
    observers a' =
      observers a ++ (match messages with [] => [] | _ => [roomId] end) ∧
    isLoadingOlder a' = isLoadingOlder a ∧
    canLoadMore a' = canLoadMore a ∧
    requests a' = requests a.
Proof.
  intros Hr Hquiet. unfold loadMessages_run, loadMessages. rewrite Hr.
  cbn [negb orb]. unfold messages_room.
  destruct messages as [|m ms].
  - eexists. split; [reflexivity|]. simpl. rewrite app_nil_r.
    split_and!; try done; try by eexists.
  - set (a1 := mkApp _ _ _ _ _ _).
    destruct (appended_insertion roomId (m :: ms) (S (length (m :: ms))) a1)
      as (a' & Hrun & Hids & Hs & Ho & Hf & Hm & Hq); [lia|done|].
    exists a'. split; [exact Hrun|].
    subst a1. unfold existingIds in *. simpl in *.
    split_and!; try done; try (rewrite Hs; by eexists).
Qed.


End Facts.


Lemma loadMessages_shows_page_witness :
  ∃ a',
    loadMessages_run flat strict "!a" [note "$7"; note "$8"] page_open
      = (Finished, a') ∧
    existingIds (container a') = ["$7"; "$8"] ∧
    is_Some (getTopSentinel (children (container a'))) ∧
    observers a' = ["!a"] ∧
    isLoadingOlder a' = false ∧
    canLoadMore a' = true ∧
    requests a' = [].
Proof.
  exact (loadMessages_shows_page flat strict "!a" [note "$7"; note "$8"]
           page_open eq_refl eq_refl).
Defined.




End Timeline.

(** ** More on call sessions ([WebRTCManager]; [initiateCall] and
    [updateCallUI] in src/app.js) *)

Module Sessions.

Import Calls.

(** An uninterrupted [makeCall]: the call, the answer to the media
    request and, when the call was placed, the outcome of
    [call.placeCall]. *)
Definition makeCall_run (env : Env) (matrixApp : bool) (roomId : string)
    (video : bool) (media : MediaError + option Stream)
    (placed : option string) (s : State) : Outcome * State :=
  match makeCall roomId video s with
  | (Suspended (MakeAwaitMedia r v), s1) =>
      match makeCall_media env matrixApp r v media s1 with
      | (Suspended MakeAwaitPlace, s2) => makeCall_placed placed s2
      | other => other
      end
  | other => other
  end.

(** [initiateCall(isVideo)] of src/app.js, which the page runs with
    [window.MatrixApp] in place: the call UI is switched on when
    [makeCall] returned [true]. *)
Definition initiateCall (env : Env) (currentRoomId : option string)
    (rtcManager : bool) (video : bool) (media : MediaError + option Stream)
    (placed : option string) (s : State) : State :=
  match currentRoomId with
  | Some roomId =>
      if negb (truthy roomId) || negb rtcManager then s
      else
        match makeCall_run env true roomId video media placed s with
        | (Finished (Some true), s') => emit (UpdateCallUI true video) s'
        | (_, s') => s'
        end
  | None => s
  end.

(** What the call controls of the page show: the arguments of the last
    [updateCallUI]. *)
Definition call_ui (es : list Effect) : option (bool * bool) :=
  foldl (fun ui e => match e with
                     | UpdateCallUI inCall video => Some (inCall, video)
                     | _ => ui
                     end) None es.

Definition is_hangup (e : Effect) : bool :=
  match e with HangupCall _ | Reject _ => true | _ => false end.

(** The calls hung up or rejected so far. *)
Definition ended (s : State) : list Effect :=
  List.filter is_hangup (effects s).

(** The flag [isInCall] says whether there is a current call. *)
Definition synced (s : State) : Prop :=
  isInCall (mgr s) = match currentCall (mgr s) with
                     | Some _ => true
                     | None => false
                     end.

(** Example: a client on which placing the call fails. *)
Definition lobby_call : Call := mkCall 1 false false.

(** *** Facts *)

Ltac segments :=
  unfold synced, makeCall, makeCall_media, makeCall_failed, makeCall_placed,
    handleIncomingCall, incoming_failed, incoming_dialog, incoming_media,
    incoming_answered, hangup, hangup_done, on_event, handleCallEnded,
    cleanup, emit, emits, with_mgr in *;
  repeat case_match; simplify_eq/=; try done.

Lemma synced_resume env matrixApp t r s o s' :
  synced s → resume env matrixApp t r s = Some (o, s') → synced s'.
Proof.
  intros Hs Hr. destruct t, r; simpl in Hr; try discriminate;
    injection Hr as Hr; revert Hr; segments; intros [= <- <-]; segments.
Qed.

Lemma synced_step env matrixApp act w :
  synced (state w) → synced (state (step env matrixApp act w)).
Proof.
  intros Hs. destruct act as [roomId video|call| |i r|call e]; simpl.
  - destruct (makeCall roomId video (state w)) as [o s'] eqn:E. simpl.
    revert E. segments; intros [= <- <-]; segments.
  - destruct (handleIncomingCall env call (state w)) as [o s'] eqn:E. simpl.
    revert E. segments; intros [= <- <-]; segments.
  - destruct (hangup env (state w)) as [o s'] eqn:E. simpl.
    revert E. segments; intros [= <- <-]; segments.
  - destruct (tasks w !! i) as [t|]; [|done].
    destruct (resume env matrixApp t r (state w)) as [[o s']|] eqn:E; [|done].
    simpl. by eapply synced_resume.
  - destruct (bool_decide _); [|done]. simpl. segments.
Qed.

Lemma synced_run env matrixApp acts w :
  synced (state w) → synced (state (run env matrixApp acts w)).
Proof.
  revert w. induction acts as [|act acts IH]; intros w Hs; [done|].
  simpl. by apply IH, synced_step.
Qed.

Lemma call_ui_app es1 es2 :
  call_ui (es1 ++ es2) =
    foldl (fun ui e => match e with
                       | UpdateCallUI inCall video => Some (inCall, video)
                       | _ => ui
                       end) (call_ui es1) es2.
Proof. unfold call_ui. apply foldl_app. Qed.

Lemma call_ui_stops ui (tracks : list nat) :
  foldl (fun ui e => match e with
                     | UpdateCallUI inCall video => Some (inCall, video)
                     | _ => ui
                     end) ui (map StopTrack tracks) = ui.
Proof. revert ui. induction tracks as [|t tracks IH]; intros ui; simpl; auto. Qed.

Lemma ended_emit e s : is_hangup e = false → ended (emit e s) = ended s.
Proof.
  intros He. unfold ended, emit. simpl. rewrite List.filter_app. simpl.
  by rewrite He, app_nil_r.
Qed.

Lemma ended_cleanup s : ended (cleanup s) = ended s.
Proof.
  unfold ended, cleanup, emits, with_mgr.
  destruct (localStream (mgr s)) as [stream|]; simpl; [|done].
  rewrite List.filter_app.
  assert (H : List.filter is_hangup (map StopTrack (getTracks stream)) = []).
  { induction (getTracks stream); simpl; auto. }
  by rewrite H, app_nil_r.
Qed.

Lemma call_ui_emit e s :
  call_ui (effects (emit e s)) =
    match e with
    | UpdateCallUI inCall video => Some (inCall, video)
    | _ => call_ui (effects s)
    end.
Proof. unfold emit. simpl. rewrite call_ui_app. by destruct e. Qed.

Lemma call_ui_cleanup s : call_ui (effects (cleanup s)) = call_ui (effects s).
Proof.
  unfold cleanup, emits, with_mgr.
  destruct (localStream (mgr s)) as [stream|]; simpl; [|done].
  by rewrite call_ui_app, call_ui_stops.
Qed.

(** *** Theorems *)

(** X22.  In every state the manager reaches from idle, whatever calls,
    answers and call events arrive in whatever order, [isInCall] is set
    exactly when there is a current call. *)
Theorem call_flag_tracks_current_call env matrixApp acts :
  let s := state (run env matrixApp acts idle) in
  isInCall (mgr s) = true ↔ is_Some (currentCall (mgr s)).
Proof.
  cbv zeta.
  pose proof (synced_run env matrixApp acts idle eq_refl) as Hs.
  unfold synced in Hs. rewrite Hs.
  destruct (currentCall _); split; try done; try by eexists.
  all: by intros [? ?].
Qed.

(** X23.  The [hangup] event of any call whose handlers were ever
    installed, the current call or an earlier one, ends the session
    that is on: the tracks of the local stream are stopped and the
    manager is reset, while no call is hung up or rejected and no
    suspended call of the manager is cancelled. *)
Theorem any_listened_call_ends_the_session env matrixApp call w :
  call ∈ listening (state w) →
  let w' := step env matrixApp (Emit call HangupEvent) w in
  released (held (state w)) (state w') ∧
  ended (state w') = ended (state w) ∧
  tasks w' = tasks w.
Proof.
  intros Hin. cbv zeta. unfold step. rewrite bool_decide_eq_true_2 by done.
  cbn [state tasks on_event]. split; [apply handleCallEnded_releases|].
  split; [|done]. unfold handleCallEnded.
  destruct matrixApp; [rewrite ended_emit by done|]; apply ended_cleanup.
Qed.

Lemma any_listened_call_ends_the_session_witness :
  let w := run client true overlapping idle in
  let w' := step client true (Emit 1%nat HangupEvent) w in
  currentCall (mgr (state w)) = Some second_caller ∧
  released (held (state w)) (state w') ∧
  ended (state w') = ended (state w) ∧
  tasks w' = tasks w.
Proof.
  cbv zeta. split; [reflexivity|].
  apply (any_listened_call_ends_the_session client true 1%nat
           (run client true overlapping idle)).
  apply (bool_decide_unpack _). vm_compute. exact I.
Defined.

(** X24.  A call that fails to be placed leaves the call controls on:
    [makeCall] switches the call UI on before it places the call, and
    when [placeCall] fails it stops the tracks, resets the manager and
    shows the error, but nothing switches the call UI off again;
    [initiateCall] gets [false] and leaves it so.  No call is hung up. *)
Theorem failed_placement_leaves_call_ui_on env roomId video stream call
    message s :
  isInCall (mgr s) = false → truthy roomId = true →
  createCall env roomId = Some call →
  let s' := initiateCall env (Some roomId) true video (inr (Some stream))
              (Some message) s in
  call_ui (effects s') = Some (true, video) ∧
  released (getTracks stream) s' ∧
  ended s' = ended s.
Proof.
  intros Hin Hr Hc. cbv zeta.
  unfold initiateCall, makeCall_run, makeCall. rewrite Hr, Hin.
  cbn [negb orb]. unfold makeCall_media. rewrite Hc. cbv zeta.
  unfold makeCall_placed.
  match goal with
  | |- context [makeCall_failed message ?x] => set (s6 := x)
  end.
  assert (Hheld : held s6 = getTracks stream).
  { subst s6. unfold held. by destruct video. }
  pose proof (makeCall_failed_releases message s6) as Hrel.
  rewrite Hheld in Hrel.
  assert (Hui : call_ui (effects s6) = Some (true, video)).
  { subst s6. destruct video; simpl; rewrite !call_ui_app; done. }
  assert (Hend : ended s6 = ended s).
  { subst s6. unfold ended.
    destruct video; simpl; rewrite !List.filter_app; simpl;
      by rewrite !app_nil_r. }
  unfold makeCall_failed in *. cbn [fst snd] in *.
  split; [|split; [exact Hrel|]].
  - by rewrite call_ui_emit, call_ui_cleanup.
  - by rewrite ended_emit, ended_cleanup.
Qed.

Lemma failed_placement_leaves_call_ui_on_witness :
  let s' := initiateCall client (Some "!r") true false (inr (Some microphone))
              (Some "no route") (state idle) in
  call_ui (effects s') = Some (true, false) ∧
  released (getTracks microphone) s' ∧
  ended s' = ended (state idle).
Proof.
  exact (failed_placement_leaves_call_ui_on client "!r" false microphone
           lobby_call "no route" (state idle) eq_refl eq_refl eq_refl).
Defined.

End Sessions.
